(** * Monthly DCA into BTC + ETH: three allocation strategies

    A shallow embedding of [src/main.py] (sections 2-4 and 6 of the script:
    the length check, the running all-time-high, the simulation loop and the
    total invested) and the properties of the specification settled on it.

    The script is written with Python's arithmetic operators, which are
    resolved by the run-time type of the operands.  The embedding keeps the
    program text over an interface [Arith] of the operators it uses; the
    script runs it on IEEE 754 binary64, the [float64] of numpy (Rocq's
    primitive floats): [B64].  What depends on the loop only is proved for
    every arithmetic; what depends on the numbers is proved in binary64,
    from the rounding of [SpecFloat]. *)

From Stdlib Require Import String.
From Stdlib Require Import List Permutation Bool ZArith Lia.
From Stdlib Require Import Floats.
From Stdlib Require Uint63 Reals Lra.
Import ListNotations.

(** ** The arithmetic the script relies on *)

Declare Scope num_scope.
Delimit Scope num_scope with num.

Class Arith (num : Type) : Type := {
  (** a Python [int] operand, promoted to the number type by the operator *)
  int : Z -> num;
  add : num -> num -> num;
  sub : num -> num -> num;
  mul : num -> num -> num;
  div : num -> num -> num;
  (** [a >= b] is [leb b a]; [isnan] is numpy's [npy_isnan] *)
  leb : num -> num -> bool;
  isnan : num -> bool
}.

Notation "x + y" := (add x y) : num_scope.
Notation "x - y" := (sub x y) : num_scope.
Notation "x * y" := (mul x y) : num_scope.
Notation "x / y" := (div x y) : num_scope.
Notation "x <=? y" := (leb x y) : num_scope.

(** ** Exceptions *)

Inductive exn : Type :=
| ValueError (msg : string)
| IndexError.

Inductive outcome (A : Type) : Type :=
| Ok (a : A)
| Raise (e : exn).
Arguments Ok {A} a.
Arguments Raise {A} e.

Definition bind {A B : Type} (c : outcome A) (k : A -> outcome B) : outcome B :=
  match c with
  | Ok a => k a
  | Raise e => Raise e
  end.

Notation "x <- c ;; k" := (bind c (fun x => k))
  (at level 61, c at next level, right associativity).

(** ** The keys of the three dictionaries *)

Inductive strategy : Type := ATH | MC | EQ.

Definition strategy_eqb (a b : strategy) : bool :=
  match a, b with
  | ATH, ATH | MC, MC | EQ, EQ => true
  | _, _ => false
  end.

(** [d[k] = v] on a dictionary whose keys are the three strategies *)
Definition setitem {A : Type} (d : strategy -> A) (k : strategy) (v : A)
  : strategy -> A :=
  fun k' => if strategy_eqb k k' then v else d k'.

Section Program.

Context {num : Type} {A : Arith num}.
Local Open Scope num_scope.

(** A float literal [m e-k] of the script, as the quotient it denotes.  Both
    operands are integers below 2^53, so that in binary64 the correctly
    rounded quotient is the double the literal is read as. *)
Definition lit (m : Z) (k : nat) : num := int m / int (10 ^ Z.of_nat k).

(** *** numpy *)

(** [np.maximum] on two scalars: the larger one, a NaN if there is one
    (numpy: [(a >= b || npy_isnan(a)) ? a : b]).  Which operand comes back
    on a tie shows on [0.0] against [-0.0] only, and there the vectorised
    loops of numpy may return the other one; the statements below are on
    prices above 0, where a tie is one and the same number. *)
Definition maximum (a b : num) : num :=
  if (b <=? a) || isnan a then a else b.

Fixpoint scan (f : num -> num -> num) (acc : num) (a : list num) : list num :=
  match a with
  | [] => []
  | x :: r => let acc' := f acc x in acc' :: scan f acc' r
  end.

(** [ufunc.accumulate]: [out[0] = a[0]], [out[i] = f(out[i-1], a[i])]. *)
Definition accumulate (f : num -> num -> num) (a : list num) : list num :=
  match a with
  | [] => []
  | x :: r => x :: scan f x r
  end.

(** in the words of the specification: [m] is the maximum of the values
    [l], one of them and not below any of them *)
Definition is_maximum_of (m : num) (l : list num) : Prop :=
  In m l /\ forall x, In x l -> (x <=? m) = true.

(** [a[i]] *)
Definition getitem (a : list num) (i : nat) : outcome num :=
  match nth_error a i with
  | Some x => Ok x
  | None => Raise IndexError
  end.

(** *** The script *)

(** One row of [df]: the closes of BTC and ETH in a month where both exist. *)
Local Abbreviation row := (num * num)%type.

Definition supply_ratio_eth_to_btc : num := int 120000000 / int 19700000.

Definition monthly_budget : num := lit 500 0.

Record state : Type := mkState {
  btc_holding : strategy -> num;
  eth_holding : strategy -> num;
  value : strategy -> list num
}.

Definition initial : state :=
  {| btc_holding := fun _ => lit 0 0;
     eth_holding := fun _ => lit 0 0;
     value := fun _ => [] |}.

(** the weights of a month, as the three blocks of the loop body compute
    them *)
Definition distance (p ath : num) : num := int 1 - p / ath.

Definition ath_weights (p_btc p_eth ath_btc ath_eth : num) : num * num :=
  let dist_btc := distance p_btc ath_btc in
  let dist_eth := distance p_eth ath_eth in
  let total_dist := dist_btc + dist_eth + lit 1 12 in
  (dist_btc / total_dist, dist_eth / total_dist).

Definition mc_weights (p_btc p_eth : num) : num * num :=
  let mc_ratio := (p_eth * supply_ratio_eth_to_btc) / p_btc in
  let w_btc_mc := int 1 / (int 1 + mc_ratio) in
  let w_eth_mc := int 1 - w_btc_mc in
  (w_btc_mc, w_eth_mc).

Definition eq_weights : num * num := (lit 5 1, lit 5 1).

Definition weights (s : strategy) (p_btc p_eth ath_btc ath_eth : num)
  : num * num :=
  match s with
  | ATH => ath_weights p_btc p_eth ath_btc ath_eth
  | MC => mc_weights p_btc p_eth
  | EQ => eq_weights
  end.

(** [btc_holding[s] += (monthly_budget * w_btc) / p_btc] and the same for
    ETH *)
Definition buy (s : strategy) (w : num * num) (p_btc p_eth : num) (st : state)
  : state :=
  {| btc_holding :=
       setitem (btc_holding st) s
               (btc_holding st s + (monthly_budget * fst w) / p_btc);
     eth_holding :=
       setitem (eth_holding st) s
               (eth_holding st s + (monthly_budget * snd w) / p_eth);
     value := value st |}.

(** [value[s].append(btc_holding[s] * p_btc + eth_holding[s] * p_eth)] *)
Definition record (s : strategy) (p_btc p_eth : num) (st : state) : state :=
  {| btc_holding := btc_holding st;
     eth_holding := eth_holding st;
     value :=
       setitem (value st) s
               (value st s ++ [btc_holding st s * p_btc
                               + eth_holding st s * p_eth]) |}.

(** the part of a month that belongs to strategy [s] *)
Definition evaluate (s : strategy) (p_btc p_eth ath_btc ath_eth : num)
           (st : state) : state :=
  buy s (weights s p_btc p_eth ath_btc ath_eth) p_btc p_eth st.

(** the statements of the loop body once the four array reads are done, in
    the order of the script: the three purchases, then the three records *)
Definition month (p_btc p_eth ath_btc ath_eth : num) (st : state) : state :=
  let st := evaluate ATH p_btc p_eth ath_btc ath_eth st in
  let st := evaluate MC p_btc p_eth ath_btc ath_eth st in
  let st := evaluate EQ p_btc p_eth ath_btc ath_eth st in
  let st := record ATH p_btc p_eth st in
  let st := record MC p_btc p_eth st in
  record EQ p_btc p_eth st.

(** [for i in l: st = body(i, st)], until an exception *)
Fixpoint for_in (body : nat -> state -> outcome state) (l : list nat)
         (st : state) : outcome state :=
  match l with
  | [] => Ok st
  | i :: r => st' <- body i st ;; for_in body r st'
  end.

(** the body of [for i in range(n)] *)
Definition body (btc_prices eth_prices btc_ath eth_ath : list num)
           (i : nat) (st : state) : outcome state :=
  p_btc <- getitem btc_prices i ;;
  p_eth <- getitem eth_prices i ;;
  ath_btc <- getitem btc_ath i ;;
  ath_eth <- getitem eth_ath i ;;
  Ok (month p_btc p_eth ath_btc ath_eth st).

Definition range (n : nat) : list nat := seq 0 n.

Definition btc_prices_of (df : list row) : list num := map fst df.
Definition eth_prices_of (df : list row) : list num := map snd df.

(** the state after the first [k] iterations of the loop over [df] *)
Definition loop (df : list row) (k : nat) : outcome state :=
  let btc_prices := btc_prices_of df in
  let eth_prices := eth_prices_of df in
  let btc_ath := accumulate maximum btc_prices in
  let eth_ath := accumulate maximum eth_prices in
  for_in (body btc_prices eth_prices btc_ath eth_ath) (range k) initial.

(** sections 3 and 4 of the script *)
Definition simulate (df : list row) : outcome state :=
  let n := length df in
  loop df n.

Definition total_invested (df : list row) : num :=
  monthly_budget * int (Z.of_nat (length df)).

(** [a[-1]] *)
Definition last_item (a : list num) : outcome num :=
  match a with
  | [] => Raise IndexError
  | _ :: _ => getitem a (length a - 1)
  end.

Definition not_enough : string :=
  "Not enough monthly data. Something went wrong with yfinance."%string.

(** the script from the aligned frame [df] on: the check of section 2, then
    the simulation; what is handed to the plot and the report is the three
    value series and the total invested *)
Definition main (df : list row) : outcome (state * num) :=
  if (length df <? 12)%nat then Raise (ValueError not_enough)
  else st <- simulate df ;; Ok (st, total_invested df).

(** *** The same months under another order of evaluation

    For the independence of the strategies the six statements of a month
    are named, and a month is run under any list of them. *)

Inductive action : Type :=
| Buy (s : strategy)
| Rec (s : strategy).

Definition owner (a : action) : strategy :=
  match a with Buy s | Rec s => s end.

Definition perform (p_btc p_eth ath_btc ath_eth : num) (st : state)
           (a : action) : state :=
  match a with
  | Buy s => evaluate s p_btc p_eth ath_btc ath_eth st
  | Rec s => record s p_btc p_eth st
  end.

Definition month_by (acts : list action) (p_btc p_eth ath_btc ath_eth : num)
           (st : state) : state :=
  fold_left (perform p_btc p_eth ath_btc ath_eth) acts st.

(** the order of the script *)
Definition lockstep : list action :=
  [Buy ATH; Buy MC; Buy EQ; Rec ATH; Rec MC; Rec EQ].

(** the statements of strategy [s] among [acts], in their order *)
Definition own (s : strategy) (acts : list action) : list action :=
  filter (fun a => strategy_eqb (owner a) s) acts.

(** every strategy buys once and then records once; how the statements of
    different strategies interleave is free *)
Definition fair (acts : list action) : Prop :=
  forall s, own s acts = [Buy s; Rec s].

(** the strategies one after the other, each purchase followed by its
    record, in the order [ord] *)
Definition one_by_one (ord : list strategy) : list action :=
  flat_map (fun s => [Buy s; Rec s]) ord.

(** the three purchases and then the three records, both in the order
    [ord] *)
Definition purchases_then_records (ord : list strategy) : list action :=
  map Buy ord ++ map Rec ord.

Definition body_by (sched : nat -> list action)
           (btc_prices eth_prices btc_ath eth_ath : list num)
           (i : nat) (st : state) : outcome state :=
  p_btc <- getitem btc_prices i ;;
  p_eth <- getitem eth_prices i ;;
  ath_btc <- getitem btc_ath i ;;
  ath_eth <- getitem eth_ath i ;;
  Ok (month_by (sched i) p_btc p_eth ath_btc ath_eth st).

Definition loop_by (sched : nat -> list action) (df : list row) (k : nat)
  : outcome state :=
  let btc_prices := btc_prices_of df in
  let eth_prices := eth_prices_of df in
  let btc_ath := accumulate maximum btc_prices in
  let eth_ath := accumulate maximum eth_prices in
  for_in (body_by sched btc_prices eth_prices btc_ath eth_ath) (range k)
         initial.

Definition simulate_by (sched : nat -> list action) (df : list row)
  : outcome state :=
  loop_by sched df (length df).

(** *** Vocabulary of the statements below *)

(** the four reads of iteration [i] *)
Record reads : Type := mkReads {
  p_btc : num; p_eth : num; ath_btc : num; ath_eth : num
}.

Definition reads_at (df : list row) (i : nat) (r : reads) : Prop :=
  nth_error (btc_prices_of df) i = Some (p_btc r)
  /\ nth_error (eth_prices_of df) i = Some (p_eth r)
  /\ nth_error (accumulate maximum (btc_prices_of df)) i = Some (ath_btc r)
  /\ nth_error (accumulate maximum (eth_prices_of df)) i = Some (ath_eth r).

(** what belongs to strategy [s] in a state *)
Definition view (s : strategy) (st : state) : num * num * list num :=
  (btc_holding st s, eth_holding st s, value st s).

End Program.

(** ** The report

    Section 6 of the script: the final value and the ROI of each
    strategy. *)

Section Report.

Context {num : Type} {A : Arith num}.
Local Open Scope num_scope.

Local Abbreviation state := (@state num).
Local Abbreviation row := (num * num)%type.

(** [roi = (final / total_invested - 1) * 100] *)
Definition roi (final invested : num) : num :=
  (final / invested - int 1) * int 100.

(** the loop of section 6: for each strategy, in the order ATH, MC, EQ, the
    last entry of its series and its ROI *)
Fixpoint results (st : state) (invested : num) (shorts : list strategy)
  : outcome (list (strategy * num * num)) :=
  match shorts with
  | [] => Ok []
  | short :: rest =>
      final <- last_item (value st short) ;;
      lines <- results st invested rest ;;
      Ok ((short, final, roi final invested) :: lines)
  end.

(** the script from the aligned frame to the lines of the report *)
Definition script (df : list row)
  : outcome (list (strategy * num * num)) :=
  out <- main df ;;
  results (fst out) (snd out) [ATH; MC; EQ].

(** what the equal-weight strategy buys of an asset at price [p] *)
Definition eq_quantity (p : num) : num := (monthly_budget * lit 5 1) / p.

(** [sum] from the left, starting at [0.0], as [+=] does in the loop *)
Definition total (l : list num) : num := fold_left add l (lit 0 0).

End Report.

(** ** Binary64 *)

(** binary64, round to nearest even: numpy's [float64] and Python's
    [float] *)
Module B64.

(** the double nearest to an integer *)
Definition of_Z (z : Z) : float :=
  SF2Prim (binary_normalize prec emax z 0 false).

#[export] Instance arith : Arith float := {|
  int := of_Z;
  add := PrimFloat.add;
  sub := PrimFloat.sub;
  mul := PrimFloat.mul;
  div := PrimFloat.div;
  leb := PrimFloat.leb;
  isnan := PrimFloat.is_nan
|}.

(** [0 < p] and [0 <= x]; both are false of a NaN *)
Definition is_positive (p : float) : bool := PrimFloat.ltb 0 p.

Definition nonneg (x : float) : bool := PrimFloat.leb 0 x.

(** a price of the data model: positive, and a number (not [inf]) *)
Definition valid_price (p : float) : bool :=
  PrimFloat.ltb 0 p && PrimFloat.ltb p infinity.

Definition valid_row (r : float * float) : bool :=
  valid_price (fst r) && valid_price (snd r).

(** the two weights sum to 1 within the tolerance 1e-9 of the
    specification *)
Definition sums_to_one (w : float * float) : bool :=
  PrimFloat.leb (abs (PrimFloat.sub (PrimFloat.add (fst w) (snd w)) 1))
                (lit 1 9).

(** the holdings of a state are all zero or above *)
Definition holdings_nonneg (st : state (num := float)) : Prop :=
  forall s, nonneg (btc_holding st s) = true
            /\ nonneg (eth_holding st s) = true.

(** prices that never fall: every price is at least the one before *)
Definition rising (a : list float) : Prop :=
  forall i x y,
    nth_error a i = Some x -> nth_error a (S i) = Some y ->
    PrimFloat.leb x y = true.

(** the same, as a test *)
Fixpoint risingb (a : list float) : bool :=
  match a with
  | x :: (y :: _) as r => PrimFloat.leb x y && risingb r
  | _ => true
  end.

(** *** Two frames *)

(** twelve months at constant prices: both assets are at their all-time
    high in every month *)
Definition flat_year : list (float * float) := repeat (100, 50)%float 12.

(** twelve months in which BTC and ETH both make a new high in month 3 *)
Definition mixed_year : list (float * float) :=
  [(100, 50); (90, 50); (100, 40); (120, 60); (110, 30); (115, 45);
   (130, 70); (125, 65); (120, 60); (140, 80); (135, 75); (150, 90)]%float.

(** twelve months in which no price falls *)
Definition rising_year : list (float * float) :=
  [(100, 50); (100, 55); (110, 55); (120, 60); (125, 70); (130, 70);
   (130, 75); (140, 80); (150, 80); (155, 85); (160, 90); (170, 95)]%float.

(** *** Comparisons of the statements *)

(** the relative tolerance: 1e-9 *)
Definition tolerance : float := lit 1 9.

(** [a] and [b] are the same within the tolerance: each is at most the
    other times [1 + 1e-9] *)
Definition close (a b : float) : bool :=
  PrimFloat.leb a (PrimFloat.mul b (PrimFloat.add 1 tolerance))
  && PrimFloat.leb b (PrimFloat.mul a (PrimFloat.add 1 tolerance)).

(** a price between 2^-900 and 2^900 *)
Definition in_range (p : float) : bool :=
  PrimFloat.leb 0x1p-900 p && PrimFloat.leb p 0x1p900.

(** neither of [a] and [b] is more than 2^40 times the other *)
Definition comparable (a b : float) : bool :=
  PrimFloat.leb b (PrimFloat.mul 0x1p40 a)
  && PrimFloat.leb a (PrimFloat.mul 0x1p40 b).

(** *** Vocabulary of rounding

    [SpecFloat] rounds a mantissa [m] at exponent [e] in three steps, read
    here on integers. *)

(** [shr_fexp] drops the [n] low bits that the format has no room for *)
Definition drop (m e : Z) : Z :=
  Z.max 0 (fexp prec emax (Zdigits2 m + e) - e)%Z.

(** what is left of a rounded mantissa [m] at exponent [e] *)
Definition finish (s : bool) (m e : Z) : spec_float :=
  match m with
  | Z0 => S754_zero s
  | Zpos p => if (e <=? 971)%Z then S754_finite s p e else S754_infinity s
  | Zneg _ => S754_nan
  end.

(** zero or above (or [-0.0]) *)
Definition sf_nonneg (x : spec_float) : Prop :=
  match x with
  | S754_zero _ | S754_finite false _ _ | S754_infinity false => True
  | _ => False
  end.

(** zero or above, and not [inf] *)
Definition sf_finite_nonneg (x : spec_float) : Prop :=
  match x with
  | S754_zero _ | S754_finite false _ _ => True
  | _ => False
  end.

(** above zero *)
Definition sf_pos (x : spec_float) : Prop :=
  match x with
  | S754_finite false _ _ | S754_infinity false => True
  | _ => False
  end.

(** 1.0, that is 2^52 * 2^-52 *)
Definition sf_one : spec_float :=
  S754_finite false 4503599627370496 (-52)%Z.

(** *** Binary64 numbers as real numbers *)

Section Real.

Import Reals.
Local Open Scope R_scope.

(** the value of the mantissa [m] at the exponent [e] *)
Definition val (m e : Z) : R := IZR m * powerRZ 2 e.

(** the real number that a binary64 number stands for (0 for what is not
    a number) *)
Definition SF2R (x : spec_float) : R :=
  match x with
  | S754_finite false m e => val (Z.pos m) e
  | S754_finite true m e => - val (Z.pos m) e
  | _ => 0
  end.

Definition B2R (a : float) : R := SF2R (Prim2SF a).

(** what one rounding may add or take away, in relation to the number *)
Definition rnd_error : R := powerRZ 2 (-52).

(** [r] is [X] up to one rounding *)
Definition rounds (r : float) (X : R) : Prop :=
  X * (1 - rnd_error) <= B2R r <= X * (1 + rnd_error).

End Real.

End B64.

(** ** The loop, whatever the arithmetic *)

Section Structure.

Context {num : Type} {A : Arith num}.
Local Open Scope num_scope.

Local Abbreviation state := (@state num).
Local Abbreviation row := (num * num)%type.
Local Abbreviation reads := (@reads num).

Lemma Ok_inj {X : Type} (a b : X) : Ok a = Ok b -> a = b.
Proof. intros H. now injection H. Qed.


Lemma scan_length (f : num -> num -> num) (a : list num) (acc : num) :
  length (scan f acc a) = length a.
Proof.
  revert acc; induction a as [|x r IH]; intros acc; simpl; [reflexivity|].
  now rewrite IH.
Qed.

Lemma accumulate_length (f : num -> num -> num) (a : list num) :
  length (accumulate f a) = length a.
Proof.
  destruct a as [|x r]; simpl; [reflexivity|].
  now rewrite scan_length.
Qed.

Lemma getitem_Ok (a : list num) (i : nat) :
  (i < length a)%nat -> exists x, getitem a i = Ok x /\ nth_error a i = Some x.
Proof.
  intros Hi. unfold getitem.
  destruct (nth_error a i) as [x|] eqn:E.
  - now exists x.
  - apply nth_error_None in E. lia.
Qed.

Lemma for_in_app (b : nat -> state -> outcome state) (l1 l2 : list nat)
      (st : state) :
  for_in b (l1 ++ l2) st = (st' <- for_in b l1 st ;; for_in b l2 st').
Proof.
  revert st; induction l1 as [|i r IH]; intros st; simpl; [reflexivity|].
  destruct (b i st) as [st'|e]; simpl; [apply IH|reflexivity].
Qed.

(** one more iteration is the body run on the state of the iterations
    before *)
Lemma loop_S (df : list row) (k : nat) :
  loop df (S k)
  = (st <- loop df k ;;
     body (btc_prices_of df) (eth_prices_of df)
          (accumulate maximum (btc_prices_of df))
          (accumulate maximum (eth_prices_of df)) k st).
Proof.
  unfold loop, range. rewrite seq_S, for_in_app. simpl.
  destruct (for_in _ (seq 0 k) initial) as [st|e]; simpl; [|reflexivity].
  now destruct (body _ _ _ _ k st).
Qed.

Lemma reads_at_fun (df : list row) (i : nat) (r r' : reads) :
  reads_at df i r -> reads_at df i r' -> r = r'.
Proof.
  destruct r, r'; unfold reads_at; simpl.
  intros (?&?&?&?) (?&?&?&?); congruence.
Qed.

Lemma reads_at_exists (df : list row) (i : nat) :
  (i < length df)%nat -> exists r, reads_at df i r.
Proof.
  intros Hi.
  destruct (getitem_Ok (btc_prices_of df) i) as (pb&_&Hpb);
    [unfold btc_prices_of; now rewrite length_map|].
  destruct (getitem_Ok (eth_prices_of df) i) as (pe&_&Hpe);
    [unfold eth_prices_of; now rewrite length_map|].
  destruct (getitem_Ok (accumulate maximum (btc_prices_of df)) i) as (ab&_&Hab);
    [rewrite accumulate_length; unfold btc_prices_of; now rewrite length_map|].
  destruct (getitem_Ok (accumulate maximum (eth_prices_of df)) i) as (ae&_&Hae);
    [rewrite accumulate_length; unfold eth_prices_of; now rewrite length_map|].
  now exists (mkReads pb pe ab ae).
Qed.

Lemma reads_at_lt (df : list row) (i : nat) (r : reads) :
  reads_at df i r -> (i < length df)%nat.
Proof.
  intros (H&_).
  assert (nth_error (btc_prices_of df) i <> None) as N by congruence.
  apply nth_error_Some in N. unfold btc_prices_of in N.
  now rewrite length_map in N.
Qed.

Lemma body_reads (df : list row) (i : nat) (r : reads) (st : state) :
  reads_at df i r ->
  body (btc_prices_of df) (eth_prices_of df)
       (accumulate maximum (btc_prices_of df))
       (accumulate maximum (eth_prices_of df)) i st
  = Ok (month (p_btc r) (p_eth r) (ath_btc r) (ath_eth r) st).
Proof.
  intros (H1&H2&H3&H4). unfold body, getitem.
  now rewrite H1, H2, H3, H4.
Qed.

(** the loop never raises: every index it reads is in range *)
Lemma loop_total (df : list row) (k : nat) :
  (k <= length df)%nat -> exists st, loop df k = Ok st.
Proof.
  induction k as [|k IH]; intros Hk.
  - now exists initial.
  - destruct IH as (st&Hst); [lia|].
    destruct (reads_at_exists df k) as (r&Hr); [lia|].
    rewrite loop_S, Hst. simpl. rewrite (body_reads _ _ _ st Hr). eauto.
Qed.

Lemma loop_step (df : list row) (k : nat) (r : reads) (st : state) :
  loop df k = Ok st -> reads_at df k r ->
  loop df (S k) = Ok (month (p_btc r) (p_eth r) (ath_btc r) (ath_eth r) st).
Proof.
  intros Hst Hr. rewrite loop_S, Hst. simpl. now apply body_reads.
Qed.

(** what a month does to the entries of one strategy *)
Lemma month_btc (s : strategy) (pb pe ab ae : num) (st : state) :
  btc_holding (month pb pe ab ae st) s
  = btc_holding st s + (monthly_budget * fst (weights s pb pe ab ae)) / pb.
Proof. destruct s; reflexivity. Qed.

Lemma month_eth (s : strategy) (pb pe ab ae : num) (st : state) :
  eth_holding (month pb pe ab ae st) s
  = eth_holding st s + (monthly_budget * snd (weights s pb pe ab ae)) / pe.
Proof. destruct s; reflexivity. Qed.

Lemma month_value (s : strategy) (pb pe ab ae : num) (st : state) :
  value (month pb pe ab ae st) s
  = value st s ++ [btc_holding (month pb pe ab ae st) s * pb
                   + eth_holding (month pb pe ab ae st) s * pe].
Proof. destruct s; reflexivity. Qed.

Lemma loop_value_length (df : list row) (k : nat) (st : state) (s : strategy) :
  loop df k = Ok st -> (k <= length df)%nat -> length (value st s) = k.
Proof.
  revert st; induction k as [|k IH]; intros st Hst Hk.
  - unfold loop in Hst; simpl in Hst. now inversion Hst.
  - destruct (loop_total df k) as (st0&H0); [lia|].
    destruct (reads_at_exists df k) as (r&Hr); [lia|].
    rewrite (loop_step _ _ _ _ H0 Hr) in Hst. inversion Hst; subst st.
    rewrite month_value, length_app, (IH st0 H0) by lia; simpl; lia.
Qed.

(** the series of the first [k] months is a prefix of every later one *)
Lemma loop_value_prefix (df : list row) (k j : nat) (st st' : state)
      (s : strategy) :
  loop df k = Ok st -> loop df (k + j) = Ok st' -> (k + j <= length df)%nat ->
  exists l, value st' s = value st s ++ l.
Proof.
  revert st'; induction j as [|j IH]; intros st' Hst Hst' Hk.
  - rewrite Nat.add_0_r in Hst'. exists []. rewrite app_nil_r. congruence.
  - destruct (loop_total df (k + j)) as (st0&H0); [lia|].
    destruct (reads_at_exists df (k + j)) as (r&Hr); [lia|].
    replace (k + S j)%nat with (S (k + j)) in Hst' by lia.
    rewrite (loop_step _ _ _ _ H0 Hr) in Hst'. inversion Hst'; subst st'.
    destruct (IH st0 Hst H0) as (l&Hl); [lia|].
    rewrite month_value, Hl, <- app_assoc. eauto.
Qed.

Lemma reads_at_row (df : list row) (i : nat) (r : reads) :
  reads_at df i r -> nth_error df i = Some (p_btc r, p_eth r).
Proof.
  intros (H1&H2&_). unfold btc_prices_of, eth_prices_of in *.
  rewrite nth_error_map in H1, H2.
  destruct r as [pb pe ab ae]; simpl in *.
  destruct (nth_error df i) as [[a b]|]; simpl in H1, H2; [|discriminate].
  injection H1 as ->. injection H2 as ->. reflexivity.
Qed.

Lemma last_item_nth (l : list num) (n : nat) (x : num) :
  length l = S n -> nth_error l n = Some x -> last_item l = Ok x.
Proof.
  intros L H. destruct l as [|y l]; [discriminate|].
  unfold last_item, getitem. rewrite L. simpl Nat.sub.
  rewrite Nat.sub_0_r. now rewrite H.
Qed.

(** the entry of month [i] in the series the simulation ends with *)
Lemma simulate_entry (df : list row) (i : nat) :
  (i < length df)%nat ->
  exists st r before,
    simulate df = Ok st /\ reads_at df i r /\ loop df i = Ok before
    /\ loop df (S i)
       = Ok (month (p_btc r) (p_eth r) (ath_btc r) (ath_eth r) before)
    /\ forall s,
        length (value st s) = length df
        /\ nth_error (value st s) i
           = Some (btc_holding
                     (month (p_btc r) (p_eth r) (ath_btc r) (ath_eth r) before)
                     s * p_btc r
                   + eth_holding
                       (month (p_btc r) (p_eth r) (ath_btc r) (ath_eth r)
                              before)
                       s * p_eth r).
Proof.
  intros Hi.
  destruct (loop_total df (length df)) as (st&Hst); [lia|].
  destruct (reads_at_exists df i Hi) as (r&Hr).
  destruct (loop_total df i) as (before&Hb); [lia|].
  pose proof (loop_step _ _ _ _ Hb Hr) as Ha.
  exists st, r, before.
  split; [exact Hst|]. split; [exact Hr|]. split; [exact Hb|].
  split; [exact Ha|]. intros s. split.
  - eapply loop_value_length; [exact Hst|lia].
  - destruct (loop_value_prefix df (S i) (length df - S i) _ st s Ha)
      as (l&Hl).
    + replace (S i + (length df - S i))%nat with (length df) by lia.
      exact Hst.
    + lia.
    + rewrite Hl, month_value, <- app_assoc.
      rewrite nth_error_app2; rewrite (loop_value_length _ _ _ s Hb) by lia;
        try lia.
      now rewrite Nat.sub_diag.
Qed.

(** C4. Every strategy's value series has one entry per row of the frame,
    and entry [i] is [btc_holding * p_btc + eth_holding * p_eth] on the
    holdings as they are once the purchase of month [i] has been added to
    those of the months before. *)
Theorem value_series_after_purchase (df : list row) :
  exists st, simulate df = Ok st /\
  forall s,
    length (value st s) = length df /\
    forall i, (i < length df)%nat ->
      exists r before after,
        reads_at df i r
        /\ loop df i = Ok before /\ loop df (S i) = Ok after
        /\ btc_holding after s
           = btc_holding before s
             + (monthly_budget
                * fst (weights s (p_btc r) (p_eth r) (ath_btc r) (ath_eth r)))
               / p_btc r
        /\ eth_holding after s
           = eth_holding before s
             + (monthly_budget
                * snd (weights s (p_btc r) (p_eth r) (ath_btc r) (ath_eth r)))
               / p_eth r
        /\ nth_error (value st s) i
           = Some (btc_holding after s * p_btc r
                   + eth_holding after s * p_eth r).
Proof.
  destruct (loop_total df (length df)) as (st&Hst); [lia|].
  exists st; split; [exact Hst|]. intros s; split.
  - eapply loop_value_length; [exact Hst|lia].
  - intros i Hi.
    destruct (simulate_entry df i Hi) as (st'&r&before&Hst'&Hr&Hb&Ha&Hs).
    assert (st' = st) as -> by (unfold simulate in Hst'; congruence).
    exists r, before,
      (month (p_btc r) (p_eth r) (ath_btc r) (ath_eth r) before).
    split; [exact Hr|]. split; [exact Hb|]. split; [exact Ha|].
    split; [apply month_btc|]. split; [apply month_eth|].
    apply Hs.
Qed.

(** C8. A frame of fewer than 12 rows makes the script raise before
    anything is simulated, and the exception is the outcome of the script;
    with 12 rows or more the simulation runs to its end. *)
Theorem twelve_months_needed (df : list row) :
  ((length df < 12)%nat -> main df = Raise (ValueError not_enough))
  /\ ((12 <= length df)%nat ->
      exists st, simulate df = Ok st /\ main df = Ok (st, total_invested df)).
Proof.
  unfold main. split; intros H.
  - apply Nat.ltb_lt in H. now rewrite H.
  - destruct (loop_total df (length df)) as (st&Hst); [lia|].
    exists st. split; [exact Hst|].
    assert ((length df <? 12)%nat = false) as -> by (apply Nat.ltb_ge; lia).
    unfold simulate. now rewrite Hst.
Qed.

(** *** Independence of the strategies *)

Lemma perform_view (s : strategy) (pb pe ab ae : num) (st1 st2 : state)
      (a : action) :
  view s st1 = view s st2 ->
  view s (perform pb pe ab ae st1 a)
  = if strategy_eqb (owner a) s then view s (perform pb pe ab ae st2 a)
    else view s st2.
Proof.
  unfold view. intros H. injection H as Hb He Hv.
  destruct a as [s'|s']; destruct s', s; simpl; unfold setitem; simpl;
    congruence.
Qed.

Lemma month_by_view (s : strategy) (pb pe ab ae : num) (acts : list action)
      (st1 st2 : state) :
  view s st1 = view s st2 ->
  view s (month_by acts pb pe ab ae st1)
  = view s (month_by (own s acts) pb pe ab ae st2).
Proof.
  unfold month_by.
  revert st1 st2; induction acts as [|a r IH]; intros st1 st2 H; simpl;
    [exact H|].
  pose proof (perform_view s pb pe ab ae _ _ a H) as Hp.
  destruct (strategy_eqb (owner a) s); simpl; apply IH; exact Hp.
Qed.

Lemma month_is_lockstep (pb pe ab ae : num) (st : state) :
  month pb pe ab ae st = month_by lockstep pb pe ab ae st.
Proof. reflexivity. Qed.

Lemma loop_by_S (sched : nat -> list action) (df : list row) (k : nat) :
  loop_by sched df (S k)
  = (st <- loop_by sched df k ;;
     body_by sched (btc_prices_of df) (eth_prices_of df)
             (accumulate maximum (btc_prices_of df))
             (accumulate maximum (eth_prices_of df)) k st).
Proof.
  unfold loop_by, range. rewrite seq_S, for_in_app. simpl.
  destruct (for_in _ (seq 0 k) initial) as [st|e]; simpl; [|reflexivity].
  now destruct (body_by _ _ _ _ _ k st).
Qed.

Lemma body_by_reads (sched : nat -> list action) (df : list row) (i : nat)
      (r : reads) (st : state) :
  reads_at df i r ->
  body_by sched (btc_prices_of df) (eth_prices_of df)
          (accumulate maximum (btc_prices_of df))
          (accumulate maximum (eth_prices_of df)) i st
  = Ok (month_by (sched i) (p_btc r) (p_eth r) (ath_btc r) (ath_eth r) st).
Proof.
  intros (H1&H2&H3&H4). unfold body_by, getitem.
  now rewrite H1, H2, H3, H4.
Qed.

(** as long as strategy [s] buys once and then records once in every month,
    what the other strategies do, and when, is invisible in its entries *)
Lemma loop_by_view (sched : nat -> list action) (s : strategy)
      (df : list row) (k : nat) :
  (k <= length df)%nat ->
  (forall i, (i < k)%nat -> own s (sched i) = [Buy s; Rec s]) ->
  exists st st',
    loop df k = Ok st /\ loop_by sched df k = Ok st' /\ view s st' = view s st.
Proof.
  induction k as [|k IH]; intros Hk Hs.
  - exists initial, initial. now repeat split.
  - destruct IH as (st&st'&H1&H2&Hv); [lia|intros; apply Hs; lia|].
    destruct (reads_at_exists df k) as (r&Hr); [lia|].
    exists (month (p_btc r) (p_eth r) (ath_btc r) (ath_eth r) st),
      (month_by (sched k) (p_btc r) (p_eth r) (ath_btc r) (ath_eth r) st').
    split; [now apply loop_step|]. split.
    + rewrite loop_by_S, H2. simpl. now apply body_by_reads.
    + rewrite month_is_lockstep.
      rewrite (month_by_view s _ _ _ _ (sched k) _ _ Hv), Hs by lia.
      symmetry.
      rewrite (month_by_view s _ _ _ _ lockstep _ _ (eq_refl (view s st))).
      now destruct s.
Qed.

(** the orders the specification speaks of *)
Lemma one_by_one_fair (ord : list strategy) :
  Permutation ord [ATH; MC; EQ] -> fair (one_by_one ord).
Proof.
  intros P s.
  assert (length ord = 3%nat) as L by (now rewrite (Permutation_length P)).
  assert (forall x, In x ord) as I
      by (intros x; apply (Permutation_in x (Permutation_sym P));
          destruct x; simpl; tauto).
  pose proof (Permutation_NoDup (Permutation_sym P)) as N.
  destruct ord as [|a [|b [|c [|d r]]]]; try discriminate.
  assert (NoDup [ATH; MC; EQ]) as N0
      by (repeat constructor; simpl; intuition discriminate).
  specialize (N N0).
  inversion N as [|? ? Na N1]; subst. inversion N1 as [|? ? Nb N2]; subst.
  simpl in Na, Nb.
  destruct a, b, c, s; simpl in *; try reflexivity; exfalso; tauto.
Qed.

Lemma purchases_then_records_fair (ord : list strategy) :
  Permutation ord [ATH; MC; EQ] -> fair (purchases_then_records ord).
Proof.
  intros P s.
  assert (length ord = 3%nat) as L by (now rewrite (Permutation_length P)).
  pose proof (Permutation_NoDup (Permutation_sym P)) as N.
  destruct ord as [|a [|b [|c [|d r]]]]; try discriminate.
  assert (NoDup [ATH; MC; EQ]) as N0
      by (repeat constructor; simpl; intuition discriminate).
  specialize (N N0).
  inversion N as [|? ? Na N1]; subst. inversion N1 as [|? ? Nb N2]; subst.
  simpl in Na, Nb.
  destruct a, b, c, s; simpl in *; try reflexivity; exfalso; tauto.
Qed.

(** C6. Whatever the order in which the statements of the three strategies
    are run within each month, as long as each strategy buys and then
    records, every strategy ends with the value series of the script. *)
Theorem strategies_independent (df : list row) (sched : nat -> list action) :
  (forall i, (i < length df)%nat -> fair (sched i)) ->
  exists st st',
    simulate df = Ok st /\ simulate_by sched df = Ok st'
    /\ forall s, value st' s = value st s.
Proof.
  intros F.
  destruct (loop_total df (length df)) as (st&Hst); [lia|].
  destruct (loop_by_view sched ATH df (length df)) as (st0&st'&H0&H'&_);
    [lia|intros i Hi; apply (F i Hi)|].
  exists st, st'. split; [exact Hst|]. split; [exact H'|].
  intros s.
  destruct (loop_by_view sched s df (length df)) as (st1&st1'&H1&H1'&Hv);
    [lia|intros i Hi; apply (F i Hi)|].
  unfold simulate in Hst. rewrite Hst in H1. rewrite H' in H1'.
  inversion H1; inversion H1'; subst.
  unfold view in Hv. congruence.
Qed.

(** a strategy run alone, without the other two, has the series it has in
    the script *)
Lemma strategy_alone (df : list row) (s : strategy) :
  exists st st',
    simulate df = Ok st /\ simulate_by (fun _ => [Buy s; Rec s]) df = Ok st'
    /\ value st' s = value st s.
Proof.
  destruct (loop_by_view (fun _ => [Buy s; Rec s]) s df (length df))
    as (st&st'&H1&H2&Hv); [lia|intros; now destruct s|].
  exists st, st'. repeat split; try assumption.
  unfold view in Hv. congruence.
Qed.

End Structure.

(** ** The script in binary64 *)

Import B64.

Ltac b64_arith :=
  cbn [add sub mul div int leb isnan B64.arith] in *.

Section B64Reading.

Local Open Scope float_scope.

(** the constants of the script, as doubles *)
Lemma b64_budget : (monthly_budget : float) = 500.
Proof. reflexivity. Qed.

Lemma b64_half : (lit 5 1 : float) = 0.5.
Proof. reflexivity. Qed.

Lemma b64_epsilon : (lit 1 12 : float) = 0x1.19799812dea11p-40.
Proof. reflexivity. Qed.

Lemma b64_zero : (lit 0 0 : float) = 0.
Proof. reflexivity. Qed.

Lemma b64_one : (int 1 : float) = 1.
Proof. reflexivity. Qed.

Lemma b64_supply_ratio :
  (supply_ratio_eth_to_btc : float) = 0x1.85d903e602995p+2.
Proof. reflexivity. Qed.

(** *** The order of binary64 *)

Section B64Order.

(** the order of specified floats *)
Lemma SFcompare_refl (x : spec_float) :
  x <> S754_nan -> SFcompare x x = Some Eq.
Proof.
  destruct x as [s|s| |s m e]; intros H; try congruence; simpl.
  - reflexivity.
  - now destruct s.
  - rewrite Z.compare_refl. rewrite Pos.compare_cont_refl. now destruct s.
Qed.

Lemma SFcompare_antisym (x y : spec_float) :
  SFcompare y x = option_map CompOpp (SFcompare x y).
Proof.
  destruct x as [s1|s1| |s1 m1 e1], y as [s2|s2| |s2 m2 e2]; simpl;
    try reflexivity;
    try (destruct s1; reflexivity); try (destruct s2; reflexivity);
    try (destruct s1, s2; reflexivity).
  change (Pos.compare_cont Eq) with Pos.compare.
  rewrite (Z.compare_antisym e1 e2), (Pos.compare_antisym m1 m2).
  destruct s1, s2; simpl; try reflexivity;
    destruct (e1 ?= e2)%Z; simpl; try reflexivity;
    now rewrite ?CompOpp_involutive.
Qed.

Lemma SFleb_refl (x : spec_float) : x <> S754_nan -> SFleb x x = true.
Proof. intros H. unfold SFleb. now rewrite SFcompare_refl. Qed.

Lemma SFleb_total (x y : spec_float) :
  x <> S754_nan -> y <> S754_nan -> SFleb y x = false -> SFleb x y = true.
Proof.
  intros Hx Hy. unfold SFleb. rewrite (SFcompare_antisym x y).
  destruct x as [s1|s1| |s1 m1 e1], y as [s2|s2| |s2 m2 e2];
    try congruence;
    destruct (SFcompare _ _) as [[]|] eqn:E; simpl; try congruence;
    discriminate.
Qed.

Lemma SFleb_trans (x y z : spec_float) :
  SFleb x y = true -> SFleb y z = true -> SFleb x z = true.
Proof.
  unfold SFleb.
  destruct x as [[]|[]| |[] m1 e1], y as [[]|[]| |[] m2 e2],
        z as [[]|[]| |[] m3 e3];
    simpl; try discriminate; try reflexivity;
    change (Pos.compare_cont Eq) with Pos.compare;
    destruct (Z.compare_spec e1 e2), (Z.compare_spec e2 e3),
      (Z.compare_spec e1 e3); try lia; try discriminate; try reflexivity;
    destruct (Pos.compare_spec m1 m2), (Pos.compare_spec m2 m3),
      (Pos.compare_spec m1 m3); simpl; try lia; try discriminate;
    reflexivity.
Qed.

Local Open Scope float_scope.

Lemma b64_nan_iff (x : float) :
  is_nan x = false <-> Prim2SF x <> S754_nan.
Proof.
  unfold is_nan. rewrite FloatAxioms.eqb_spec. unfold SFeqb.
  destruct (Prim2SF x) as [s|s| |s m e] eqn:E.
  - simpl. split; [discriminate|reflexivity].
  - rewrite SFcompare_refl by discriminate. split; [discriminate|reflexivity].
  - simpl. split; [discriminate|congruence].
  - rewrite SFcompare_refl by discriminate. split; [discriminate|reflexivity].
Qed.

Lemma b64_positive_not_nan (p : float) : (0 <? p) = true -> is_nan p = false.
Proof.
  rewrite FloatAxioms.ltb_spec. intros H. apply b64_nan_iff. intros E.
  rewrite E in H. discriminate H.
Qed.

Lemma b64_leb_refl (x : float) : is_nan x = false -> (x <=? x) = true.
Proof.
  intros H. apply b64_nan_iff in H. rewrite FloatAxioms.leb_spec.
  now apply SFleb_refl.
Qed.

Lemma b64_leb_total (x y : float) :
  is_nan x = false -> is_nan y = false ->
  (y <=? x) = false -> (x <=? y) = true.
Proof.
  intros Hx Hy. apply b64_nan_iff in Hx, Hy. rewrite !FloatAxioms.leb_spec.
  now apply SFleb_total.
Qed.

Lemma b64_leb_trans (x y z : float) :
  (x <=? y) = true -> (y <=? z) = true -> (x <=? z) = true.
Proof. rewrite !FloatAxioms.leb_spec. apply SFleb_trans. Qed.

Lemma b64_leb_not_nan (x y : float) :
  (x <=? y) = true -> is_nan x = false /\ is_nan y = false.
Proof.
  rewrite FloatAxioms.leb_spec. intros H.
  split; apply b64_nan_iff; intros E; rewrite E in H;
    [|destruct (Prim2SF x)]; discriminate H.
Qed.

(** [np.maximum] of two numbers is the one that is not below the other *)
Lemma b64_maximum_cases (a b : float) :
  is_nan a = false -> is_nan b = false ->
  (maximum a b = a /\ (b <=? a) = true)
  \/ (maximum a b = b /\ (a <=? b) = true).
Proof.
  intros Ha Hb. unfold maximum. b64_arith. rewrite Ha, orb_false_r.
  destruct (b <=? a) eqn:E; [now left|right].
  split; [reflexivity|]. now apply b64_leb_total.
Qed.

Lemma b64_maximum_not_nan (a b : float) :
  is_nan a = false -> is_nan b = false -> is_nan (maximum a b) = false.
Proof.
  intros Ha Hb.
  destruct (b64_maximum_cases a b Ha Hb) as [(->&_)|(->&_)]; assumption.
Qed.

Lemma b64_maximum_upper (a b : float) :
  is_nan a = false -> is_nan b = false ->
  (a <=? maximum a b) = true /\ (b <=? maximum a b) = true.
Proof.
  intros Ha Hb.
  destruct (b64_maximum_cases a b Ha Hb) as [(->&H)|(->&H)];
    auto using b64_leb_refl.
Qed.

(** the running maximum never goes down *)
Lemma b64_scan_monotone (l : list float) :
  forall acc i x y,
    is_nan acc = false -> forallb is_positive l = true ->
    nth_error (acc :: scan maximum acc l) i = Some x ->
    nth_error (acc :: scan maximum acc l) (S i) = Some y ->
    (x <=? y) = true.
Proof.
  induction l as [|z r IH]; intros acc i x y Ha Hl Hx Hy.
  - destruct i; discriminate Hy.
  - simpl in Hl. apply andb_true_iff in Hl as (Hz&Hr).
    apply b64_positive_not_nan in Hz.
    destruct i as [|i].
    + simpl in Hx, Hy. injection Hx as <-. injection Hy as <-.
      now apply b64_maximum_upper.
    + apply (IH (maximum acc z) i); try assumption.
      now apply b64_maximum_not_nan.
Qed.

(** and is, at every index, the maximum of what has been read so far *)
Lemma b64_scan_maximum (l : list float) :
  forall acc i,
    is_nan acc = false -> forallb is_positive l = true ->
    (i < length l)%nat ->
    exists m,
      nth_error (scan maximum acc l) i = Some m
      /\ is_maximum_of m (acc :: firstn (S i) l).
Proof.
  induction l as [|z r IH]; intros acc i Ha Hl Hi; [simpl in Hi; lia|].
  simpl in Hl. apply andb_true_iff in Hl as (Hz&Hr).
  apply b64_positive_not_nan in Hz.
  pose proof (b64_maximum_not_nan acc z Ha Hz) as Hm.
  destruct (b64_maximum_upper acc z Ha Hz) as (U1&U2).
  destruct i as [|i].
  - exists (maximum acc z). split; [reflexivity|]. split.
    + destruct (b64_maximum_cases acc z Ha Hz) as [(->&_)|(->&_)];
        simpl; tauto.
    + intros x [<-|[<-|[]]]; assumption.
  - destruct (IH (maximum acc z) i Hm Hr) as (m&Hn&Hin&Hle);
      [simpl in Hi; lia|].
    exists m. split; [exact Hn|].
    assert ((maximum acc z <=? m) = true) as Hmm by (apply Hle; now left).
    split.
    + destruct Hin as [<-|Hin].
      * destruct (b64_maximum_cases acc z Ha Hz) as [(->&_)|(->&_)];
          simpl; tauto.
      * right. right. exact Hin.
    + intros x [<-|[<-|Hx]].
      * now apply (b64_leb_trans _ (maximum acc z)).
      * now apply (b64_leb_trans _ (maximum acc z)).
      * apply Hle. now right.
Qed.

(** C3. On a non-empty sequence of positive prices the running maximum
    has the length of its input, starts with the first price, is at every
    index the maximum of the prices up to and including that index, and
    never decreases. *)
Theorem b64_running_maximum (a : list float) :
  a <> [] -> forallb is_positive a = true ->
  length (accumulate maximum a) = length a
  /\ nth_error (accumulate maximum a) 0 = nth_error a 0
  /\ (forall i, (i < length a)%nat ->
       exists m,
         nth_error (accumulate maximum a) i = Some m
         /\ is_maximum_of m (firstn (S i) a))
  /\ (forall i x y,
       nth_error (accumulate maximum a) i = Some x ->
       nth_error (accumulate maximum a) (S i) = Some y ->
       (x <=? y) = true).
Proof.
  intros Hne Hpos. destruct a as [|a0 r]; [congruence|].
  simpl in Hpos. apply andb_true_iff in Hpos as (H0&Hr).
  apply b64_positive_not_nan in H0.
  split; [apply accumulate_length|]. split; [reflexivity|]. split.
  - intros [|i] Hi.
    + exists a0. split; [reflexivity|]. split; [now left|].
      intros x [<-|[]]. now apply b64_leb_refl.
    + destruct (b64_scan_maximum r a0 i H0 Hr) as (m&Hn&Hm);
        [simpl in Hi; lia|].
      exists m. split; [exact Hn|exact Hm].
  - intros i x y. now apply b64_scan_monotone.
Qed.

End B64Order.

(** *** Rounding in binary64

    The operations of [SpecFloat] on positive numbers, read on integers:
    enough of round-to-nearest to bound a sum from below and a quotient
    or a difference by 1. *)

Section B64Rounding.

Local Open Scope Z_scope.

Lemma fexp_64 (e : Z) : fexp prec emax e = Z.max (e - 53) (-1074).
Proof. reflexivity. Qed.

Lemma digits2_pos_size (m : positive) : digits2_pos m = Pos.size m.
Proof. induction m as [m IH|m IH|]; simpl; now rewrite ?IH. Qed.

Lemma Zdigits2_log2 (m : Z) : 0 < m -> Zdigits2 m = Z.log2 m + 1.
Proof.
  destruct m as [|m|m]; try lia. intros _. simpl Zdigits2.
  rewrite digits2_pos_size.
  destruct m as [m|m|]; simpl; try reflexivity;
    now rewrite Pos.add_1_r, ?Pos2Z.inj_succ.
Qed.

(** [m] has [Zdigits2 m] binary digits *)
Lemma Zdigits2_bounds (m : Z) :
  0 < m -> 2 ^ (Zdigits2 m - 1) <= m < 2 ^ Zdigits2 m.
Proof.
  intros H. rewrite (Zdigits2_log2 m H).
  replace (Z.log2 m + 1 - 1) with (Z.log2 m) by lia.
  apply (Z.log2_spec m H).
Qed.

Lemma Zdigits2_nonneg (m : Z) : 0 <= m -> 0 <= Zdigits2 m.
Proof. destruct m; simpl; lia. Qed.

Lemma Zdigits2_le (m k : Z) :
  0 <= m -> 0 <= k -> m < 2 ^ k -> Zdigits2 m <= k.
Proof.
  intros H0 Hk H. destruct (Z.eq_dec m 0) as [->|N]; [simpl; lia|].
  rewrite Zdigits2_log2 by lia.
  assert (Z.log2 m < k) by (apply Z.log2_lt_pow2; lia). lia.
Qed.

Lemma Zdigits2_ge (m k : Z) : 0 < m -> 2 ^ k <= m -> k + 1 <= Zdigits2 m.
Proof.
  intros H0 H. rewrite Zdigits2_log2 by lia.
  destruct (Z.leb_spec 0 k).
  - assert (k <= Z.log2 m) by (apply Z.log2_le_pow2; lia). lia.
  - pose proof (Z.log2_nonneg m). lia.
Qed.

Lemma shr_1_m (mrs : shr_record) :
  0 <= shr_m mrs -> shr_m (shr_1 mrs) = shr_m mrs / 2.
Proof.
  destruct mrs as [m r s]; simpl. intros H.
  rewrite <- Z.div2_div.
  destruct m as [|[p|p|]|p]; try reflexivity; lia.
Qed.

Lemma pow2_twice (k : Z) : 0 <= k -> 2 ^ (k + k) = 2 ^ k * 2 ^ k.
Proof. intros H. now rewrite Z.pow_add_r. Qed.

Lemma iter_shr_1_m (p : positive) :
  forall mrs, 0 <= shr_m mrs ->
              shr_m (SpecFloat.iter_pos shr_1 p mrs) = shr_m mrs / 2 ^ Z.pos p.
Proof.
  induction p as [p IH|p IH|]; intros mrs H; simpl SpecFloat.iter_pos.
  - assert (0 <= shr_m (shr_1 mrs)) as H1
        by (rewrite shr_1_m by lia; apply Z.div_pos; lia).
    assert (0 <= shr_m (SpecFloat.iter_pos shr_1 p (shr_1 mrs))) as H2
        by (rewrite IH by lia; apply Z.div_pos; lia).
    rewrite IH, IH, shr_1_m by lia.
    assert (0 < 2 ^ Z.pos p) as P by (apply Z.pow_pos_nonneg; lia).
    rewrite !Z.div_div by lia. f_equal.
    replace (Z.pos p~1) with (Z.pos p + Z.pos p + 1) by lia.
    rewrite (Z.pow_add_r 2 (Z.pos p + Z.pos p) 1), pow2_twice by lia.
    change (2 ^ 1) with 2. lia.
  - assert (0 <= shr_m (SpecFloat.iter_pos shr_1 p mrs)) as H2
        by (rewrite IH by lia; apply Z.div_pos; lia).
    assert (0 < 2 ^ Z.pos p) as P by (apply Z.pow_pos_nonneg; lia).
    rewrite IH, IH by lia. rewrite Z.div_div by lia. f_equal.
    replace (Z.pos p~0) with (Z.pos p + Z.pos p) by lia.
    rewrite pow2_twice by lia. lia.
  - rewrite shr_1_m by lia. reflexivity.
Qed.

Lemma shr_record_of_loc_m (m : Z) (l : location) :
  shr_m (shr_record_of_loc m l) = m.
Proof. destruct l as [|[]]; reflexivity. Qed.

Lemma drop_nonneg (m e : Z) : 0 <= drop m e.
Proof. unfold drop. lia. Qed.

Lemma pow2_pos (k : Z) : 0 <= k -> 0 < 2 ^ k.
Proof. intros. apply Z.pow_pos_nonneg; lia. Qed.

Lemma shr_fexp_spec (m e : Z) (l : location) :
  0 <= m ->
  shr_m (fst (shr_fexp prec emax m e l)) = m / 2 ^ drop m e
  /\ snd (shr_fexp prec emax m e l) = e + drop m e.
Proof.
  intros H. unfold shr_fexp, shr, drop.
  destruct (fexp prec emax (Zdigits2 m + e) - e) as [|p|p] eqn:E;
    simpl fst; simpl snd.
  - rewrite shr_record_of_loc_m. simpl. rewrite Z.div_1_r. lia.
  - rewrite iter_shr_1_m by (rewrite shr_record_of_loc_m; lia).
    rewrite shr_record_of_loc_m.
    replace (Z.max 0 (Z.pos p)) with (Z.pos p) by lia. lia.
  - rewrite shr_record_of_loc_m.
    replace (Z.max 0 (Z.neg p)) with 0 by lia. simpl. rewrite Z.div_1_r. lia.
Qed.

Lemma round_nearest_even_bounds (m : Z) (l : location) :
  m <= round_nearest_even m l <= m + 1.
Proof. destruct l as [|[]]; simpl; try destruct (Z.even m); lia. Qed.

(** [binary_round_aux]: drop the low bits, round up by at most one, drop one
    more bit if that carried *)
Lemma binary_round_aux_spec (s : bool) (m e : Z) (l : location) :
  0 <= m ->
  exists r,
    m / 2 ^ drop m e <= r <= m / 2 ^ drop m e + 1
    /\ binary_round_aux prec emax s m e l
       = finish s (r / 2 ^ drop r (e + drop m e))
                (e + drop m e + drop r (e + drop m e)).
Proof.
  intros H. unfold binary_round_aux.
  destruct (shr_fexp_spec m e l H) as (Hm&He).
  destruct (shr_fexp prec emax m e l) as [mrs' e'] eqn:E1.
  simpl in Hm, He.
  set (r := round_nearest_even (shr_m mrs') (loc_of_shr_record mrs')).
  pose proof (round_nearest_even_bounds (shr_m mrs')
                                        (loc_of_shr_record mrs')) as Hr.
  fold r in Hr.
  assert (0 <= shr_m mrs') as Hp
      by (rewrite Hm; apply Z.div_pos; [lia|apply pow2_pos, drop_nonneg]).
  assert (0 <= r) as Hr0 by lia.
  destruct (shr_fexp_spec r e' loc_Exact Hr0) as (Hm2&He2).
  destruct (shr_fexp prec emax r e' loc_Exact) as [mrs'' e''] eqn:E2.
  simpl in Hm2, He2.
  exists r. split; [rewrite <- Hm; lia|].
  rewrite Hm2, He2, He. reflexivity.
Qed.

Lemma drop_cases (m e : Z) :
  (drop m e = 0 /\ fexp prec emax (Zdigits2 m + e) <= e)
  \/ (0 < drop m e /\ e + drop m e = fexp prec emax (Zdigits2 m + e)).
Proof. unfold drop. lia. Qed.

Lemma finish_cases (s : bool) (m e : Z) :
  0 <= m ->
  (m = 0 /\ finish s m e = S754_zero s)
  \/ (exists p, m = Z.pos p /\ e <= 971 /\ finish s m e = S754_finite s p e)
  \/ (0 < m /\ 971 < e /\ finish s m e = S754_infinity s).
Proof.
  intros H. destruct m as [|p|p]; [now left| |lia].
  right. unfold finish. destruct (Z.leb_spec e 971).
  - left. exists p. now repeat split.
  - right. repeat split; lia.
Qed.

(** a value below 1 is rounded to at most 1 *)
Lemma round_below_one (s : bool) (m e : Z) (l : location) :
  0 <= m -> e <= 0 -> m < 2 ^ (- e) ->
  binary_round_aux prec emax s m e l = S754_zero s
  \/ exists p ef,
      binary_round_aux prec emax s m e l = S754_finite s p ef
      /\ ef <= 0 /\ Z.pos p <= 2 ^ (- ef).
Proof.
  intros Hm He Hlt.
  destruct (binary_round_aux_spec s m e l Hm) as (r&(Hr1&Hr2)&->).
  set (n := drop m e) in *. set (e' := e + n) in *.
  assert (0 <= n) as Hn by apply drop_nonneg.
  assert (e' <= 0) as He'.
  { destruct (drop_cases m e) as [(D&_)|(_&D)]; fold n in D; [unfold e'; lia|].
    fold e' in D. rewrite D, fexp_64.
    pose proof (Zdigits2_le m (- e) Hm ltac:(lia) Hlt). lia. }
  assert (m / 2 ^ n < 2 ^ (- e')) as Hm'.
  { apply Z.div_lt_upper_bound; [now apply pow2_pos|].
    rewrite <- Z.pow_add_r by lia.
    replace (n + - e') with (- e) by (unfold e'; lia). exact Hlt. }
  assert (0 <= m / 2 ^ n) as Hm0 by (apply Z.div_pos; [lia|now apply pow2_pos]).
  set (n2 := drop r e') in *.
  assert (0 <= n2) as Hn2 by apply drop_nonneg.
  assert (0 <= r / 2 ^ n2) as Hf0
      by (apply Z.div_pos; [lia|now apply pow2_pos]).
  destruct (finish_cases s (r / 2 ^ n2) (e' + n2) Hf0)
    as [(_&->)|[(p&Hp&_&->)|(Hpos&Hbig&_)]].
  - now left.
  - right. exists p, (e' + n2). split; [reflexivity|].
    assert (2 ^ n2 <= r) as Hrn.
    { destruct (Z.le_gt_cases (2 ^ n2) r) as [|G]; [assumption|].
      rewrite Z.div_small in Hp by lia. lia. }
    assert (n2 <= - e') as Hle.
    { apply (Z.pow_le_mono_r_iff 2); lia. }
    split; [lia|]. rewrite <- Hp.
    apply Z.div_le_upper_bound; [now apply pow2_pos|].
    rewrite <- Z.pow_add_r by lia.
    replace (n2 + - (e' + n2)) with (- e') by lia. lia.
  - exfalso.
    assert (2 ^ n2 <= r) as Hrn.
    { destruct (Z.le_gt_cases (2 ^ n2) r) as [|G]; [assumption|].
      rewrite Z.div_small in Hpos by lia. lia. }
    assert (n2 <= - e') as Hle.
    { apply (Z.pow_le_mono_r_iff 2); lia. }
    lia.
Qed.

(** a value not below a representable number is not rounded below it *)
Lemma round_above (s : bool) (m e : Z) (l : location) (m1 e1 : Z) :
  0 < m1 -> fexp prec emax (Zdigits2 m1 + e1) = e1 ->
  e <= e1 -> m1 * 2 ^ (e1 - e) <= m ->
  binary_round_aux prec emax s m e l = S754_infinity s
  \/ exists p ef,
      binary_round_aux prec emax s m e l = S754_finite s p ef
      /\ (e1 < ef \/ (ef = e1 /\ m1 <= Z.pos p)).
Proof.
  intros H1 C1 Hee Hmm.
  assert (0 < 2 ^ (e1 - e)) as Pe by (apply pow2_pos; lia).
  assert (0 < m) as Hm by nia.
  destruct (binary_round_aux_spec s m e l ltac:(lia)) as (r&(Hr1&Hr2)&->).
  set (n := drop m e) in *. set (e' := e + n) in *.
  assert (0 <= n) as Hn by apply drop_nonneg.
  pose proof (Zdigits2_bounds m1 H1) as (B1&_).
  pose proof (Zdigits2_bounds m Hm) as (Bm&Bm').
  assert (1 <= Zdigits2 m1) as D1 by (destruct m1; simpl; lia).
  assert (Zdigits2 m1 + e1 <= Zdigits2 m + e) as Hd.
  { assert (2 ^ (Zdigits2 m1 - 1 + (e1 - e)) <= m) as X
        by (rewrite Z.pow_add_r by lia; nia).
    pose proof (Zdigits2_ge m _ Hm X). lia. }
  rewrite fexp_64 in C1.
  assert (e1 <= fexp prec emax (Zdigits2 m + e)) as HF
      by (rewrite fexp_64; lia).
  assert (e' = fexp prec emax (Zdigits2 m + e)) as Ee'.
  { destruct (drop_cases m e) as [(D&L)|(_&D)]; fold n in D;
      unfold e'; lia. }
  assert (1 <= m / 2 ^ n /\ (e' = e1 -> m1 <= m / 2 ^ n)) as (Hm1&Hm2).
  { destruct (Z.eq_dec e' e1) as [E|E].
    - assert (n = e1 - e) as -> by (unfold e' in E; lia).
      assert (m1 <= m / 2 ^ (e1 - e))
        by (apply Z.div_le_lower_bound; [assumption|lia]).
      split; [lia|intros _; assumption].
    - split; [|intros; lia].
      rewrite fexp_64 in Ee'.
      assert (n = Zdigits2 m - 53) as Nn by (unfold e' in Ee'; lia).
      assert (2 ^ 52 <= m / 2 ^ n).
      { apply Z.div_le_lower_bound; [now apply pow2_pos|].
        rewrite <- Z.pow_add_r by lia.
        replace (n + 52) with (Zdigits2 m - 1) by lia. exact Bm. }
      lia. }
  assert (0 < r) as Hr by lia.
  set (n2 := drop r e') in *.
  assert (0 <= n2) as Hn2 by apply drop_nonneg.
  assert (1 <= r / 2 ^ n2 /\ (n2 = 0 -> r / 2 ^ n2 = r)) as (Hf1&Hf2).
  { destruct (drop_cases r e') as [(D&_)|(D&L)]; fold n2 in D.
    - rewrite D. simpl. rewrite Z.div_1_r. split; [lia|reflexivity].
    - split; [|lia]. fold n2 in L. rewrite fexp_64 in L, Ee'.
      pose proof (Zdigits2_bounds r Hr) as (Br&_).
      assert (n2 = Zdigits2 r - 53) as Nn by lia.
      assert (2 ^ 52 <= r / 2 ^ n2).
      { apply Z.div_le_lower_bound; [now apply pow2_pos|].
        rewrite <- Z.pow_add_r by lia.
        replace (n2 + 52) with (Zdigits2 r - 1) by lia. exact Br. }
      lia. }
  destruct (finish_cases s (r / 2 ^ n2) (e' + n2) ltac:(lia))
    as [(Z0&_)|[(p&Hp&_&->)|(_&_&->)]].
  - lia.
  - right. exists p, (e' + n2). split; [reflexivity|].
    destruct (Z.eq_dec n2 0) as [N|N].
    + destruct (Z.eq_dec e' e1) as [E|E]; [right|left; lia].
      split; [lia|]. rewrite <- Hp, (Hf2 N). specialize (Hm2 E). lia.
    + left. lia.
  - now left.
Qed.

(** *** Valid floats *)

Lemma valid_finite (s : bool) (m : positive) (e : Z) :
  valid_binary (S754_finite s m e) = true ->
  fexp prec emax (Zdigits2 (Z.pos m) + e) = e /\ e <= 971.
Proof.
  unfold SpecFloat.valid_binary, bounded, canonical_mantissa.
  rewrite andb_true_iff, Z.eqb_eq, Z.leb_le. tauto.
Qed.

(** a valid mantissa has at most 53 bits, and exactly 53 above the least
    exponent *)
Lemma valid_mantissa (s : bool) (m : positive) (e : Z) :
  valid_binary (S754_finite s m e) = true ->
  -1074 <= e /\ Z.pos m < 2 ^ 53 /\ (-1074 < e -> 2 ^ 52 <= Z.pos m).
Proof.
  intros V. destruct (valid_finite s m e V) as (C&_).
  rewrite fexp_64 in C.
  pose proof (Zdigits2_bounds (Z.pos m) ltac:(lia)) as (B1&B2).
  assert (Zdigits2 (Z.pos m) <= 53) as D by lia.
  split; [lia|]. split.
  - apply (Z.lt_le_trans _ _ _ B2). apply Z.pow_le_mono_r; lia.
  - intros L. replace (Zdigits2 (Z.pos m)) with 53 in B1 by lia. exact B1.
Qed.

Lemma shl_align_spec (mx : positive) (ex ex' : Z) :
  snd (shl_align mx ex ex') = Z.min ex ex'
  /\ Z.pos (fst (shl_align mx ex ex'))
     = Z.pos mx * 2 ^ (ex - Z.min ex ex').
Proof.
  unfold shl_align. destruct (ex' - ex) as [|d|d] eqn:E; simpl fst; simpl snd.
  - replace (Z.min ex ex') with ex by lia. rewrite Z.sub_diag. simpl. lia.
  - replace (Z.min ex ex') with ex by lia. rewrite Z.sub_diag. simpl. lia.
  - replace (Z.min ex ex') with ex' by lia.
    replace (ex - ex') with (Z.pos d) by lia.
    change (Pos.iter xO mx d) with (shift_pos d mx).
    rewrite shift_pos_correct. change (Zpower_pos 2 d) with (Z.pow_pos 2 d).
    rewrite Z.pow_pos_fold. lia.
Qed.

Lemma binary_round_unfold (s : bool) (m : positive) (e : Z) :
  exists mz ez,
    binary_round prec emax s m e
    = binary_round_aux prec emax s (Z.pos mz) ez loc_Exact
    /\ ez <= e /\ Z.pos mz = Z.pos m * 2 ^ (e - ez).
Proof.
  unfold binary_round.
  pose proof (shl_align_spec m e (fexp prec emax (Z.pos (digits2_pos m) + e)))
    as (S1&S2).
  destruct (shl_align m e _) as [mz ez]. simpl in S1, S2.
  exists mz, ez. split; [reflexivity|]. split; [lia|].
  rewrite S2, S1. reflexivity.
Qed.

Lemma binary_round_above (s : bool) (m : positive) (e : Z) (m1 e1 : Z) :
  0 < m1 -> fexp prec emax (Zdigits2 m1 + e1) = e1 ->
  e <= e1 -> m1 * 2 ^ (e1 - e) <= Z.pos m ->
  binary_round prec emax s m e = S754_infinity s
  \/ exists p ef,
      binary_round prec emax s m e = S754_finite s p ef
      /\ (e1 < ef \/ (ef = e1 /\ m1 <= Z.pos p)).
Proof.
  intros H1 C1 He Hm.
  destruct (binary_round_unfold s m e) as (mz&ez&->&Hez&Hmz).
  apply round_above; try assumption; [lia|].
  rewrite Hmz. replace (e1 - ez) with ((e1 - e) + (e - ez)) by lia.
  rewrite Z.pow_add_r by lia.
  assert (0 < 2 ^ (e - ez)) by (apply pow2_pos; lia). nia.
Qed.

Lemma binary_round_below_one (s : bool) (m : positive) (e : Z) :
  e <= 0 -> Z.pos m < 2 ^ (- e) ->
  binary_round prec emax s m e = S754_zero s
  \/ exists p ef,
      binary_round prec emax s m e = S754_finite s p ef
      /\ ef <= 0 /\ Z.pos p <= 2 ^ (- ef).
Proof.
  intros He Hm.
  destruct (binary_round_unfold s m e) as (mz&ez&->&Hez&Hmz).
  apply round_below_one; [lia|lia|].
  rewrite Hmz. replace (- ez) with (- e + (e - ez)) by lia.
  rewrite Z.pow_add_r by lia.
  assert (0 < 2 ^ (e - ez)) by (apply pow2_pos; lia). nia.
Qed.

(** *** Signs and bounds of the operations *)

Lemma sf_nonneg_leb (x : spec_float) :
  sf_nonneg x <-> SFleb (S754_zero false) x = true.
Proof.
  destruct x as [s|[]| |[] m e]; simpl; unfold SFleb; simpl;
    split; try tauto; try discriminate; reflexivity.
Qed.

Lemma sf_pos_ltb (x : spec_float) :
  sf_pos x <-> SFltb (S754_zero false) x = true.
Proof.
  destruct x as [s|[]| |[] m e]; simpl; unfold SFltb; simpl;
    split; try tauto; try discriminate; reflexivity.
Qed.

Lemma round_nonneg (m e : Z) (l : location) :
  0 <= m -> sf_nonneg (binary_round_aux prec emax false m e l).
Proof.
  intros H.
  destruct (binary_round_aux_spec false m e l H) as (r&(Hr1&Hr2)&->).
  assert (0 <= m / 2 ^ drop m e)
    by (apply Z.div_pos; [lia|apply pow2_pos, drop_nonneg]).
  assert (0 <= r / 2 ^ drop r (e + drop m e))
    by (apply Z.div_pos; [lia|apply pow2_pos, drop_nonneg]).
  destruct (finish_cases false _ (e + drop m e + drop r (e + drop m e)) H1)
    as [(_&->)|[(p&_&_&->)|(_&_&->)]]; exact I.
Qed.

Lemma SFleb_finite (m1 : positive) (e1 : Z) (p : positive) (ef : Z) :
  e1 < ef \/ (ef = e1 /\ Z.pos m1 <= Z.pos p) ->
  SFleb (S754_finite false m1 e1) (S754_finite false p ef) = true.
Proof.
  unfold SFleb; simpl. change (Pos.compare_cont Eq) with Pos.compare.
  intros [H|(->&H)].
  - apply Z.compare_lt_iff in H. now rewrite H.
  - rewrite Z.compare_refl.
    destruct (Pos.compare_spec m1 p); try reflexivity; lia.
Qed.

Lemma SFleb_finite_inv (m1 : positive) (e1 : Z) (p : positive) (ef : Z) :
  SFleb (S754_finite false m1 e1) (S754_finite false p ef) = true ->
  e1 < ef \/ (ef = e1 /\ Z.pos m1 <= Z.pos p).
Proof.
  unfold SFleb; simpl. change (Pos.compare_cont Eq) with Pos.compare.
  destruct (Z.compare_spec e1 ef); try discriminate; [|left; assumption].
  destruct (Pos.compare_spec m1 p); try discriminate; intros _; right; lia.
Qed.

(** the sum of two numbers that are not negative is below neither *)
Lemma SFadd_lower (x y : spec_float) :
  valid_binary x = true -> valid_binary y = true ->
  sf_nonneg x -> sf_nonneg y ->
  SFleb x (SF64add x y) = true /\ SFleb y (SF64add x y) = true.
Proof.
  intros Vx Vy Nx Ny.
  destruct x as [s1|[]| |[] m1 e1]; try contradiction;
    destruct y as [s2|[]| |[] m2 e2]; try contradiction;
    try (split; reflexivity);
    try (destruct s1; split; reflexivity);
    try (destruct s2; split; reflexivity);
    try (destruct s1, s2; split; reflexivity);
    try (split; [|reflexivity]; apply SFleb_finite; right; split; lia);
    try (split; [reflexivity|]; apply SFleb_finite; right; split; lia).
  destruct (valid_finite _ _ _ Vx) as (C1&_).
  destruct (valid_finite _ _ _ Vy) as (C2&_).
  unfold SF64add, SFadd. cbn [cond_Zopp].
  pose proof (shl_align_spec m1 e1 (Z.min e1 e2)) as (_&A1).
  pose proof (shl_align_spec m2 e2 (Z.min e1 e2)) as (_&A2).
  replace (Z.min e1 (Z.min e1 e2)) with (Z.min e1 e2) in A1 by lia.
  replace (Z.min e2 (Z.min e1 e2)) with (Z.min e1 e2) in A2 by lia.
  set (a1 := fst (shl_align m1 e1 (Z.min e1 e2))) in *.
  set (a2 := fst (shl_align m2 e2 (Z.min e1 e2))) in *.
  change (Z.pos a1 + Z.pos a2) with (Z.pos (a1 + a2)).
  unfold binary_normalize.
  destruct (binary_round_above false (a1 + a2) (Z.min e1 e2) (Z.pos m1) e1)
    as [E|(p&ef&E&L)]; try assumption; try lia.
  - rewrite E. split; reflexivity.
  - rewrite E. split; [now apply SFleb_finite|].
    destruct (binary_round_above false (a1 + a2) (Z.min e1 e2) (Z.pos m2) e2)
      as [E'|(p'&ef'&E'&L')]; try assumption; try lia.
    + rewrite E in E'. discriminate.
    + rewrite E in E'. injection E' as -> ->. now apply SFleb_finite.
Qed.

(** a valid number of value at most 1 is at most [1.0] *)
Lemma SFleb_one (p : positive) (ef : Z) :
  valid_binary (S754_finite false p ef) = true ->
  ef <= 0 -> Z.pos p <= 2 ^ (- ef) ->
  SFleb (S754_finite false p ef) sf_one = true.
Proof.
  intros V He Hp. destruct (valid_mantissa _ _ _ V) as (_&_&N).
  apply SFleb_finite.
  destruct (Z.lt_trichotomy ef (-52)) as [L|[E|G]]; [now left| |exfalso].
  - right. split; [lia|]. subst ef. exact Hp.
  - specialize (N ltac:(lia)).
    assert (2 ^ (- ef) < 2 ^ 52) by (apply Z.pow_lt_mono_r; lia). lia.
Qed.

(** and a number that is at most [1.0] has value at most 1 *)
Lemma SFleb_one_inv (m : positive) (e : Z) :
  valid_binary (S754_finite false m e) = true ->
  SFleb (S754_finite false m e) sf_one = true ->
  e <= -52 /\ Z.pos m <= 2 ^ (- e).
Proof.
  intros V L. destruct (valid_mantissa _ _ _ V) as (_&B&_).
  apply SFleb_finite_inv in L. destruct L as [L|(L&M)].
  - split; [lia|].
    assert (2 ^ 53 <= 2 ^ (- e)) by (apply Z.pow_le_mono_r; lia). lia.
  - split; [lia|]. rewrite <- L. exact M.
Qed.

(** [1 - r] for [r] between 0 and 1 is a number between 0 and 1 *)
Lemma SFsub_one (r : spec_float) :
  valid_binary r = true -> sf_nonneg r -> SFleb r sf_one = true ->
  sf_finite_nonneg (SF64sub sf_one r)
  /\ (valid_binary (SF64sub sf_one r) = true ->
      SFleb (SF64sub sf_one r) sf_one = true).
Proof.
  intros V N L.
  destruct r as [s|[]| |[] m e]; try contradiction; try discriminate L;
    try (split; [exact I|reflexivity]).
  destruct (SFleb_one_inv m e V L) as (He&Hm).
  unfold SF64sub, SFsub, sf_one. cbn [cond_Zopp].
  replace (Z.min (-52) e) with e by lia.
  pose proof (shl_align_spec 4503599627370496 (-52) e) as (_&A1).
  pose proof (shl_align_spec m e e) as (_&A2).
  replace (Z.min (-52) e) with e in A1 by lia.
  rewrite Z.min_id, Z.sub_diag, Z.mul_1_r in A2.
  change (Z.pos 4503599627370496) with (2 ^ 52) in A1.
  rewrite <- Z.pow_add_r in A1 by lia.
  replace (52 + (-52 - e)) with (- e) in A1 by lia.
  rewrite A1, A2. unfold binary_normalize.
  destruct (2 ^ (- e) - Z.pos m) as [|d|d] eqn:D;
    [split; [exact I|reflexivity]| |lia].
  destruct (binary_round_below_one false d e) as [->|(p&ef&->&Hef&Hp)];
    try lia.
  - split; [exact I|reflexivity].
  - split; [exact I|]. intros Vr. now apply SFleb_one.
Qed.

Lemma SFdiv_self (m : positive) (e : Z) :
  SF64div (S754_finite false m e) (S754_finite false m e) = sf_one.
Proof.
  unfold SF64div, SFdiv, SFdiv_core_binary.
  rewrite !Z.sub_diag.
  change (Z.min (fexp prec emax 0) 0) with (-53)%Z.
  change (0 - -53)%Z with 53%Z. cbv iota.
  rewrite Z.shiftl_mul_pow2 by lia.
  assert ((Z.pos m * 2 ^ 53) / Z.pos m = 2 ^ 53)%Z as D
      by (rewrite Z.mul_comm; apply Z.div_mul; lia).
  assert ((Z.pos m * 2 ^ 53) mod Z.pos m = 0)%Z as M
      by (rewrite Z.mul_comm; apply Z.mod_mul; lia).
  unfold Z.div, Z.modulo in D, M.
  destruct (Z.div_eucl (Z.pos m * 2 ^ 53) (Z.pos m)) as [q r].
  simpl in D, M. subst q r.
  unfold new_location. now destruct (Z.even (Z.pos m)).
Qed.

(** the quotient computed by [SFdiv], before rounding *)
Lemma SFdiv_core_spec (m1 : positive) (e1 : Z) (m2 : positive) (e2 : Z) :
  exists q e0 l,
    SFdiv_core_binary prec emax (Z.pos m1) e1 (Z.pos m2) e2 = (q, e0, l)
    /\ e0 <= e1 - e2
    /\ q = (Z.pos m1 * 2 ^ (e1 - e2 - e0)) / Z.pos m2.
Proof.
  unfold SFdiv_core_binary.
  set (e0 := Z.min _ (e1 - e2)).
  assert (e0 <= e1 - e2) as He0 by (unfold e0; lia).
  set (M := match e1 - e2 - e0 with
            | 0 => Z.pos m1
            | Z.pos _ => Z.shiftl (Z.pos m1) (e1 - e2 - e0)
            | Z.neg _ => 0
            end).
  assert (M = Z.pos m1 * 2 ^ (e1 - e2 - e0)) as HM.
  { unfold M. destruct (e1 - e2 - e0) as [|s|s] eqn:E;
      [rewrite Z.pow_0_r; lia|apply Z.shiftl_mul_pow2; lia|lia]. }
  pose proof (eq_refl (M / Z.pos m2)) as Q. unfold Z.div at 1 in Q.
  destruct (Z.div_eucl M (Z.pos m2)) as [q r]. simpl in Q.
  exists q, e0, (new_location (Z.pos m2) r).
  split; [reflexivity|]. split; [exact He0|]. now rewrite Q, HM.
Qed.

(** the quotient of a positive number by one that is not smaller is at
    most 1 *)
Lemma SFdiv_le_one (m1 : positive) (e1 : Z) (y : spec_float) :
  let x := S754_finite false m1 e1 in
  valid_binary x = true -> valid_binary y = true ->
  valid_binary (SF64div x y) = true ->
  SFleb x y = true ->
  sf_nonneg (SF64div x y) /\ SFleb (SF64div x y) sf_one = true.
Proof.
  intros x Vx Vy Vq L. subst x.
  destruct y as [s2|[]| |[] m2 e2]; try discriminate L;
    try (split; [exact I|reflexivity]).
  destruct (Z.eq_dec e1 e2) as [Ee|Ne];
    [destruct (Pos.eq_dec m1 m2) as [Em|Nm]|].
  { subst. rewrite SFdiv_self. split; [exact I|reflexivity]. }
  all: apply SFleb_finite_inv in L;
    destruct (valid_mantissa _ _ _ Vx) as (Lx&Bx&_);
    destruct (valid_mantissa _ _ _ Vy) as (Ly&_&Ny);
    assert (e1 <= e2 /\ Z.pos m1 < Z.pos m2 * 2 ^ (e2 - e1)) as (Hee&Hlt)
      by (destruct L as [L|(L&M)];
          [split; [lia|]; specialize (Ny ltac:(lia));
           assert (2 ^ 1 <= 2 ^ (e2 - e1)) by (apply Z.pow_le_mono_r; lia);
           change (2 ^ 1) with 2 in *; nia
          |split; [lia|]; rewrite L, Z.sub_diag, Z.mul_1_r;
           assert (m1 <> m2) by congruence; lia]);
    revert Vq; unfold SF64div, SFdiv; cbn [xorb];
    destruct (SFdiv_core_spec m1 e1 m2 e2) as (q&e0&l&->&He0&Hq);
    intros Vq;
    assert (0 <= q) as Hq0
        by (rewrite Hq; apply Z.div_pos; [|lia];
            assert (0 < 2 ^ (e1 - e2 - e0)) by (apply pow2_pos; lia); nia);
    assert (q < 2 ^ (- e0)) as Hq1
        by (rewrite Hq; apply Z.div_lt_upper_bound; [lia|];
            replace (- e0) with ((e2 - e1) + (e1 - e2 - e0)) by lia;
            rewrite Z.pow_add_r by lia;
            assert (0 < 2 ^ (e1 - e2 - e0)) by (apply pow2_pos; lia); nia);
    (split; [now apply round_nonneg|]);
    destruct (round_below_one false q e0 l Hq0 ltac:(lia) Hq1)
      as [E|(p&ef&E&Hef&Hp)]; rewrite E in *;
    [reflexivity|now apply SFleb_one].
Qed.

Lemma SFmul_nonneg (m : positive) (e : Z) (y : spec_float) :
  sf_nonneg y -> sf_nonneg (SF64mul (S754_finite false m e) y).
Proof.
  destruct y as [s|[]| |[] m2 e2]; try contradiction; intros _;
    try exact I.
  unfold SF64mul, SFmul. cbn [xorb]. apply round_nonneg. lia.
Qed.

Lemma SFdiv_nonneg (x : spec_float) (m : positive) (e : Z) :
  sf_nonneg x -> sf_nonneg (SF64div x (S754_finite false m e)).
Proof.
  destruct x as [s|[]| |[] m1 e1]; try contradiction; intros _;
    try exact I.
  unfold SF64div, SFdiv. cbn [xorb].
  destruct (SFdiv_core_spec m1 e1 m e) as (q&e0&l&->&He0&Hq).
  apply round_nonneg. rewrite Hq. apply Z.div_pos; [|lia].
  assert (0 < 2 ^ (e1 - e - e0)) by (apply pow2_pos; lia). nia.
Qed.

Lemma SFdiv_finite_nonneg (x y : spec_float) :
  sf_finite_nonneg x -> sf_pos y -> sf_nonneg (SF64div x y).
Proof.
  destruct y as [s|[]| |[] m e]; try contradiction; intros Hx _.
  - destruct x as [s|[]| |[] m1 e1]; try contradiction; exact I.
  - apply SFdiv_nonneg.
    destruct x as [s|[]| |[] m1 e1]; try contradiction; exact I.
Qed.

Lemma sf_pos_above (m : positive) (e : Z) (t : spec_float) :
  SFleb (S754_finite false m e) t = true -> sf_pos t.
Proof.
  destruct t as [s|[]| |[] m2 e2]; try discriminate; intros _; exact I.
Qed.

Lemma sf_finite_nonneg_nonneg (x : spec_float) :
  sf_finite_nonneg x -> sf_nonneg x.
Proof. destruct x as [s|[]| |[] m e]; simpl; tauto. Qed.

End B64Rounding.

(** *** Prices as specified floats *)

Lemma valid_price_finite (p : float) :
  valid_price p = true -> exists m e, Prim2SF p = S754_finite false m e.
Proof.
  unfold valid_price. rewrite andb_true_iff, !FloatAxioms.ltb_spec.
  change (Prim2SF 0) with (S754_zero false).
  change (Prim2SF infinity) with (S754_infinity false).
  destruct (Prim2SF p) as [s|s| |s m e]; intros (H0&Hi);
    try discriminate; destruct s; try discriminate; eauto.
Qed.

(** a positive number divided by itself is exactly 1 *)
Lemma b64_div_self (p : float) : valid_price p = true -> p / p = 1.
Proof.
  intros H. destruct (valid_price_finite p H) as (m&e&Hp).
  apply Prim2SF_inj. rewrite div_spec, Hp. apply SFdiv_self.
Qed.

Lemma b64_zero_div (p : float) : valid_price p = true -> 0 / p = 0.
Proof.
  intros H. destruct (valid_price_finite p H) as (m&e&Hp).
  apply Prim2SF_inj. rewrite div_spec, Hp. reflexivity.
Qed.

Lemma b64_zero_mul (p : float) : valid_price p = true -> 0 * p = 0.
Proof.
  intros H. destruct (valid_price_finite p H) as (m&e&Hp).
  apply Prim2SF_inj. rewrite mul_spec, Hp. reflexivity.
Qed.

(** at its own all-time high an asset has distance 0 *)
Lemma b64_distance_at_high (p : float) :
  valid_price p = true -> distance p p = 0.
Proof.
  intros H. unfold distance. b64_arith. now rewrite b64_div_self.
Qed.

(** and when both assets are there, both weights are 0 *)
Lemma b64_ath_weights_at_highs (p_btc p_eth : float) :
  valid_price p_btc = true -> valid_price p_eth = true ->
  ath_weights p_btc p_eth p_btc p_eth = (0, 0).
Proof.
  intros Hb He. unfold ath_weights.
  now rewrite !b64_distance_at_high.
Qed.

Lemma reads_at_0 (df : list (float * float)) (r : reads) :
  reads_at df 0 r ->
  exists rest,
    df = (p_btc r, p_eth r) :: rest
    /\ ath_btc r = p_btc r /\ ath_eth r = p_eth r.
Proof.
  intros Hr. pose proof (reads_at_row _ _ _ Hr) as Hrow.
  destruct Hr as (_&_&Hab&Hae). destruct df as [|[a b] rest]; [discriminate|].
  simpl in Hrow, Hab, Hae. injection Hrow as -> ->.
  exists rest. repeat split; congruence.
Qed.

(** C9. In the first month of a series of valid prices both assets are at
    their running all-time high: both distances are 0, so both weights of
    the ATH strategy are 0, it buys nothing of either asset, and the first
    entry of its value series is 0. *)
Theorem b64_first_month_buys_nothing (df : list (float * float)) :
  df <> [] -> forallb valid_row df = true ->
  exists r st1 st,
    reads_at df 0 r
    /\ ath_btc r = p_btc r /\ ath_eth r = p_eth r
    /\ distance (p_btc r) (ath_btc r) = 0
    /\ distance (p_eth r) (ath_eth r) = 0
    /\ weights ATH (p_btc r) (p_eth r) (ath_btc r) (ath_eth r) = (0, 0)
    /\ (monthly_budget * 0) / p_btc r = 0
    /\ (monthly_budget * 0) / p_eth r = 0
    /\ loop df 1 = Ok st1
    /\ btc_holding st1 ATH = 0 /\ eth_holding st1 ATH = 0
    /\ simulate df = Ok st
    /\ nth_error (value st ATH) 0 = Some 0.
Proof.
  intros Hne Hv.
  assert (0 < length df)%nat as L by (destruct df; [congruence|simpl; lia]).
  destruct (simulate_entry df 0 L) as (st&r&before&Hst&Hr&Hb&Ha&Hs).
  destruct (Hs ATH) as (_&Hnth).
  set (after := month (p_btc r) (p_eth r) (ath_btc r) (ath_eth r) before) in *.
  pose proof (month_btc ATH (p_btc r) (p_eth r) (ath_btc r) (ath_eth r) before)
    as Hbtc.
  pose proof (month_eth ATH (p_btc r) (p_eth r) (ath_btc r) (ath_eth r) before)
    as Heth.
  fold after in Hbtc, Heth.
  destruct (reads_at_0 df r Hr) as (rest&Hdf&Eb&Ee).
  assert (valid_price (p_btc r) = true /\ valid_price (p_eth r) = true)
    as (Vb&Ve).
  { rewrite Hdf in Hv. simpl in Hv. apply andb_true_iff in Hv as (Hv&_).
    now apply andb_true_iff in Hv. }
  assert (before = initial) as ->
      by (unfold loop in Hb; simpl in Hb; congruence).
  assert (weights ATH (p_btc r) (p_eth r) (ath_btc r) (ath_eth r) = (0, 0))
    as Hw by (rewrite Eb, Ee; now apply b64_ath_weights_at_highs).
  assert ((monthly_budget * 0) / p_btc r = 0) as Qb
      by (rewrite b64_budget; change (500 * 0) with 0; now apply b64_zero_div).
  assert ((monthly_budget * 0) / p_eth r = 0) as Qe
      by (rewrite b64_budget; change (500 * 0) with 0; now apply b64_zero_div).
  rewrite Hw in Hbtc, Heth. cbn [fst snd] in Hbtc, Heth.
  b64_arith. rewrite Qb in Hbtc. rewrite Qe in Heth.
  cbn [btc_holding eth_holding initial] in Hbtc, Heth.
  change (lit 0 0 + 0) with 0 in Hbtc, Heth.
  exists r, after, st.
  repeat match goal with |- _ /\ _ => split end; try assumption.
  - rewrite Eb. now apply b64_distance_at_high.
  - rewrite Ee. now apply b64_distance_at_high.
  - rewrite Hnth, Hbtc, Heth, !b64_zero_mul by assumption. reflexivity.
Qed.

(** *** The operations of the script on numbers that are not negative *)

Lemma b64_nonneg_sf (x : float) :
  nonneg x = true <-> sf_nonneg (Prim2SF x).
Proof.
  unfold nonneg. rewrite FloatAxioms.leb_spec.
  change (Prim2SF 0) with (S754_zero false). symmetry. apply sf_nonneg_leb.
Qed.

Lemma b64_valid_price_nonneg (p : float) :
  valid_price p = true -> nonneg p = true.
Proof.
  intros H. destruct (valid_price_finite p H) as (m&e&Hp).
  apply b64_nonneg_sf. now rewrite Hp.
Qed.

Lemma b64_valid_price_positive (p : float) :
  valid_price p = true -> is_positive p = true.
Proof. unfold valid_price. now rewrite andb_true_iff. Qed.

Lemma b64_add_lower (a b : float) :
  nonneg a = true -> nonneg b = true ->
  (a <=? a + b) = true /\ (b <=? a + b) = true.
Proof.
  intros Ha Hb. apply b64_nonneg_sf in Ha, Hb.
  rewrite !FloatAxioms.leb_spec, add_spec.
  apply SFadd_lower; auto using Prim2SF_valid.
Qed.

Lemma b64_nonneg_above (a b : float) :
  nonneg a = true -> (a <=? b) = true -> nonneg b = true.
Proof. unfold nonneg. apply b64_leb_trans. Qed.

Lemma b64_add_nonneg (a b : float) :
  nonneg a = true -> nonneg b = true -> nonneg (a + b) = true.
Proof.
  intros Ha Hb. apply (b64_nonneg_above a); [exact Ha|].
  now apply b64_add_lower.
Qed.

Lemma b64_mul_nonneg (a b : float) :
  valid_price a = true -> nonneg b = true -> nonneg (a * b) = true.
Proof.
  intros Ha Hb. destruct (valid_price_finite a Ha) as (m&e&E).
  apply b64_nonneg_sf in Hb. apply b64_nonneg_sf.
  rewrite mul_spec, E. now apply SFmul_nonneg.
Qed.

Lemma b64_div_nonneg (a b : float) :
  nonneg a = true -> valid_price b = true -> nonneg (a / b) = true.
Proof.
  intros Ha Hb. destruct (valid_price_finite b Hb) as (m&e&E).
  apply b64_nonneg_sf in Ha. apply b64_nonneg_sf.
  rewrite div_spec, E. now apply SFdiv_nonneg.
Qed.

Lemma b64_div_le_one (a b : float) :
  valid_price a = true -> (a <=? b) = true ->
  nonneg (a / b) = true /\ (a / b <=? 1) = true.
Proof.
  intros Ha L. destruct (valid_price_finite a Ha) as (m&e&E).
  rewrite FloatAxioms.leb_spec, E in L.
  pose proof (Prim2SF_valid a) as Va. rewrite E in Va.
  pose proof (Prim2SF_valid (a / b)) as Vq. rewrite div_spec, E in Vq.
  destruct (SFdiv_le_one m e (Prim2SF b) Va (Prim2SF_valid b) Vq L)
    as (N&U).
  split.
  - apply b64_nonneg_sf. now rewrite div_spec, E.
  - rewrite FloatAxioms.leb_spec, div_spec, E. exact U.
Qed.

(** [1 - r] for [r] between 0 and 1 is between 0 and 1 *)
Lemma b64_one_minus (r : float) :
  nonneg r = true -> (r <=? 1) = true ->
  sf_finite_nonneg (Prim2SF (1 - r)) /\ (1 - r <=? 1) = true.
Proof.
  intros N L. apply b64_nonneg_sf in N. rewrite FloatAxioms.leb_spec in L.
  change (Prim2SF 1) with sf_one in L.
  pose proof (Prim2SF_valid (1 - r)) as V.
  rewrite FloatAxioms.leb_spec. rewrite sub_spec in *.
  change (Prim2SF 1) with sf_one in *.
  destruct (SFsub_one (Prim2SF r) (Prim2SF_valid r) N L) as (F&U).
  split; [exact F|exact (U V)].
Qed.

Lemma b64_div_finite (a b : float) :
  sf_finite_nonneg (Prim2SF a) -> is_positive b = true ->
  nonneg (a / b) = true.
Proof.
  intros Ha Hb. unfold is_positive in Hb.
  rewrite FloatAxioms.ltb_spec in Hb.
  change (Prim2SF 0) with (S754_zero false) in Hb. apply sf_pos_ltb in Hb.
  apply b64_nonneg_sf. rewrite div_spec. now apply SFdiv_finite_nonneg.
Qed.

Lemma b64_positive_above (a b : float) :
  valid_price a = true -> (a <=? b) = true -> is_positive b = true.
Proof.
  intros Ha L. destruct (valid_price_finite a Ha) as (m&e&E).
  rewrite FloatAxioms.leb_spec, E in L. apply sf_pos_above in L.
  unfold is_positive. rewrite FloatAxioms.ltb_spec.
  change (Prim2SF 0) with (S754_zero false). now apply sf_pos_ltb.
Qed.

(** *** The weights are not negative *)

Lemma b64_distance_bounds (p ath : float) :
  valid_price p = true -> (p <=? ath) = true ->
  sf_finite_nonneg (Prim2SF (distance p ath))
  /\ (distance p ath <=? 1) = true.
Proof.
  intros Hp L. unfold distance. rewrite b64_one. b64_arith.
  destruct (b64_div_le_one p ath Hp L) as (N&U).
  now apply b64_one_minus.
Qed.

Lemma b64_ath_weights_nonneg (p_btc p_eth ath_btc ath_eth : float) :
  valid_price p_btc = true -> valid_price p_eth = true ->
  (p_btc <=? ath_btc) = true -> (p_eth <=? ath_eth) = true ->
  nonneg (fst (ath_weights p_btc p_eth ath_btc ath_eth)) = true
  /\ nonneg (snd (ath_weights p_btc p_eth ath_btc ath_eth)) = true.
Proof.
  intros Vb Ve Lb Le. unfold ath_weights. cbn [fst snd].
  destruct (b64_distance_bounds p_btc ath_btc Vb Lb) as (Fb&_).
  destruct (b64_distance_bounds p_eth ath_eth Ve Le) as (Fe&_).
  set (d_btc := distance p_btc ath_btc) in *.
  set (d_eth := distance p_eth ath_eth) in *.
  rewrite b64_epsilon. b64_arith.
  assert (nonneg (d_btc + d_eth) = true) as Ns
      by (apply b64_add_nonneg; apply b64_nonneg_sf;
          now apply sf_finite_nonneg_nonneg).
  assert (is_positive (d_btc + d_eth + 0x1.19799812dea11p-40) = true) as Pt.
  { apply (b64_positive_above 0x1.19799812dea11p-40); [reflexivity|].
    now apply b64_add_lower. }
  split; now apply b64_div_finite.
Qed.

(** the market-cap weights lie between 0 and 1, both included *)
Lemma b64_mc_weights_unit (p_btc p_eth : float) :
  valid_price p_btc = true -> valid_price p_eth = true ->
  (nonneg (fst (mc_weights p_btc p_eth)) = true
   /\ (fst (mc_weights p_btc p_eth) <=? 1) = true)
  /\ (nonneg (snd (mc_weights p_btc p_eth)) = true
      /\ (snd (mc_weights p_btc p_eth) <=? 1) = true).
Proof.
  intros Vb Ve. unfold mc_weights. cbn [fst snd].
  rewrite b64_one, b64_supply_ratio. b64_arith.
  set (mc_ratio := p_eth * 0x1.85d903e602995p+2 / p_btc).
  assert (nonneg mc_ratio = true) as Nr.
  { apply b64_div_nonneg; [|exact Vb]. apply b64_mul_nonneg; [exact Ve|].
    reflexivity. }
  assert ((1 <=? 1 + mc_ratio) = true) as L1
      by (now apply b64_add_lower).
  destruct (b64_div_le_one 1 (1 + mc_ratio) eq_refl L1) as (Nw&Uw).
  destruct (b64_one_minus _ Nw Uw) as (Fv&Uv).
  repeat split; try assumption.
  apply b64_nonneg_sf. now apply sf_finite_nonneg_nonneg.
Qed.

Lemma b64_weights_nonneg (s : strategy) (p_btc p_eth ath_btc ath_eth : float) :
  valid_price p_btc = true -> valid_price p_eth = true ->
  (p_btc <=? ath_btc) = true -> (p_eth <=? ath_eth) = true ->
  nonneg (fst (weights s p_btc p_eth ath_btc ath_eth)) = true
  /\ nonneg (snd (weights s p_btc p_eth ath_btc ath_eth)) = true.
Proof.
  intros Vb Ve Lb Le. destruct s; simpl weights.
  - now apply b64_ath_weights_nonneg.
  - destruct (b64_mc_weights_unit p_btc p_eth Vb Ve) as ((?&_)&(?&_)).
    now split.
  - split; reflexivity.
Qed.

(** what is bought in a month is not negative, and the holding does not
    go down *)
Lemma b64_purchase (h w p : float) :
  nonneg h = true -> nonneg w = true -> valid_price p = true ->
  (h <=? h + monthly_budget * w / p) = true
  /\ nonneg (h + monthly_budget * w / p) = true.
Proof.
  intros Hh Hw Hp.
  assert (nonneg (monthly_budget * w / p) = true) as Hq.
  { apply b64_div_nonneg; [|exact Hp].
    apply b64_mul_nonneg; [reflexivity|exact Hw]. }
  split; [now apply b64_add_lower|now apply b64_add_nonneg].
Qed.

(** *** The holdings never go down *)

Lemma nth_error_In_firstn {X : Type} (a : list X) :
  forall i x, nth_error a i = Some x -> In x (firstn (S i) a).
Proof.
  induction a as [|y r IH]; intros [|i] x H; try discriminate.
  - injection H as ->. now left.
  - right. now apply IH.
Qed.

Lemma b64_valid_prices (df : list (float * float)) :
  forallb valid_row df = true ->
  forallb valid_price (btc_prices_of df) = true
  /\ forallb valid_price (eth_prices_of df) = true.
Proof.
  induction df as [|[a b] r IH]; simpl; [now split|].
  unfold valid_row at 1. simpl. rewrite !andb_true_iff.
  intros ((Ha&Hb)&Hr). destruct (IH Hr). tauto.
Qed.

(** the price of a month is not above the running maximum of that month *)
Lemma b64_price_below_high (a : list float) (i : nat) (p ath : float) :
  forallb valid_price a = true ->
  nth_error a i = Some p ->
  nth_error (accumulate maximum a) i = Some ath ->
  valid_price p = true /\ (p <=? ath) = true.
Proof.
  intros V Hp Ha.
  assert (forall x, In x a -> valid_price x = true) as V'
      by (now apply forallb_forall).
  split; [apply V'; now apply (nth_error_In a i)|].
  assert (forallb is_positive a = true) as P
      by (apply forallb_forall; intros x Hx;
          now apply b64_valid_price_positive, V').
  destruct a as [|a0 r]; [destruct i; discriminate|].
  simpl in P. apply andb_true_iff in P as (P0&Pr).
  apply b64_positive_not_nan in P0.
  destruct i as [|i]; simpl in Hp, Ha.
  - assert (p = ath) as <- by congruence.
    apply b64_leb_refl. congruence.
  - destruct (b64_scan_maximum r a0 i P0 Pr) as (m&Hm&_&Hle);
      [apply nth_error_Some; congruence|].
    assert (m = ath) as -> by congruence.
    apply Hle. right. now apply nth_error_In_firstn.
Qed.

Lemma b64_reads_valid (df : list (float * float)) (i : nat) (r : reads) :
  forallb valid_row df = true -> reads_at df i r ->
  (valid_price (p_btc r) = true /\ (p_btc r <=? ath_btc r) = true)
  /\ (valid_price (p_eth r) = true /\ (p_eth r <=? ath_eth r) = true).
Proof.
  intros V (H1&H2&H3&H4). destruct (b64_valid_prices df V) as (Vb&Ve).
  split.
  - exact (b64_price_below_high _ i _ _ Vb H1 H3).
  - exact (b64_price_below_high _ i _ _ Ve H2 H4).
Qed.

Lemma b64_month_holdings (df : list (float * float)) (i : nat) (r : reads)
      (st : state) :
  forallb valid_row df = true -> reads_at df i r -> holdings_nonneg st ->
  let st' := month (p_btc r) (p_eth r) (ath_btc r) (ath_eth r) st in
  holdings_nonneg st'
  /\ forall s, (btc_holding st s <=? btc_holding st' s) = true
               /\ (eth_holding st s <=? eth_holding st' s) = true.
Proof.
  intros V Hr Hst st'.
  destruct (b64_reads_valid df i r V Hr) as ((Vb&Lb)&(Ve&Le)).
  assert (forall s,
             ((btc_holding st s <=? btc_holding st' s) = true
              /\ nonneg (btc_holding st' s) = true)
             /\ ((eth_holding st s <=? eth_holding st' s) = true
                 /\ nonneg (eth_holding st' s) = true)) as K.
  { intros s. unfold st'. rewrite month_btc, month_eth.
    destruct (Hst s) as (Nb&Ne).
    destruct (b64_weights_nonneg s _ _ _ _ Vb Ve Lb Le) as (Wb&We).
    split; now apply b64_purchase. }
  split; intros s; destruct (K s) as ((?&?)&(?&?)); now split.
Qed.

Lemma b64_holdings_nonneg (df : list (float * float)) (k : nat) :
  forallb valid_row df = true -> (k <= length df)%nat ->
  exists st, loop df k = Ok st /\ holdings_nonneg st.
Proof.
  intros V. induction k as [|k IH]; intros Hk.
  - exists initial. split; [reflexivity|]. intros s. split; reflexivity.
  - destruct IH as (st&Hst&Hn); [lia|].
    destruct (reads_at_exists df k) as (r&Hr); [lia|].
    eexists. split; [exact (loop_step _ _ _ _ Hst Hr)|].
    now apply (b64_month_holdings df k r st V Hr Hn).
Qed.

(** C5. The holdings of every strategy start at 0, and on a series of
    valid prices no month makes a holding smaller. *)
Theorem b64_holdings_never_decrease (df : list (float * float)) :
  forallb valid_row df = true ->
  (forall s, btc_holding initial s = 0 /\ eth_holding initial s = 0)
  /\ loop df 0 = Ok initial
  /\ forall k, (k < length df)%nat ->
       exists st st',
         loop df k = Ok st /\ loop df (S k) = Ok st'
         /\ forall s, (btc_holding st s <=? btc_holding st' s) = true
                      /\ (eth_holding st s <=? eth_holding st' s) = true.
Proof.
  intros V. split; [intros s; split; reflexivity|].
  split; [reflexivity|]. intros k Hk.
  destruct (b64_holdings_nonneg df k V) as (st&Hst&Hn); [lia|].
  destruct (reads_at_exists df k Hk) as (r&Hr).
  exists st. eexists. split; [exact Hst|].
  split; [exact (loop_step _ _ _ _ Hst Hr)|].
  now apply (b64_month_holdings df k r st V Hr Hn).
Qed.

(** *** What the script computes on particular frames *)

(** C1 on [flat_year] and on month 0 of [mixed_year]: the weights of the
    ATH strategy are (0, 0) and do not sum to 1, those of the two other
    strategies do (and so do the ATH weights of month 1 of [mixed_year],
    where BTC is below its high); on [flat_year] the ATH strategy ends with
    nothing, against 6000 counted as invested. *)
Theorem b64_ath_weights_do_not_sum_to_one :
  forallb valid_row flat_year = true
  /\ forallb valid_row mixed_year = true
  /\ reads_at flat_year 0 (mkReads 100 50 100 50)
  /\ reads_at mixed_year 0 (mkReads 100 50 100 50)
  /\ reads_at mixed_year 1 (mkReads 90 50 100 50)
  /\ weights ATH 100 50 100 50 = (0, 0)
  /\ sums_to_one (weights ATH 100 50 100 50) = false
  /\ sums_to_one (weights MC 100 50 100 50) = true
  /\ sums_to_one (weights EQ 100 50 100 50) = true
  /\ sums_to_one (weights ATH 90 50 100 50) = true
  /\ exists st,
      main flat_year = Ok (st, 6000)
      /\ value st ATH = repeat 0 12
      /\ last_item (value st EQ) = Ok 6000.
Proof.
  repeat match goal with |- _ /\ _ => split end;
    try reflexivity; try (repeat split; reflexivity).
  eexists. repeat split; reflexivity.
Qed.

(** C2 on [mixed_year]: in month 3 both assets are at their running
    all-time high; the weights of the ATH strategy are (0, 0), not
    (0.5, 0.5), and its holdings stay what they were. *)
Theorem b64_no_even_split_at_highs :
  forallb valid_row mixed_year = true
  /\ exists r before after,
      reads_at mixed_year 3 r
      /\ p_btc r = ath_btc r /\ p_eth r = ath_eth r
      /\ distance (p_btc r) (ath_btc r) = 0
      /\ distance (p_eth r) (ath_eth r) = 0
      /\ weights ATH (p_btc r) (p_eth r) (ath_btc r) (ath_eth r) = (0, 0)
      /\ loop mixed_year 3 = Ok before /\ loop mixed_year 4 = Ok after
      /\ btc_holding after ATH = btc_holding before ATH
      /\ eth_holding after ATH = eth_holding before ATH.
Proof.
  split; [reflexivity|].
  exists (mkReads 120 60 120 60). eexists. eexists.
  repeat split; reflexivity.
Qed.

(** At the constant price 3 the equal-weight strategy ends, after twelve
    months, one unit in the last place above the 6000 invested: 250 / 3 is
    rounded, and so are the sums and the products.  The two are the same
    within a tolerance, not bit for bit. *)
Lemma b64_equal_weight_constant_price_rounds :
  forallb valid_row (repeat (3, 3) 12) = true
  /\ exists st,
      simulate (repeat (3, 3) 12) = Ok st
      /\ last_item (value st EQ) = Ok 0x1.7700000000001p+12
      /\ total_invested (repeat (3, 3) 12) = 6000
      /\ last_item (value st EQ) <> Ok (total_invested (repeat (3, 3) 12)).
Proof.
  split; [reflexivity|].
  eexists. split; [reflexivity|]. split; [reflexivity|].
  split; [reflexivity|].
  vm_compute. intros H. apply Ok_inj in H.
  assert ((0x1.7700000000001p+12 =? 6000) = true) as F
      by (rewrite H at 1; reflexivity).
  discriminate F.
Qed.

(** C7 in binary64, at a price too small (1e-306): [250 / P] is beyond
    the largest double, both holdings and the value are [inf] from the
    first month on, against the 6000 invested. *)
Lemma b64_equal_weight_constant_price_overflows :
  forallb valid_row (repeat (0x1.6789e3750f791p-1017, 0x1.6789e3750f791p-1017)
                            12) = true
  /\ exists st,
      simulate (repeat (0x1.6789e3750f791p-1017, 0x1.6789e3750f791p-1017) 12)
      = Ok st
      /\ last_item (value st EQ) = Ok infinity
      /\ total_invested
           (repeat (0x1.6789e3750f791p-1017, 0x1.6789e3750f791p-1017) 12)
         = 6000
      /\ close infinity 6000 = false.
Proof.
  split; [reflexivity|].
  eexists. split; [reflexivity|]. repeat split; reflexivity.
Qed.

(** C10 in binary64: a market-cap ratio below 2^-53 is absorbed by the 1 it
    is added to; the whole budget goes to BTC and no ETH is bought. *)
Lemma b64_market_cap_weight_reaches_one :
  valid_row (1e17, 1) = true
  /\ mc_weights 1e17 1 = (1, 0)
  /\ (fst (mc_weights 1e17 1) <? 1) = false
  /\ (0 <? snd (mc_weights 1e17 1)) = false
  /\ (monthly_budget * snd (mc_weights 1e17 1)) / 1 = 0.
Proof. repeat split; reflexivity. Qed.

End B64Reading.

(** ** The theorems at particular inputs *)

Section Instances.

Local Open Scope float_scope.

(** the strategies one after the other, equal-weight first *)
Lemma strategies_independent_example :
  (forall i, (i < length mixed_year)%nat ->
             fair (one_by_one [EQ; ATH; MC]))
  /\ exists st st',
      simulate mixed_year = Ok st
      /\ simulate_by (fun _ => one_by_one [EQ; ATH; MC]) mixed_year = Ok st'
      /\ forall s, value st' s = value st s.
Proof.
  assert (forall i, (i < length mixed_year)%nat ->
                    fair (one_by_one [EQ; ATH; MC])) as F
      by (intros i _ s; destruct s; reflexivity).
  split; [exact F|].
  exact (strategies_independent mixed_year
                                (fun _ => one_by_one [EQ; ATH; MC]) F).
Defined.

Lemma b64_first_month_buys_nothing_example :
  mixed_year <> [] /\ forallb valid_row mixed_year = true
  /\ exists r st1 st,
    reads_at mixed_year 0 r
    /\ ath_btc r = p_btc r /\ ath_eth r = p_eth r
    /\ distance (p_btc r) (ath_btc r) = 0
    /\ distance (p_eth r) (ath_eth r) = 0
    /\ weights ATH (p_btc r) (p_eth r) (ath_btc r) (ath_eth r) = (0, 0)
    /\ (monthly_budget * 0) / p_btc r = 0
    /\ (monthly_budget * 0) / p_eth r = 0
    /\ loop mixed_year 1 = Ok st1
    /\ btc_holding st1 ATH = 0 /\ eth_holding st1 ATH = 0
    /\ simulate mixed_year = Ok st
    /\ nth_error (value st ATH) 0 = Some 0.
Proof.
  assert (mixed_year <> []) as N by discriminate.
  assert (forallb valid_row mixed_year = true) as V by reflexivity.
  split; [exact N|]. split; [exact V|].
  exact (b64_first_month_buys_nothing mixed_year N V).
Defined.

Lemma b64_running_maximum_example :
  btc_prices_of mixed_year <> []
  /\ forallb is_positive (btc_prices_of mixed_year) = true
  /\ length (accumulate maximum (btc_prices_of mixed_year))
     = length (btc_prices_of mixed_year)
  /\ nth_error (accumulate maximum (btc_prices_of mixed_year)) 0
     = nth_error (btc_prices_of mixed_year) 0
  /\ (forall i, (i < length (btc_prices_of mixed_year))%nat ->
       exists m,
         nth_error (accumulate maximum (btc_prices_of mixed_year)) i = Some m
         /\ is_maximum_of m (firstn (S i) (btc_prices_of mixed_year)))
  /\ (forall i x y,
       nth_error (accumulate maximum (btc_prices_of mixed_year)) i = Some x ->
       nth_error (accumulate maximum (btc_prices_of mixed_year)) (S i)
       = Some y ->
       (x <=? y) = true).
Proof.
  assert (btc_prices_of mixed_year <> []) as N by discriminate.
  assert (forallb is_positive (btc_prices_of mixed_year) = true) as P
      by reflexivity.
  split; [exact N|]. split; [exact P|].
  exact (b64_running_maximum (btc_prices_of mixed_year) N P).
Defined.

Lemma b64_holdings_never_decrease_example :
  forallb valid_row mixed_year = true
  /\ (forall s, btc_holding (initial (num := float)) s = 0
                /\ eth_holding (initial (num := float)) s = 0)
  /\ loop mixed_year 0 = Ok initial
  /\ forall k, (k < length mixed_year)%nat ->
       exists st st',
         loop mixed_year k = Ok st /\ loop mixed_year (S k) = Ok st'
         /\ forall s, (btc_holding st s <=? btc_holding st' s) = true
                      /\ (eth_holding st s <=? eth_holding st' s) = true.
Proof.
  assert (forallb valid_row mixed_year = true) as V by reflexivity.
  split; [exact V|].
  exact (b64_holdings_never_decrease mixed_year V).
Defined.

End Instances.

(** * Further properties of the script

    Properties of the loop and of the report (section 6) that the script
    shows by itself. *)

Section Causality.

Context {num : Type} {A : Arith num}.
Local Open Scope num_scope.

Local Abbreviation state := (@state num).
Local Abbreviation row := (num * num)%type.
Local Abbreviation reads := (@reads num).

Lemma scan_firstn (f : num -> num -> num) (a : list num) :
  forall acc k, scan f acc (firstn k a) = firstn k (scan f acc a).
Proof.
  induction a as [|x r IH]; intros acc [|k]; simpl; try reflexivity.
  now rewrite IH.
Qed.

(** the running maximum of the first [k] prices is the first [k] entries
    of the running maximum *)
Lemma accumulate_firstn (f : num -> num -> num) (a : list num) (k : nat) :
  accumulate f (firstn k a) = firstn k (accumulate f a).
Proof.
  destruct a as [|x r], k as [|k]; simpl; try reflexivity.
  now rewrite scan_firstn.
Qed.

Lemma nth_error_firstn_lt {X : Type} (l : list X) :
  forall k j, (j < k)%nat -> nth_error (firstn k l) j = nth_error l j.
Proof.
  induction l as [|x r IH]; intros [|k] [|j] H; simpl; try reflexivity;
    try lia.
  apply IH. lia.
Qed.

Lemma reads_at_firstn (df : list row) (k j : nat) (r : reads) :
  (j < k)%nat -> reads_at df j r -> reads_at (firstn k df) j r.
Proof.
  intros H (H1&H2&H3&H4). unfold reads_at, btc_prices_of, eth_prices_of in *.
  rewrite <- !firstn_map, !accumulate_firstn, !nth_error_firstn_lt by lia.
  now repeat split.
Qed.

(** the first [j] months of the loop read nothing beyond row [j - 1] *)
Lemma loop_firstn (df : list row) (k j : nat) :
  (j <= k)%nat -> (k <= length df)%nat -> loop (firstn k df) j = loop df j.
Proof.
  intros Hj Hk. induction j as [|j IH]; [reflexivity|].
  destruct (loop_total df j) as (st&Hst); [lia|].
  destruct (reads_at_exists df j) as (r&Hr); [lia|].
  rewrite (loop_step df j r st Hst Hr).
  apply (loop_step (firstn k df) j r st).
  - rewrite IH by lia. exact Hst.
  - apply reads_at_firstn; [lia|exact Hr].
Qed.

(** No look-ahead: the simulation of the first [k] rows ends in the state
    the full simulation is in after [k] months, and its value series are
    the first [k] entries of the full ones. *)
Theorem simulate_prefix (df : list row) (k : nat) :
  (k <= length df)%nat ->
  exists st st_k,
    simulate df = Ok st /\ simulate (firstn k df) = Ok st_k
    /\ loop df k = Ok st_k
    /\ forall s, value st_k s = firstn k (value st s).
Proof.
  intros Hk.
  destruct (loop_total df (length df)) as (st&Hst); [lia|].
  destruct (loop_total df k Hk) as (st_k&Hst_k).
  exists st, st_k. split; [exact Hst|].
  assert (length (firstn k df) = k) as L by (rewrite length_firstn; lia).
  split; [unfold simulate; rewrite L, loop_firstn by lia; exact Hst_k|].
  split; [exact Hst_k|]. intros s.
  destruct (loop_value_prefix df k (length df - k) st_k st s Hst_k)
    as (l&Hl).
  - replace (k + (length df - k))%nat with (length df) by lia. exact Hst.
  - lia.
  - rewrite Hl, firstn_app, (loop_value_length df k st_k s Hst_k Hk).
    rewrite Nat.sub_diag, firstn_O, app_nil_r.
    rewrite <- (loop_value_length df k st_k s Hst_k Hk) at 1.
    now rewrite firstn_all.
Qed.

(** With 12 rows or more the script runs through the report: every
    [value[short][-1]] exists, and the three lines are those of ATH, MC and
    EQ in this order. *)
Theorem script_reports (df : list row) :
  (12 <= length df)%nat ->
  exists st f_ath f_mc f_eq,
    simulate df = Ok st
    /\ last_item (value st ATH) = Ok f_ath
    /\ last_item (value st MC) = Ok f_mc
    /\ last_item (value st EQ) = Ok f_eq
    /\ script df
       = Ok [(ATH, f_ath, roi f_ath (total_invested df));
             (MC, f_mc, roi f_mc (total_invested df));
             (EQ, f_eq, roi f_eq (total_invested df))].
Proof.
  intros H.
  destruct (simulate_entry df (length df - 1)) as (st&r&b&Hst&_&_&_&Hs);
    [lia|].
  assert (forall s, exists f, last_item (value st s) = Ok f) as F.
  { intros s. destruct (Hs s) as (L&N). eexists.
    apply (last_item_nth _ (length df - 1)); [rewrite L; lia|exact N]. }
  destruct (F ATH) as (f1&H1), (F MC) as (f2&H2), (F EQ) as (f3&H3).
  exists st, f1, f2, f3. repeat split; try assumption.
  unfold script, main.
  assert ((length df <? 12)%nat = false) as -> by (apply Nat.ltb_ge; lia).
  rewrite Hst. simpl. now rewrite H1, H2, H3.
Qed.

(** fewer than 12 rows: the exception of the check is the outcome of the
    whole script, whatever the rows hold *)
Lemma script_raises (df : list row) :
  (length df < 12)%nat -> script df = Raise (ValueError not_enough).
Proof.
  intros H. unfold script, main. apply Nat.ltb_lt in H. now rewrite H.
Qed.

End Causality.

Section ClosedForm.

Context {num : Type} {A : Arith num}.
Local Open Scope num_scope.

Local Abbreviation state := (@state num).
Local Abbreviation row := (num * num)%type.
Local Abbreviation reads := (@reads num).

Lemma firstn_S_nth {X : Type} (l : list X) :
  forall k x, nth_error l k = Some x -> firstn (S k) l = firstn k l ++ [x].
Proof.
  induction l as [|y r IH]; intros [|k] x H; try discriminate.
  - injection H as ->. reflexivity.
  - simpl. f_equal. now apply IH.
Qed.

Lemma total_snoc (l : list num) (x : num) : total (l ++ [x]) = total l + x.
Proof. unfold total. now rewrite fold_left_app. Qed.

(** after [k] months the equal-weight holdings are the sums, month after
    month, of [250 / price] *)
Lemma eq_holdings_total (df : list row) (k : nat) (st : state) :
  (k <= length df)%nat -> loop df k = Ok st ->
  btc_holding st EQ = total (map eq_quantity (firstn k (btc_prices_of df)))
  /\ eth_holding st EQ
     = total (map eq_quantity (firstn k (eth_prices_of df))).
Proof.
  revert st. induction k as [|k IH]; intros st Hk Hst.
  - unfold loop in Hst. simpl in Hst. injection Hst as <-. now split.
  - destruct (loop_total df k) as (st0&H0); [lia|].
    destruct (reads_at_exists df k) as (r&Hr); [lia|].
    rewrite (loop_step df k r st0 H0 Hr) in Hst. injection Hst as <-.
    destruct (IH st0 ltac:(lia) H0) as (Hb&He).
    destruct Hr as (R1&R2&_).
    rewrite month_btc, month_eth, Hb, He.
    rewrite (firstn_S_nth _ k _ R1), (firstn_S_nth _ k _ R2).
    rewrite !map_app. cbn [map]. rewrite !total_snoc. now split.
Qed.

(** The closed form of the equal-weight strategy: on a frame that ends
    with the row [(p_btc, p_eth)], its final value is the sum of the
    quantities [250 / price] of BTC times [p_btc] plus that of ETH times
    [p_eth], the sums being taken from the left in the arithmetic of the
    script. *)
Theorem eq_final_value (front : list row) (p_btc p_eth : num) :
  let df := front ++ [(p_btc, p_eth)] in
  exists st,
    simulate df = Ok st
    /\ btc_holding st EQ = total (map eq_quantity (btc_prices_of df))
    /\ eth_holding st EQ = total (map eq_quantity (eth_prices_of df))
    /\ last_item (value st EQ)
       = Ok (total (map eq_quantity (btc_prices_of df)) * p_btc
             + total (map eq_quantity (eth_prices_of df)) * p_eth).
Proof.
  intros df.
  assert (length df = S (length front)) as L
      by (unfold df; rewrite length_app; simpl; lia).
  destruct (simulate_entry df (length front)) as (st&r&b&Hst&Hr&Hb&Ha&Hs);
    [lia|].
  exists st.
  assert (loop df (length df) = Ok st) as Hst' by exact Hst.
  destruct (eq_holdings_total df (length df) st (le_n _) Hst') as (E1&E2).
  unfold btc_prices_of, eth_prices_of in E1, E2.
  rewrite <- !(length_map fst df) in E1. rewrite firstn_all in E1.
  rewrite <- !(length_map snd df) in E2. rewrite firstn_all in E2.
  split; [exact Hst|]. split; [exact E1|]. split; [exact E2|].
  pose proof (reads_at_row df (length front) r Hr) as Hrow.
  unfold df in Hrow. rewrite nth_error_app2, Nat.sub_diag in Hrow by lia.
  simpl in Hrow. injection Hrow as Pb Pe.
  destruct (Hs EQ) as (Lv&Hn).
  unfold simulate in Hst. rewrite L, Ha in Hst.
  injection Hst as Hm. rewrite Hm in Hn.
  assert (length (value st EQ) = S (length front)) as Lv' by congruence.
  rewrite (last_item_nth _ (length front) _ Lv' Hn).
  unfold btc_prices_of, eth_prices_of. now rewrite E1, E2, <- Pb, <- Pe.
Qed.

End ClosedForm.

(** ** Further properties in binary64 *)

Section B64Further.

Local Open Scope float_scope.

Lemma b64_positive_sf (p : float) :
  is_positive p = true -> sf_pos (Prim2SF p).
Proof.
  unfold is_positive. rewrite FloatAxioms.ltb_spec.
  change (Prim2SF 0) with (S754_zero false). apply sf_pos_ltb.
Qed.

(** two positive numbers neither of which is below the other are the same
    double *)
Lemma b64_leb_antisym (a b : float) :
  is_positive a = true -> (a <=? b) = true -> (b <=? a) = true -> a = b.
Proof.
  intros Pa L1 L2. apply b64_positive_sf in Pa.
  rewrite FloatAxioms.leb_spec in L1, L2. apply Prim2SF_inj.
  destruct (Prim2SF a) as [s1|[]| |[] m1 e1]; try contradiction;
    destruct (Prim2SF b) as [s2|[]| |[] m2 e2]; try discriminate;
    try reflexivity.
  apply SFleb_finite_inv in L1, L2.
  assert (e1 = e2) as -> by lia.
  assert (m1 = m2) as -> by lia. reflexivity.
Qed.

Lemma Some_eq {X : Type} (a b : X) : Some a = Some b -> a = b.
Proof. intros H. now inversion H. Qed.

Lemma risingb_rising (a : list float) : risingb a = true -> rising a.
Proof.
  induction a as [|x [|y r] IH]; intros H i u v Hu Hv.
  - destruct i; discriminate Hv.
  - destruct i as [|[|i]]; discriminate Hv.
  - cbn [risingb] in H. apply andb_true_iff in H as (L&R).
    destruct i as [|i].
    + simpl in Hu, Hv. apply Some_eq in Hu, Hv. now subst.
    + exact (IH R i u v Hu Hv).
Qed.

Lemma rising_tail (x : float) (l : list float) : rising (x :: l) -> rising l.
Proof. intros R i a b Ha Hb. exact (R (S i) a b Ha Hb). Qed.

Lemma b64_scan_rising (l : list float) :
  forall acc,
    is_positive acc = true -> forallb is_positive l = true ->
    rising (acc :: l) -> scan maximum acc l = l.
Proof.
  induction l as [|x r IH]; intros acc Pa Pl R; [reflexivity|].
  simpl in Pl. apply andb_true_iff in Pl as (Px&Pr).
  assert ((acc <=? x) = true) as L by (apply (R 0%nat); reflexivity).
  assert (maximum acc x = x) as M.
  { destruct (b64_maximum_cases acc x) as [(E&L')|(E&_)];
      try (now apply b64_positive_not_nan); [|exact E].
    rewrite E. now apply b64_leb_antisym. }
  simpl. rewrite M. f_equal. apply IH; try assumption.
  now apply (rising_tail acc).
Qed.

(** the running maximum of positive prices that never fall is the list of
    the prices itself *)
Lemma b64_accumulate_rising (a : list float) :
  forallb is_positive a = true -> rising a ->
  accumulate maximum a = a.
Proof.
  intros P R. destruct a as [|x r]; [reflexivity|].
  simpl in P. apply andb_true_iff in P as (Px&Pr).
  simpl. f_equal. now apply b64_scan_rising.
Qed.

(** On positive prices the running maximum is the list of the prices
    itself (every month is an all-time high) exactly when the prices never
    fall. *)
Theorem b64_every_month_a_high (a : list float) :
  forallb is_positive a = true ->
  accumulate maximum a = a <-> rising a.
Proof.
  intros P. split; [|now apply b64_accumulate_rising].
  intros E. destruct a as [|a0 r]; [intros [|i] x y H; discriminate H|].
  simpl in P. apply andb_true_iff in P as (P0&Pr).
  simpl in E. injection E as E. intros i x y Hx Hy.
  rewrite <- E in Hx, Hy.
  apply (b64_scan_monotone r a0 i x y); try assumption.
  now apply b64_positive_not_nan.
Qed.

Lemma b64_positive_prices (df : list (float * float)) :
  forallb valid_row df = true ->
  forallb is_positive (btc_prices_of df) = true
  /\ forallb is_positive (eth_prices_of df) = true.
Proof.
  intros V. destruct (b64_valid_prices df V) as (Vb&Ve).
  split; apply forallb_forall; intros x Hx; apply b64_valid_price_positive;
    [rewrite forallb_forall in Vb; now apply Vb
    |rewrite forallb_forall in Ve; now apply Ve].
Qed.

Lemma b64_idle_month (st : state) (p_btc p_eth : float) :
  valid_price p_btc = true -> valid_price p_eth = true ->
  btc_holding st ATH = 0 -> eth_holding st ATH = 0 ->
  let st' := month p_btc p_eth p_btc p_eth st in
  btc_holding st' ATH = 0 /\ eth_holding st' ATH = 0
  /\ value st' ATH = value st ATH ++ [0].
Proof.
  intros Vb Ve Hb He st'.
  assert (btc_holding st' ATH = 0 /\ eth_holding st' ATH = 0) as (Hb'&He').
  { unfold st'. rewrite month_btc, month_eth, Hb, He. simpl weights.
    rewrite (b64_ath_weights_at_highs _ _ Vb Ve). cbn [fst snd].
    rewrite b64_budget. b64_arith. change (500 * 0) with 0.
    rewrite !b64_zero_div by assumption. now split. }
  split; [exact Hb'|]. split; [exact He'|].
  unfold st' in *. rewrite month_value, Hb', He'. b64_arith.
  now rewrite !b64_zero_mul by assumption.
Qed.

Lemma b64_idle_loop (df : list (float * float)) (k : nat) :
  forallb valid_row df = true ->
  rising (btc_prices_of df) -> rising (eth_prices_of df) ->
  (k <= length df)%nat ->
  exists st,
    loop df k = Ok st
    /\ btc_holding st ATH = 0 /\ eth_holding st ATH = 0
    /\ value st ATH = repeat 0 k.
Proof.
  intros V Rb Re. destruct (b64_positive_prices df V) as (Pb&Pe).
  induction k as [|k IH]; intros Hk.
  - exists initial. now repeat split.
  - destruct IH as (st&Hst&Hb&He&Hv); [lia|].
    destruct (reads_at_exists df k) as (r&Hr); [lia|].
    destruct (b64_reads_valid df k r V Hr) as ((Vb&_)&(Ve&_)).
    destruct Hr as (R1&R2&R3&R4).
    rewrite (b64_accumulate_rising _ Pb Rb) in R3.
    rewrite (b64_accumulate_rising _ Pe Re) in R4.
    assert (ath_btc r = p_btc r) as Eb by congruence.
    assert (ath_eth r = p_eth r) as Ee by congruence.
    assert (reads_at df k r) as Hr.
    { repeat split; try assumption.
      - now rewrite (b64_accumulate_rising _ Pb Rb).
      - now rewrite (b64_accumulate_rising _ Pe Re). }
    eexists. split; [exact (loop_step df k r st Hst Hr)|].
    rewrite Eb, Ee.
    destruct (b64_idle_month st _ _ Vb Ve Hb He) as (Hb'&He'&Hv').
    split; [exact Hb'|]. split; [exact He'|].
    rewrite Hv', Hv. clear. induction k as [|k IH]; [reflexivity|].
    simpl. now rewrite IH.
Qed.

(** On valid prices that never fall, for BTC nor for ETH, the ATH strategy
    buys nothing in any month: its holdings stay 0.0 and every entry of
    its value series is 0.0. *)
Theorem b64_ath_idle_on_rising_prices (df : list (float * float)) :
  forallb valid_row df = true ->
  rising (btc_prices_of df) -> rising (eth_prices_of df) ->
  exists st,
    simulate df = Ok st
    /\ btc_holding st ATH = 0 /\ eth_holding st ATH = 0
    /\ value st ATH = repeat 0 (length df).
Proof.
  intros V Rb Re.
  destruct (b64_idle_loop df (length df) V Rb Re (le_n _))
    as (st&Hst&Hb&He&Hv).
  exists st. split; [exact Hst|]. now repeat split.
Qed.

(** *** The values are numbers *)

Lemma b64_mul_comm (a b : float) : a * b = b * a.
Proof.
  apply Prim2SF_inj. rewrite !mul_spec.
  destruct (Prim2SF a) as [s1|s1| |s1 m1 e1];
    destruct (Prim2SF b) as [s2|s2| |s2 m2 e2];
    unfold SF64mul, SFmul; try reflexivity;
    try (now rewrite xorb_comm).
  now rewrite xorb_comm, Pos.mul_comm, Z.add_comm.
Qed.

Lemma b64_worth_nonneg (h_btc h_eth p_btc p_eth : float) :
  nonneg h_btc = true -> nonneg h_eth = true ->
  valid_price p_btc = true -> valid_price p_eth = true ->
  nonneg (h_btc * p_btc + h_eth * p_eth) = true.
Proof.
  intros Hb He Vb Ve. apply b64_add_nonneg.
  - rewrite b64_mul_comm. now apply b64_mul_nonneg.
  - rewrite b64_mul_comm. now apply b64_mul_nonneg.
Qed.

Lemma b64_values_loop (df : list (float * float)) (k : nat) :
  forallb valid_row df = true -> (k <= length df)%nat ->
  exists st,
    loop df k = Ok st /\ holdings_nonneg st
    /\ forall s v, In v (value st s) -> nonneg v = true.
Proof.
  intros V. induction k as [|k IH]; intros Hk.
  - exists initial. split; [reflexivity|]. split.
    + intros s. split; reflexivity.
    + intros s v [].
  - destruct IH as (st&Hst&Hn&Hv); [lia|].
    destruct (reads_at_exists df k) as (r&Hr); [lia|].
    eexists. split; [exact (loop_step _ _ _ _ Hst Hr)|].
    destruct (b64_month_holdings df k r st V Hr Hn) as (Hn'&_).
    split; [exact Hn'|]. intros s v Hin.
    rewrite month_value in Hin. apply in_app_or in Hin as [Hin|[<-|[]]].
    + now apply (Hv s).
    + destruct (b64_reads_valid df k r V Hr) as ((Vb&_)&(Ve&_)).
      destruct (Hn' s) as (Nb&Ne). b64_arith.
      now apply b64_worth_nonneg.
Qed.

(** On valid prices every entry of the value series of every strategy is
    zero or above; none of them is a NaN. *)
Theorem b64_values_nonneg (df : list (float * float)) :
  forallb valid_row df = true ->
  exists st,
    simulate df = Ok st
    /\ forall s v, In v (value st s) ->
         nonneg v = true /\ is_nan v = false.
Proof.
  intros V.
  destruct (b64_values_loop df (length df) V (le_n _)) as (st&Hst&_&Hv).
  exists st. split; [exact Hst|]. intros s v Hin.
  pose proof (Hv s v Hin) as N. split; [exact N|].
  now apply (b64_leb_not_nan 0 v).
Qed.

(** *** The ATH weights are shares *)

Lemma b64_finite_nonneg_cases (d : float) :
  sf_finite_nonneg (Prim2SF d) ->
  (exists s, Prim2SF d = S754_zero s) \/ valid_price d = true.
Proof.
  intros H. unfold valid_price. rewrite !FloatAxioms.ltb_spec.
  change (Prim2SF 0) with (S754_zero false).
  change (Prim2SF infinity) with (S754_infinity false).
  destruct (Prim2SF d) as [s|[]| |[] m e]; try contradiction.
  - left. now exists s.
  - right. reflexivity.
Qed.

Lemma b64_share (d t : float) :
  sf_finite_nonneg (Prim2SF d) -> is_positive t = true ->
  (d <=? t) = true ->
  nonneg (d / t) = true /\ (d / t <=? 1) = true.
Proof.
  intros F P L. destruct (b64_finite_nonneg_cases d F) as [(s&E)|Vd].
  - apply b64_positive_sf in P. unfold nonneg.
    rewrite !FloatAxioms.leb_spec, div_spec, E.
    change (Prim2SF 0) with (S754_zero false).
    change (Prim2SF 1) with sf_one.
    destruct (Prim2SF t) as [s'|[]| |[] m e]; try contradiction;
      destruct s; split; reflexivity.
  - now apply b64_div_le_one.
Qed.

(** On valid prices that are not above their all-time highs each of the
    two ATH weights lies between 0 and 1, both included. *)
Theorem b64_ath_weights_unit (p_btc p_eth ath_btc ath_eth : float) :
  valid_price p_btc = true -> valid_price p_eth = true ->
  (p_btc <=? ath_btc) = true -> (p_eth <=? ath_eth) = true ->
  let w := ath_weights p_btc p_eth ath_btc ath_eth in
  (nonneg (fst w) = true /\ (fst w <=? 1) = true)
  /\ (nonneg (snd w) = true /\ (snd w <=? 1) = true).
Proof.
  intros Vb Ve Lb Le. unfold ath_weights. cbn [fst snd].
  destruct (b64_distance_bounds p_btc ath_btc Vb Lb) as (Fb&_).
  destruct (b64_distance_bounds p_eth ath_eth Ve Le) as (Fe&_).
  set (d_btc := distance p_btc ath_btc) in *.
  set (d_eth := distance p_eth ath_eth) in *.
  rewrite b64_epsilon. b64_arith.
  assert (nonneg d_btc = true) as Nb
      by (now apply b64_nonneg_sf, sf_finite_nonneg_nonneg).
  assert (nonneg d_eth = true) as Ne
      by (now apply b64_nonneg_sf, sf_finite_nonneg_nonneg).
  destruct (b64_add_lower d_btc d_eth Nb Ne) as (L1&L2).
  assert (nonneg (d_btc + d_eth) = true) as Ns by (now apply b64_add_nonneg).
  destruct (b64_add_lower (d_btc + d_eth) 0x1.19799812dea11p-40 Ns eq_refl)
    as (L3&L4).
  assert (is_positive (d_btc + d_eth + 0x1.19799812dea11p-40) = true) as Pt
      by (now apply (b64_positive_above 0x1.19799812dea11p-40)).
  split; apply b64_share; try assumption.
  - now apply (b64_leb_trans _ (d_btc + d_eth)).
  - now apply (b64_leb_trans _ (d_btc + d_eth)).
Qed.

(** *** The report of a strategy that never bought *)

Section B64Positive.

Local Open Scope Z_scope.

Lemma Zdigits2_pos (m : Z) : 0 < m -> 0 < Zdigits2 m.
Proof.
  intros H. rewrite Zdigits2_log2 by exact H.
  pose proof (Z.log2_nonneg m). lia.
Qed.

Lemma div_pow2_pos (m k : Z) :
  0 < m -> 0 <= k -> k < Zdigits2 m -> 0 < m / 2 ^ k.
Proof.
  intros Hm Hk Hd. pose proof (Zdigits2_bounds m Hm) as (B&_).
  assert (2 ^ k <= 2 ^ (Zdigits2 m - 1)) by (apply Z.pow_le_mono_r; lia).
  apply Z.div_str_pos. split; [apply pow2_pos; lia|lia].
Qed.

Lemma drop_lt_digits (m e : Z) :
  0 < m -> -1074 <= e -> drop m e < Zdigits2 m.
Proof.
  intros Hm He. pose proof (Zdigits2_pos m Hm).
  unfold drop. rewrite fexp_64. lia.
Qed.

(** above the least exponent, what is above zero is not rounded to zero *)
Lemma round_pos (m e : Z) (l : location) :
  0 < m -> -1074 <= e -> sf_pos (binary_round_aux prec emax false m e l).
Proof.
  intros Hm He.
  assert (0 <= m) as Hm0 by lia.
  destruct (binary_round_aux_spec false m e l Hm0) as (r&(Hr1&Hr2)&->).
  pose proof (drop_nonneg m e) as D0.
  pose proof (div_pow2_pos m (drop m e) Hm D0 (drop_lt_digits m e Hm He))
    as Q.
  assert (0 < r) as Hr by lia.
  assert (-1074 <= e + drop m e) as He' by lia.
  pose proof (div_pow2_pos r _ Hr (drop_nonneg r (e + drop m e))
                (drop_lt_digits r _ Hr He')) as Q'.
  assert (0 <= r / 2 ^ drop r (e + drop m e)) as Q0 by lia.
  destruct (finish_cases false _ (e + drop m e + drop r (e + drop m e)) Q0)
    as [(Z&_)|[(p&_&_&->)|(_&_&->)]]; [lia|exact I|exact I].
Qed.

Lemma binary_round_pos (m : positive) (e : Z) :
  -1074 <= e -> sf_pos (binary_round prec emax false m e).
Proof.
  intros He. unfold binary_round.
  pose proof (shl_align_spec m e (fexp prec emax (Z.pos (digits2_pos m) + e)))
    as (S1&S2).
  destruct (shl_align m e _) as [mz ez]. simpl in S1, S2.
  apply round_pos; [lia|]. rewrite S1, fexp_64. lia.
Qed.

(** the double nearest to a machine integer, as [SpecFloat] computes it *)
Lemma of_Z_binary (z : Z) :
  0 <= z < 2 ^ 63 ->
  Prim2SF (of_Z z) = binary_normalize prec emax z 0 false.
Proof.
  intros H. unfold of_Z.
  pose proof (of_uint63_spec (Uint63.of_Z z)) as S.
  rewrite Uint63.of_Z_spec in S.
  rewrite Z.mod_small in S by (exact H).
  rewrite <- S. now rewrite SF2Prim_Prim2SF.
Qed.

Lemma b64_of_Z_positive (z : Z) :
  0 < z < 2 ^ 63 -> is_positive (of_Z z) = true.
Proof.
  intros H. unfold is_positive.
  rewrite FloatAxioms.ltb_spec, of_Z_binary by lia.
  change (Prim2SF 0%float) with (S754_zero false). apply sf_pos_ltb.
  destruct z as [|p|p]; try lia. simpl binary_normalize.
  apply binary_round_pos. lia.
Qed.

Lemma SFmul_budget_pos (x : spec_float) :
  valid_binary x = true -> sf_pos x ->
  sf_pos (SF64mul (S754_finite false 8796093022208000 (-44)) x).
Proof.
  intros V P. destruct x as [s|[]| |[] m e]; try contradiction; [exact I|].
  unfold SF64mul, SFmul. cbn [xorb].
  destruct (valid_finite false m e V) as (C&_).
  destruct (round_above false (Z.pos (8796093022208000 * m)) (-44 + e)
                        loc_Exact (Z.pos m) e)
    as [->|(p&ef&->&_)]; try exact I; try lia; try assumption.
  replace (e - (-44 + e)) with 44 by lia.
  change (2 ^ 44) with 17592186044416. lia.
Qed.

End B64Positive.

Lemma b64_budget_mul_positive (x : float) :
  is_positive x = true -> is_positive (monthly_budget * x) = true.
Proof.
  intros H. apply b64_positive_sf in H. rewrite b64_budget. b64_arith.
  unfold is_positive. rewrite FloatAxioms.ltb_spec, mul_spec.
  change (Prim2SF 0) with (S754_zero false). apply sf_pos_ltb.
  change (Prim2SF 500) with (S754_finite false 8796093022208000 (-44)).
  apply SFmul_budget_pos; [apply Prim2SF_valid|exact H].
Qed.

(** the total invested is above zero for a frame that is not empty *)
Lemma b64_total_invested_positive (df : list (float * float)) :
  (0 < Z.of_nat (length df) < 2 ^ 63)%Z ->
  is_positive (total_invested df) = true.
Proof.
  intros H. unfold total_invested. apply b64_budget_mul_positive.
  b64_arith. now apply b64_of_Z_positive.
Qed.

(** a final value of 0.0 is reported as a ROI of -100 *)
Lemma b64_roi_nothing (t : float) : is_positive t = true -> roi 0 t = -100.
Proof.
  intros H. unfold roi. b64_arith.
  assert (0 / t = 0) as ->.
  { apply Prim2SF_inj. rewrite div_spec. apply b64_positive_sf in H.
    change (Prim2SF 0) with (S754_zero false).
    destruct (Prim2SF t) as [s|[]| |[] m e]; try contradiction;
      reflexivity. }
  reflexivity.
Qed.

Lemma last_item_repeat (x : float) (n : nat) :
  last_item (repeat x (S n)) = Ok x.
Proof.
  apply (last_item_nth _ n); [now rewrite repeat_length|].
  apply nth_error_repeat. lia.
Qed.

Lemma last_item_exists (l : list float) (n : nat) :
  length l = S n -> exists x, last_item l = Ok x.
Proof.
  intros L. destruct (nth_error l n) as [x|] eqn:E.
  - exists x. now apply (last_item_nth _ n).
  - apply nth_error_None in E. lia.
Qed.

(** On valid prices that never fall the script reports, for 12 months or
    more, a final value of 0.0 and a ROI of -100 for the ATH strategy,
    whatever the prices are. *)
Theorem b64_ath_report_on_rising_prices (df : list (float * float)) :
  forallb valid_row df = true ->
  rising (btc_prices_of df) -> rising (eth_prices_of df) ->
  (12 <= length df)%nat -> (Z.of_nat (length df) < 2 ^ 63)%Z ->
  exists f_mc f_eq,
    script df
    = Ok [(ATH, 0, -100);
          (MC, f_mc, roi f_mc (total_invested df));
          (EQ, f_eq, roi f_eq (total_invested df))].
Proof.
  intros V Rb Re H12 H63.
  destruct (b64_idle_loop df (length df) V Rb Re (le_n _))
    as (st&Hst&_&_&Hv).
  destruct (length df) as [|n] eqn:L; [lia|].
  assert (last_item (value st ATH) = Ok 0) as F1
      by (rewrite Hv; apply last_item_repeat).
  assert (forall s, length (value st s) = S n) as Ls.
  { intros s. rewrite <- L in Hst |- *.
    apply (loop_value_length df (length df) st s Hst). lia. }
  destruct (last_item_exists _ n (Ls MC)) as (f_mc&F2).
  destruct (last_item_exists _ n (Ls EQ)) as (f_eq&F3).
  exists f_mc, f_eq. unfold script, main. rewrite L.
  assert ((S n <? 12)%nat = false) as -> by (apply Nat.ltb_ge; lia).
  unfold simulate. rewrite L, Hst. cbn [bind fst snd results].
  rewrite F1, F2, F3. cbn [bind].
  rewrite b64_roi_nothing; [reflexivity|].
  apply b64_total_invested_positive. lia.
Qed.

End B64Further.

(** * Binary64 numbers as real numbers

    The order of magnitude of what the script computes, for the claims on
    the market-cap weights and on the equal-weight strategy: every
    operation of the normal range is exact up to 2^-52 of its result. *)

Section B64Normal.

Local Open Scope Z_scope.

Lemma Zdigits2_range (m k : Z) :
  0 < m -> 2 ^ (k - 1) <= m < 2 ^ k -> Zdigits2 m = k.
Proof.
  intros Hm (L&U). pose proof (Zdigits2_bounds m Hm) as (B1&B2).
  destruct (Z.lt_trichotomy (Zdigits2 m) k) as [C|[C|C]]; [|exact C|].
  - assert (2 ^ Zdigits2 m <= 2 ^ (k - 1)) by (apply Z.pow_le_mono_r; lia).
    lia.
  - assert (2 ^ k <= 2 ^ (Zdigits2 m - 1)) by (apply Z.pow_le_mono_r; lia).
    lia.
Qed.

(** a mantissa of 53 bits or more, rounded where nothing underflows or
    overflows: one unit in the last place away at most *)
Lemma round_normal (m e : Z) (l : location) :
  let d := Zdigits2 m - 53 in
  2 ^ 52 <= m -> -1074 <= e + d -> e + d + 1 <= 971 ->
  exists p ef,
    binary_round_aux prec emax false m e l = S754_finite false p ef
    /\ e + d <= ef
    /\ m / 2 ^ d <= Z.pos p * 2 ^ (ef - (e + d)) <= m / 2 ^ d + 1
    /\ 2 ^ 52 <= m / 2 ^ d.
Proof.
  intros d Hm Lo Hi.
  assert (0 < m) as Hm0 by lia.
  assert (0 <= m) as Hm1 by lia.
  pose proof (Zdigits2_bounds m Hm0) as (B1&B2).
  assert (53 <= Zdigits2 m) as D53 by (apply (Zdigits2_ge m 52); lia).
  assert (0 <= d) as Hd by (unfold d; lia).
  assert (drop m e = d) as Dm by (unfold drop; rewrite fexp_64; lia).
  destruct (binary_round_aux_spec false m e l Hm1) as (r&(Hr1&Hr2)&E).
  rewrite Dm in *.
  assert (0 < 2 ^ d) as P2 by (apply pow2_pos; lia).
  assert (2 ^ 52 <= m / 2 ^ d < 2 ^ 53) as (Q1&Q2).
  { split.
    - apply Z.div_le_lower_bound; [lia|].
      rewrite <- Z.pow_add_r by lia.
      replace (d + 52) with (Zdigits2 m - 1) by (unfold d; lia). exact B1.
    - apply Z.div_lt_upper_bound; [lia|].
      rewrite <- Z.pow_add_r by lia.
      replace (d + 53) with (Zdigits2 m) by (unfold d; lia). exact B2. }
  assert (0 < r) as Hr0 by lia.
  destruct (Z.eq_dec r (2 ^ 53)) as [R53|R53].
  - assert (Zdigits2 r = 54) as Dr
        by (apply Zdigits2_range; [lia|]; rewrite R53;
            change (54 - 1) with 53; split; [lia|];
            apply Z.pow_lt_mono_r; lia).
    assert (drop r (e + d) = 1) as Dr'
        by (unfold drop; rewrite fexp_64, Dr; lia).
    rewrite Dr' in E. rewrite R53 in E at 1.
    change (2 ^ 53 / 2 ^ 1) with (Z.pos 4503599627370496) in E.
    unfold finish in E.
    destruct (Z.leb_spec (e + d + 1) 971) as [_|]; [|lia].
    exists 4503599627370496%positive, (e + d + 1). split; [exact E|].
    split; [lia|]. split; [|exact Q1].
    replace (e + d + 1 - (e + d)) with 1 by lia.
    change (Z.pos 4503599627370496 * 2 ^ 1) with (2 ^ 53). lia.
  - assert (Zdigits2 r = 53) as Dr
        by (apply Zdigits2_range; [lia|]; change (53 - 1) with 52; lia).
    assert (drop r (e + d) = 0) as Dr'
        by (unfold drop; rewrite fexp_64, Dr; lia).
    rewrite Dr', Z.pow_0_r, Z.div_1_r, Z.add_0_r in E.
    destruct r as [|p|p]; try lia. unfold finish in E.
    destruct (Z.leb_spec (e + d) 971) as [_|]; [|lia].
    exists p, (e + d). split; [exact E|]. split; [lia|].
    split; [|exact Q1].
    rewrite Z.sub_diag, Z.pow_0_r, Z.mul_1_r. lia.
Qed.

(** [binary_round] first scales the mantissa up to 53 bits *)
Lemma binary_round_normal (m : positive) (e : Z) :
  -1074 <= Zdigits2 (Z.pos m) + e - 53 ->
  exists mz ez,
    binary_round prec emax false m e
    = binary_round_aux prec emax false (Z.pos mz) ez loc_Exact
    /\ ez <= e /\ Z.pos mz = Z.pos m * 2 ^ (e - ez)
    /\ 2 ^ 52 <= Z.pos mz.
Proof.
  intros N. unfold binary_round.
  pose proof (shl_align_spec m e (fexp prec emax (Z.pos (digits2_pos m) + e)))
    as (S1&S2).
  destruct (shl_align m e _) as [mz ez]. cbn [fst snd] in S1, S2.
  rewrite <- S1 in S2.
  exists mz, ez. split; [reflexivity|].
  change (Z.pos (digits2_pos m)) with (Zdigits2 (Z.pos m)) in S1.
  rewrite fexp_64 in S1.
  assert (0 < Z.pos m) as Hm by lia.
  pose proof (Zdigits2_bounds (Z.pos m) Hm) as (B1&B2).
  pose proof (Zdigits2_pos (Z.pos m) Hm) as D0.
  split; [lia|]. split; [exact S2|]. rewrite S2.
  destruct (Z.le_gt_cases 53 (Zdigits2 (Z.pos m))) as [C|C].
  - replace ez with e by lia.
    rewrite Z.sub_diag, Z.pow_0_r, Z.mul_1_r.
    assert (2 ^ 52 <= 2 ^ (Zdigits2 (Z.pos m) - 1))
      by (apply Z.pow_le_mono_r; lia). lia.
  - replace (e - ez) with (53 - Zdigits2 (Z.pos m)) by lia.
    replace 52 with ((Zdigits2 (Z.pos m) - 1) + (53 - Zdigits2 (Z.pos m)))
      at 1 by lia.
    rewrite Z.pow_add_r by lia.
    assert (0 < 2 ^ (53 - Zdigits2 (Z.pos m))) by (apply pow2_pos; lia).
    nia.
Qed.

(** the quotient of two 53-bit mantissas, before rounding *)
Lemma SFdiv_core_normal (m1 : positive) (e1 : Z) (m2 : positive) (e2 : Z) :
  2 ^ 52 <= Z.pos m1 < 2 ^ 53 -> 2 ^ 52 <= Z.pos m2 < 2 ^ 53 ->
  -1074 <= e1 - e2 - 53 ->
  exists q l,
    SFdiv_core_binary prec emax (Z.pos m1) e1 (Z.pos m2) e2
    = (q, e1 - e2 - 53, l)
    /\ q = (Z.pos m1 * 2 ^ 53) / Z.pos m2
    /\ 2 ^ 52 <= q.
Proof.
  intros H1 H2 N.
  assert (Zdigits2 (Z.pos m1) = 53) as D1
      by (apply Zdigits2_range; [lia|exact H1]).
  assert (Zdigits2 (Z.pos m2) = 53) as D2
      by (apply Zdigits2_range; [lia|exact H2]).
  unfold SFdiv_core_binary. cbv zeta. rewrite D1, D2, fexp_64.
  replace (Z.min (Z.max (53 + e1 - (53 + e2) - 53) (-1074)) (e1 - e2))
    with (e1 - e2 - 53) by lia.
  replace (e1 - e2 - (e1 - e2 - 53)) with 53 by lia. cbv iota.
  rewrite Z.shiftl_mul_pow2 by lia.
  pose proof (eq_refl ((Z.pos m1 * 2 ^ 53) / Z.pos m2)) as Q.
  unfold Z.div at 1 in Q.
  destruct (Z.div_eucl (Z.pos m1 * 2 ^ 53) (Z.pos m2)) as [q r].
  cbn [fst] in Q. exists q, (new_location (Z.pos m2) r).
  split; [reflexivity|]. split; [exact Q|]. rewrite Q.
  apply Z.div_le_lower_bound; [lia|].
  change (2 ^ 53) with (2 * 2 ^ 52) in *. nia.
Qed.

End B64Normal.

(** ** Binary64 numbers as real numbers *)

Section B64Real.

Import Reals.
Local Open Scope R_scope.

Lemma p2_pos (k : Z) : 0 < powerRZ 2 k.
Proof. apply powerRZ_lt. Lra.lra. Qed.

Lemma p2_add (a b : Z) : powerRZ 2 (a + b) = powerRZ 2 a * powerRZ 2 b.
Proof. apply powerRZ_add. Lra.lra. Qed.

Lemma p2_IZR (k : Z) : (0 <= k)%Z -> IZR (2 ^ k) = powerRZ 2 k.
Proof.
  intros H. rewrite <- (Z2Nat.id k H), <- pow_IZR. apply pow_powerRZ.
Qed.

Lemma p2_ge_1 (k : Z) : (0 <= k)%Z -> 1 <= powerRZ 2 k.
Proof.
  intros H. rewrite <- (p2_IZR k H). apply IZR_le.
  assert (0 < 2 ^ k)%Z by (apply pow2_pos; lia). lia.
Qed.

Lemma p2_le (a b : Z) : (a <= b)%Z -> powerRZ 2 a <= powerRZ 2 b.
Proof.
  intros H. replace b with (a + (b - a))%Z by lia. rewrite p2_add.
  pose proof (p2_pos a). pose proof (p2_ge_1 (b - a) ltac:(lia)). Lra.nra.
Qed.

Lemma p2_lt (a b : Z) : (a < b)%Z -> powerRZ 2 a < powerRZ 2 b.
Proof.
  intros H. replace b with (a + 1 + (b - a - 1))%Z by lia.
  rewrite !p2_add. change (powerRZ 2 1) with (2 * 1).
  pose proof (p2_pos a). pose proof (p2_ge_1 (b - a - 1) ltac:(lia)).
  Lra.nra.
Qed.

Lemma p2_lt_inv (a b : Z) : powerRZ 2 a < powerRZ 2 b -> (a < b)%Z.
Proof.
  intros H. destruct (Z.lt_ge_cases a b) as [C|C]; [exact C|].
  pose proof (p2_le b a C). Lra.lra.
Qed.

Lemma p2_le_inv (a b : Z) : powerRZ 2 a <= powerRZ 2 b -> (a <= b)%Z.
Proof.
  intros H. destruct (Z.le_gt_cases a b) as [C|C]; [exact C|].
  pose proof (p2_lt b a ltac:(lia)). Lra.lra.
Qed.

Lemma val_pos (m e : Z) : (0 < m)%Z -> 0 < val m e.
Proof.
  intros H. unfold val. apply Rmult_lt_0_compat; [|apply p2_pos].
  now apply IZR_lt.
Qed.

Lemma val_le (m n e : Z) : (m <= n)%Z -> val m e <= val n e.
Proof.
  intros H. unfold val. apply Rmult_le_compat_r; [|now apply IZR_le].
  apply Rlt_le, p2_pos.
Qed.

(** the same value at a lower exponent *)
Lemma val_shift (m e k : Z) :
  (0 <= k)%Z -> val (m * 2 ^ k) (e - k) = val m e.
Proof.
  intros H. unfold val. rewrite mult_IZR, (p2_IZR k H).
  replace e with ((e - k) + k)%Z at 2 by lia. rewrite p2_add. ring.
Qed.

(** a number with [d] binary digits *)
Lemma val_digits (m e : Z) :
  (0 < m)%Z ->
  powerRZ 2 (Zdigits2 m - 1 + e) <= val m e < powerRZ 2 (Zdigits2 m + e).
Proof.
  intros H. pose proof (Zdigits2_bounds m H) as (B1&B2).
  pose proof (Zdigits2_pos m H) as D. unfold val. rewrite !p2_add.
  rewrite <- (p2_IZR (Zdigits2 m - 1)), <- (p2_IZR (Zdigits2 m)) by lia.
  pose proof (p2_pos e). split.
  - apply Rmult_le_compat_r; [Lra.lra|now apply IZR_le].
  - apply Rmult_lt_compat_r; [Lra.lra|now apply IZR_lt].
Qed.

(** Rounding in the normal range moves a number by at most [2^-52] of
    itself.  [X] is the number that is rounded: the mantissa [m] at [e] is
    what is left of it when the bits below [e] are cut off. *)
Lemma round_rel (m e : Z) (l : location) (X : R) :
  (2 ^ 52 <= m)%Z -> val m e <= X <= val (m + 1) e ->
  powerRZ 2 (-1021) <= X -> X < powerRZ 2 1023 ->
  exists p ef,
    binary_round_aux prec emax false m e l = S754_finite false p ef
    /\ X * (1 - rnd_error) <= val (Z.pos p) ef <= X * (1 + rnd_error).
Proof.
  intros Hm (X1&X2) Lo Hi.
  assert (0 < m)%Z as Hm0 by lia.
  pose proof (Zdigits2_bounds m Hm0) as (B1&B2).
  pose proof (val_digits m e Hm0) as (V1&V2).
  assert (val (m + 1) e <= powerRZ 2 (Zdigits2 m + e)) as V3.
  { pose proof (Zdigits2_pos m Hm0) as D. unfold val. rewrite p2_add.
    rewrite <- (p2_IZR (Zdigits2 m)) by lia. pose proof (p2_pos e).
    apply Rmult_le_compat_r; [Lra.lra|]. apply IZR_le; lia. }
  assert (-1021 <= Zdigits2 m + e)%Z as N1
      by (apply p2_le_inv; Lra.lra).
  assert (Zdigits2 m - 1 + e < 1023)%Z as N2
      by (apply p2_lt_inv; Lra.lra).
  destruct (round_normal m e l Hm) as (p&ef&E&He&(R1&R2)&Q); try lia.
  exists p, ef. split; [exact E|].
  set (d := (Zdigits2 m - 53)%Z) in *.
  assert (0 <= d)%Z as Hd.
  { assert (53 <= Zdigits2 m)%Z by (apply (Zdigits2_ge m 52); lia).
    unfold d; lia. }
  assert (0 < 2 ^ d)%Z as P2 by (apply pow2_pos; lia).
  set (f := (m / 2 ^ d)%Z) in *.
  assert (f * 2 ^ d <= m < (f + 1) * 2 ^ d)%Z as (F1&F2).
  { unfold f. pose proof (Z.mul_div_le m (2 ^ d) P2).
    pose proof (Z.mul_succ_div_gt m (2 ^ d) P2). lia. }
  assert (val (Z.pos p) ef = val (Z.pos p * 2 ^ (ef - (e + d))) (e + d))
    as Vp.
  { rewrite <- (val_shift (Z.pos p) ef (ef - (e + d))) by lia.
    f_equal. lia. }
  rewrite Vp.
  assert (val m e = val (m * 2 ^ 0) (e + d - d)) as Vm
      by (rewrite Z.pow_0_r, Z.mul_1_r; f_equal; lia).
  assert (val f (e + d) <= X) as L1.
  { apply (Rle_trans _ (val m e)); [|exact X1].
    rewrite <- (val_shift f (e + d) d) by lia.
    replace (e + d - d)%Z with e by lia. now apply val_le. }
  assert (X <= val (f + 1) (e + d)) as L2.
  { apply (Rle_trans _ (val (m + 1) e)); [exact X2|].
    rewrite <- (val_shift (f + 1) (e + d) d) by lia.
    replace (e + d - d)%Z with e by lia. apply val_le. lia. }
  pose proof (val_le _ _ (e + d) R1) as L3.
  pose proof (val_le _ _ (e + d) R2) as L4.
  pose proof (val_le _ _ (e + d) Q) as L5.
  set (r := (Z.pos p * 2 ^ (ef - (e + d)))%Z) in *.
  unfold val in *. rewrite plus_IZR in *.
  rewrite (p2_IZR 52) in L5 by lia.
  pose proof (p2_pos (e + d)) as Pe.
  assert (powerRZ 2 (-52) * powerRZ 2 52 = 1) as U
      by (rewrite <- p2_add; reflexivity).
  assert (powerRZ 2 (e + d) <= powerRZ 2 (-52) * X) as L6.
  { apply (Rle_trans _ (powerRZ 2 (-52) * (powerRZ 2 52 * powerRZ 2 (e + d)))).
    - rewrite <- Rmult_assoc, U. Lra.lra.
    - apply Rmult_le_compat_l; [apply Rlt_le, p2_pos|]. Lra.lra. }
  unfold rnd_error. split; Lra.lra.
Qed.

Lemma SF2R_pos (x : spec_float) :
  0 < SF2R x -> exists m e, x = S754_finite false m e.
Proof.
  destruct x as [s|s| |[] m e]; simpl; intros H; try Lra.lra; eauto.
  pose proof (val_pos (Z.pos m) e ltac:(lia)). Lra.lra.
Qed.

Lemma val_mul (a b e1 e2 : Z) :
  val (a * b) (e1 + e2) = val a e1 * val b e2.
Proof. unfold val. rewrite mult_IZR, p2_add. ring. Qed.

Lemma val_add (a b e : Z) : val (a + b) e = val a e + val b e.
Proof. unfold val. rewrite plus_IZR. ring. Qed.

Lemma val_sub (a b e : Z) : val (a - b) e = val a e - val b e.
Proof. unfold val. rewrite minus_IZR. ring. Qed.

(** a number of the normal range has a mantissa of 53 bits *)
Lemma normal_mantissa (m : positive) (e : Z) :
  valid_binary (S754_finite false m e) = true ->
  powerRZ 2 (-1021) <= val (Z.pos m) e ->
  (2 ^ 52 <= Z.pos m < 2 ^ 53)%Z.
Proof.
  intros V L. destruct (valid_mantissa _ _ _ V) as (E&B&N).
  split; [|exact B]. apply N.
  destruct (Z.eq_dec e (-1074)) as [->|]; [exfalso|lia].
  assert (val (Z.pos m) (-1074) < val (2 ^ 53) (-1074)) as C.
  { unfold val. apply Rmult_lt_compat_r; [apply p2_pos|now apply IZR_lt]. }
  unfold val at 2 in C. rewrite (p2_IZR 53), <- p2_add in C by lia.
  change (53 + -1074)%Z with (-1021)%Z in C. Lra.lra.
Qed.

Lemma SFmul_rel (x y : spec_float) :
  valid_binary x = true -> valid_binary y = true ->
  powerRZ 2 (-1021) <= SF2R x -> powerRZ 2 (-1021) <= SF2R y ->
  powerRZ 2 (-1021) <= SF2R x * SF2R y -> SF2R x * SF2R y < powerRZ 2 1023 ->
  SF2R x * SF2R y * (1 - rnd_error) <= SF2R (SF64mul x y)
  <= SF2R x * SF2R y * (1 + rnd_error).
Proof.
  intros Vx Vy Lx Ly Lo Hi. pose proof (p2_pos (-1021)) as P.
  destruct (SF2R_pos x ltac:(Lra.lra)) as (m1&e1&->).
  destruct (SF2R_pos y ltac:(Lra.lra)) as (m2&e2&->).
  cbn [SF2R] in *.
  destruct (normal_mantissa m1 e1 Vx Lx) as (N1&_).
  destruct (normal_mantissa m2 e2 Vy Ly) as (N2&_).
  unfold SF64mul, SFmul. cbn [xorb].
  rewrite <- val_mul in *.
  destruct (round_rel (Z.pos (m1 * m2)) (e1 + e2) loc_Exact
                      (val (Z.pos m1 * Z.pos m2) (e1 + e2)))
    as (p&ef&->&B); try assumption.
  - change (Z.pos (m1 * m2)) with (Z.pos m1 * Z.pos m2)%Z.
    change (2 ^ 52)%Z with 4503599627370496%Z in *. nia.
  - split; [apply Rle_refl|]. apply val_le.
    change (Z.pos (m1 * m2)) with (Z.pos m1 * Z.pos m2)%Z. lia.
Qed.

Lemma SFadd_rel (x y : spec_float) :
  0 < SF2R x -> 0 < SF2R y ->
  powerRZ 2 (-1021) <= SF2R x + SF2R y -> SF2R x + SF2R y < powerRZ 2 1023 ->
  (SF2R x + SF2R y) * (1 - rnd_error) <= SF2R (SF64add x y)
  <= (SF2R x + SF2R y) * (1 + rnd_error).
Proof.
  intros Px Py Lo Hi.
  destruct (SF2R_pos x Px) as (m1&e1&->).
  destruct (SF2R_pos y Py) as (m2&e2&->).
  cbn [SF2R] in *.
  unfold SF64add, SFadd. cbn [cond_Zopp].
  pose proof (shl_align_spec m1 e1 (Z.min e1 e2)) as (_&A1).
  pose proof (shl_align_spec m2 e2 (Z.min e1 e2)) as (_&A2).
  replace (Z.min e1 (Z.min e1 e2)) with (Z.min e1 e2) in A1 by lia.
  replace (Z.min e2 (Z.min e1 e2)) with (Z.min e1 e2) in A2 by lia.
  set (a1 := fst (shl_align m1 e1 (Z.min e1 e2))) in *.
  set (a2 := fst (shl_align m2 e2 (Z.min e1 e2))) in *.
  set (ez := Z.min e1 e2) in *.
  change (Z.pos a1 + Z.pos a2)%Z with (Z.pos (a1 + a2)).
  unfold binary_normalize.
  assert (val (Z.pos (a1 + a2)) ez = val (Z.pos m1) e1 + val (Z.pos m2) e2)
    as E.
  { change (Z.pos (a1 + a2)) with (Z.pos a1 + Z.pos a2)%Z.
    rewrite val_add, A1, A2.
    rewrite <- (val_shift (Z.pos m1) e1 (e1 - ez)) by (unfold ez; lia).
    rewrite <- (val_shift (Z.pos m2) e2 (e2 - ez)) by (unfold ez; lia).
    f_equal; f_equal; lia. }
  rewrite <- E in *.
  pose proof (val_digits (Z.pos (a1 + a2)) ez ltac:(lia)) as (_&D).
  destruct (binary_round_normal (a1 + a2) ez) as (mz&ez'&->&He&Hm&N).
  { assert (-1021 < Zdigits2 (Z.pos (a1 + a2)) + ez)%Z
      by (apply p2_lt_inv; Lra.lra). lia. }
  assert (val (Z.pos mz) ez' = val (Z.pos (a1 + a2)) ez) as E'.
  { rewrite Hm. rewrite <- (val_shift (Z.pos (a1 + a2)) ez (ez - ez')) by lia.
    f_equal. lia. }
  destruct (round_rel (Z.pos mz) ez' loc_Exact (val (Z.pos (a1 + a2)) ez))
    as (p&ef&->&B); try assumption.
  rewrite <- E'. split; [apply Rle_refl|]. apply val_le. lia.
Qed.

Lemma SFsub_rel (x y : spec_float) :
  0 < SF2R x -> 0 < SF2R y ->
  powerRZ 2 (-1021) <= SF2R x - SF2R y -> SF2R x - SF2R y < powerRZ 2 1023 ->
  (SF2R x - SF2R y) * (1 - rnd_error) <= SF2R (SF64sub x y)
  <= (SF2R x - SF2R y) * (1 + rnd_error).
Proof.
  intros Px Py Lo Hi.
  destruct (SF2R_pos x Px) as (m1&e1&->).
  destruct (SF2R_pos y Py) as (m2&e2&->).
  cbn [SF2R] in *.
  unfold SF64sub, SFsub. cbn [cond_Zopp].
  pose proof (shl_align_spec m1 e1 (Z.min e1 e2)) as (_&A1).
  pose proof (shl_align_spec m2 e2 (Z.min e1 e2)) as (_&A2).
  replace (Z.min e1 (Z.min e1 e2)) with (Z.min e1 e2) in A1 by lia.
  replace (Z.min e2 (Z.min e1 e2)) with (Z.min e1 e2) in A2 by lia.
  set (a1 := fst (shl_align m1 e1 (Z.min e1 e2))) in *.
  set (a2 := fst (shl_align m2 e2 (Z.min e1 e2))) in *.
  set (ez := Z.min e1 e2) in *.
  assert (val (Z.pos a1 - Z.pos a2) ez
          = val (Z.pos m1) e1 - val (Z.pos m2) e2) as E.
  { rewrite val_sub, A1, A2.
    rewrite <- (val_shift (Z.pos m1) e1 (e1 - ez)) by (unfold ez; lia).
    rewrite <- (val_shift (Z.pos m2) e2 (e2 - ez)) by (unfold ez; lia).
    f_equal; f_equal; lia. }
  rewrite <- E in *. pose proof (p2_pos (-1021)) as P.
  destruct (Z.pos a1 - Z.pos a2)%Z as [|d|d] eqn:D.
  - exfalso. unfold val in Lo. Lra.lra.
  - unfold binary_normalize.
    pose proof (val_digits (Z.pos d) ez ltac:(lia)) as (_&Dg).
    destruct (binary_round_normal d ez) as (mz&ez'&->&He&Hm&N).
    { assert (-1021 < Zdigits2 (Z.pos d) + ez)%Z
        by (apply p2_lt_inv; Lra.lra). lia. }
    assert (val (Z.pos mz) ez' = val (Z.pos d) ez) as E'.
    { rewrite Hm. rewrite <- (val_shift (Z.pos d) ez (ez - ez')) by lia.
      f_equal. lia. }
    destruct (round_rel (Z.pos mz) ez' loc_Exact (val (Z.pos d) ez))
      as (p&ef&->&B); try assumption.
    rewrite <- E'. split; [apply Rle_refl|]. apply val_le. lia.
  - exfalso. pose proof (val_pos (Z.pos d) ez ltac:(lia)) as Q.
    unfold val in Lo, Q. change (Z.neg d) with (- Z.pos d)%Z in Lo.
    rewrite opp_IZR in Lo. Lra.lra.
Qed.

Lemma SFdiv_rel (x y : spec_float) :
  valid_binary x = true -> valid_binary y = true ->
  powerRZ 2 (-1021) <= SF2R x -> powerRZ 2 (-1021) <= SF2R y ->
  powerRZ 2 (-1021) <= SF2R x / SF2R y -> SF2R x / SF2R y < powerRZ 2 1023 ->
  SF2R x / SF2R y * (1 - rnd_error) <= SF2R (SF64div x y)
  <= SF2R x / SF2R y * (1 + rnd_error).
Proof.
  intros Vx Vy Lx Ly Lo Hi. pose proof (p2_pos (-1021)) as P.
  destruct (SF2R_pos x ltac:(Lra.lra)) as (m1&e1&->).
  destruct (SF2R_pos y ltac:(Lra.lra)) as (m2&e2&->).
  cbn [SF2R] in *.
  destruct (normal_mantissa m1 e1 Vx Lx) as (N1&M1).
  destruct (normal_mantissa m2 e2 Vy Ly) as (N2&M2).
  assert (val (Z.pos m1) e1 / val (Z.pos m2) e2
          = IZR (Z.pos m1) / IZR (Z.pos m2) * powerRZ 2 (e1 - e2)) as E.
  { unfold val. replace e1 with ((e1 - e2) + e2)%Z at 1 by lia.
    rewrite p2_add. pose proof (p2_pos e2).
    assert (0 < IZR (Z.pos m2)) by (apply IZR_lt; lia).
    field. split; Lra.lra. }
  assert (0 < IZR (Z.pos m2)) as P2 by (apply IZR_lt; lia).
  assert (IZR (Z.pos m1) / IZR (Z.pos m2) < 2) as Q2.
  { apply (Rmult_lt_reg_r (IZR (Z.pos m2))); [exact P2|].
    unfold Rdiv. rewrite Rmult_assoc, Rinv_l, Rmult_1_r by Lra.lra.
    rewrite <- mult_IZR. apply IZR_lt.
    change (2 ^ 53)%Z with (2 * 2 ^ 52)%Z in M1. lia. }
  assert (-1074 <= e1 - e2 - 53)%Z as N.
  { assert (-1021 < e1 - e2 + 1)%Z; [|lia]. apply p2_lt_inv.
    rewrite p2_add. change (powerRZ 2 1) with (2 * 1).
    pose proof (p2_pos (e1 - e2)). rewrite E in Lo. Lra.nra. }
  unfold SF64div, SFdiv. cbn [xorb].
  destruct (SFdiv_core_normal m1 e1 m2 e2) as (q&l&->&Hq&Q52);
    try (split; assumption); try assumption.
  assert (q * Z.pos m2 <= Z.pos m1 * 2 ^ 53 < (q + 1) * Z.pos m2)%Z
    as (D1&D2).
  { rewrite Hq.
    pose proof (Z.mul_div_le (Z.pos m1 * 2 ^ 53) (Z.pos m2) ltac:(lia)).
    pose proof (Z.mul_succ_div_gt (Z.pos m1 * 2 ^ 53) (Z.pos m2) ltac:(lia)).
    lia. }
  assert (IZR q <= IZR (Z.pos m1) / IZR (Z.pos m2) * powerRZ 2 53
          <= IZR (q + 1)) as (R1&R2).
  { apply IZR_le in D1. apply IZR_lt in D2.
    rewrite !mult_IZR, (p2_IZR 53) in * by lia.
    split.
    - apply (Rmult_le_reg_r (IZR (Z.pos m2))); [exact P2|].
      replace (IZR (Z.pos m1) / IZR (Z.pos m2) * powerRZ 2 53 * IZR (Z.pos m2))
        with (IZR (Z.pos m1) * powerRZ 2 53) by (field; Lra.lra).
      exact D1.
    - apply (Rmult_le_reg_r (IZR (Z.pos m2))); [exact P2|].
      replace (IZR (Z.pos m1) / IZR (Z.pos m2) * powerRZ 2 53 * IZR (Z.pos m2))
        with (IZR (Z.pos m1) * powerRZ 2 53) by (field; Lra.lra).
      Lra.lra. }
  assert (powerRZ 2 (e1 - e2) = powerRZ 2 53 * powerRZ 2 (e1 - e2 - 53)) as S
      by (rewrite <- p2_add; f_equal; lia).
  destruct (round_rel q (e1 - e2 - 53) l
                      (val (Z.pos m1) e1 / val (Z.pos m2) e2))
    as (p&ef&->&B); try assumption.
  - rewrite E, S. unfold val. pose proof (p2_pos (e1 - e2 - 53)).
    split.
    + replace (IZR (Z.pos m1) / IZR (Z.pos m2)
               * (powerRZ 2 53 * powerRZ 2 (e1 - e2 - 53)))
        with (IZR (Z.pos m1) / IZR (Z.pos m2) * powerRZ 2 53
              * powerRZ 2 (e1 - e2 - 53)) by ring.
      now apply Rmult_le_compat_r; [Lra.lra|].
    + replace (IZR (Z.pos m1) / IZR (Z.pos m2)
               * (powerRZ 2 53 * powerRZ 2 (e1 - e2 - 53)))
        with (IZR (Z.pos m1) / IZR (Z.pos m2) * powerRZ 2 53
              * powerRZ 2 (e1 - e2 - 53)) by ring.
      now apply Rmult_le_compat_r; [Lra.lra|].
Qed.

(** *** The order of the numbers is the order of their values *)

Lemma val_lower_exponent (m1 : positive) (e1 : Z) (m2 : positive) (e2 : Z) :
  valid_binary (S754_finite false m1 e1) = true ->
  valid_binary (S754_finite false m2 e2) = true ->
  (e1 < e2)%Z -> val (Z.pos m1) e1 < val (Z.pos m2) e2.
Proof.
  intros V1 V2 H.
  destruct (valid_mantissa _ _ _ V1) as (E1&B1&_).
  destruct (valid_mantissa _ _ _ V2) as (_&_&N2).
  specialize (N2 ltac:(lia)).
  apply (Rlt_le_trans _ (val (2 ^ 53) e1)).
  - unfold val. apply Rmult_lt_compat_r; [apply p2_pos|now apply IZR_lt].
  - apply (Rle_trans _ (val (2 ^ 52) e2)); [|now apply val_le].
    unfold val. rewrite (p2_IZR 53), (p2_IZR 52), <- !p2_add by lia.
    apply p2_le. lia.
Qed.

Lemma val_le_inv (m n e : Z) : val m e <= val n e -> (m <= n)%Z.
Proof.
  unfold val. intros H. apply le_IZR.
  apply (Rmult_le_reg_r (powerRZ 2 e)); [apply p2_pos|exact H].
Qed.

Lemma val_lt_inv (m n e : Z) : val m e < val n e -> (m < n)%Z.
Proof.
  unfold val. intros H. apply lt_IZR.
  apply (Rmult_lt_reg_r (powerRZ 2 e)); [apply p2_pos|exact H].
Qed.

Lemma SFltb_finite (m1 : positive) (e1 : Z) (m2 : positive) (e2 : Z) :
  (e1 < e2 \/ (e2 = e1 /\ Z.pos m1 < Z.pos m2))%Z ->
  SFltb (S754_finite false m1 e1) (S754_finite false m2 e2) = true.
Proof.
  unfold SFltb; simpl. change (Pos.compare_cont Eq) with Pos.compare.
  intros [H|(->&H)].
  - apply Z.compare_lt_iff in H. now rewrite H.
  - rewrite Z.compare_refl.
    destruct (Pos.compare_spec m1 m2); try reflexivity; lia.
Qed.

Lemma SFleb_val (x y : spec_float) :
  valid_binary x = true -> valid_binary y = true ->
  0 < SF2R x -> 0 < SF2R y -> SFleb x y = true -> SF2R x <= SF2R y.
Proof.
  intros Vx Vy Px Py L.
  destruct (SF2R_pos x Px) as (m1&e1&->).
  destruct (SF2R_pos y Py) as (m2&e2&->). cbn [SF2R].
  apply SFleb_finite_inv in L. destruct L as [L|(->&L)].
  - apply Rlt_le. now apply val_lower_exponent.
  - now apply val_le.
Qed.

Lemma val_SFleb (x y : spec_float) :
  valid_binary x = true -> valid_binary y = true ->
  0 < SF2R x -> 0 < SF2R y -> SF2R x <= SF2R y -> SFleb x y = true.
Proof.
  intros Vx Vy Px Py L.
  destruct (SF2R_pos x Px) as (m1&e1&->).
  destruct (SF2R_pos y Py) as (m2&e2&->). cbn [SF2R] in *.
  apply SFleb_finite.
  destruct (Z.lt_trichotomy e1 e2) as [C|[C|C]]; [now left| |exfalso].
  - right. subst e2. split; [reflexivity|]. now apply (val_le_inv _ _ e1).
  - pose proof (val_lower_exponent m2 e2 m1 e1 Vy Vx C). Lra.lra.
Qed.

Lemma val_SFltb (x y : spec_float) :
  valid_binary x = true -> valid_binary y = true ->
  0 < SF2R x -> 0 < SF2R y -> SF2R x < SF2R y -> SFltb x y = true.
Proof.
  intros Vx Vy Px Py L.
  destruct (SF2R_pos x Px) as (m1&e1&->).
  destruct (SF2R_pos y Py) as (m2&e2&->). cbn [SF2R] in *.
  apply SFltb_finite.
  destruct (Z.lt_trichotomy e1 e2) as [C|[C|C]]; [now left| |exfalso].
  - right. subst e2. split; [reflexivity|]. now apply (val_lt_inv _ _ e1).
  - pose proof (val_lower_exponent m2 e2 m1 e1 Vy Vx C). Lra.lra.
Qed.

(** *** The operations of the script on real values *)

Local Open Scope float_scope.

Lemma b64_mul_rel (a b : float) :
  (powerRZ 2 (-1021) <= B2R a)%R -> (powerRZ 2 (-1021) <= B2R b)%R ->
  (powerRZ 2 (-1021) <= B2R a * B2R b)%R ->
  (B2R a * B2R b < powerRZ 2 1023)%R ->
  rounds (a * b) (B2R a * B2R b).
Proof.
  intros. unfold rounds, B2R. rewrite mul_spec.
  apply SFmul_rel; auto using Prim2SF_valid.
Qed.

Lemma b64_div_rel (a b : float) :
  (powerRZ 2 (-1021) <= B2R a)%R -> (powerRZ 2 (-1021) <= B2R b)%R ->
  (powerRZ 2 (-1021) <= B2R a / B2R b)%R ->
  (B2R a / B2R b < powerRZ 2 1023)%R ->
  rounds (a / b) (B2R a / B2R b).
Proof.
  intros. unfold rounds, B2R. rewrite div_spec.
  apply SFdiv_rel; auto using Prim2SF_valid.
Qed.

Lemma b64_add_rel (a b : float) :
  (0 < B2R a)%R -> (0 < B2R b)%R ->
  (powerRZ 2 (-1021) <= B2R a + B2R b)%R ->
  (B2R a + B2R b < powerRZ 2 1023)%R ->
  rounds (a + b) (B2R a + B2R b).
Proof.
  intros. unfold rounds, B2R. rewrite add_spec.
  now apply SFadd_rel.
Qed.

Lemma b64_sub_rel (a b : float) :
  (0 < B2R a)%R -> (0 < B2R b)%R ->
  (powerRZ 2 (-1021) <= B2R a - B2R b)%R ->
  (B2R a - B2R b < powerRZ 2 1023)%R ->
  rounds (a - b) (B2R a - B2R b).
Proof.
  intros. unfold rounds, B2R. rewrite sub_spec.
  now apply SFsub_rel.
Qed.

Lemma b64_leb_R (a b : float) :
  (0 < B2R a)%R -> (0 < B2R b)%R -> (a <=? b) = true -> (B2R a <= B2R b)%R.
Proof.
  intros Pa Pb L. rewrite FloatAxioms.leb_spec in L.
  apply SFleb_val; auto using Prim2SF_valid.
Qed.

Lemma b64_R_leb (a b : float) :
  (0 < B2R a)%R -> (0 < B2R b)%R -> (B2R a <= B2R b)%R -> (a <=? b) = true.
Proof.
  intros Pa Pb L. rewrite FloatAxioms.leb_spec.
  apply val_SFleb; auto using Prim2SF_valid.
Qed.

Lemma b64_R_ltb (a b : float) :
  (0 < B2R a)%R -> (0 < B2R b)%R -> (B2R a < B2R b)%R -> (a <? b) = true.
Proof.
  intros Pa Pb L. rewrite FloatAxioms.ltb_spec.
  apply val_SFltb; auto using Prim2SF_valid.
Qed.

Lemma b64_R_positive (a : float) : (0 < B2R a)%R -> (0 <? a) = true.
Proof.
  intros P. rewrite FloatAxioms.ltb_spec.
  destruct (SF2R_pos _ P) as (m&e&->). reflexivity.
Qed.

(** a number between two positive numbers is a positive number *)
Lemma b64_between (lo p hi : float) :
  (0 < B2R lo)%R -> (0 < B2R hi)%R ->
  (lo <=? p) = true -> (p <=? hi) = true ->
  (B2R lo <= B2R p <= B2R hi)%R.
Proof.
  intros Pl Ph L1 L2.
  assert (0 < B2R p)%R as Pp.
  { unfold B2R in *. rewrite FloatAxioms.leb_spec in L1, L2.
    destruct (SF2R_pos _ Pl) as (m1&e1&E1).
    destruct (SF2R_pos _ Ph) as (m2&e2&E2).
    rewrite E1 in L1. rewrite E2 in L2.
    destruct (Prim2SF p) as [s|[]| |[] m e]; try discriminate.
    apply val_pos. lia. }
  split; now apply b64_leb_R.
Qed.

(** *** Bounds in numbers *)

Lemma p2_num_pos (p : positive) : powerRZ 2 (Z.pos p) = IZR (2 ^ Z.pos p).
Proof. symmetry. apply p2_IZR. lia. Qed.

Lemma p2_num_neg (p : positive) :
  powerRZ 2 (Z.neg p) = (/ IZR (2 ^ Z.pos p))%R.
Proof.
  change (Z.neg p) with (- Z.pos p)%Z.
  rewrite powerRZ_neg', p2_num_pos. reflexivity.
Qed.

End B64Real.

Ltac p2num :=
  unfold rnd_error in *;
  repeat match goal with
         | |- context [Rfunctions.powerRZ _ (Z.pos ?p)] =>
             rewrite (p2_num_pos p)
         | |- context [Rfunctions.powerRZ _ (Z.neg ?p)] =>
             rewrite (p2_num_neg p)
         | H : context [Rfunctions.powerRZ _ (Z.pos ?p)] |- _ =>
             rewrite (p2_num_pos p) in H
         | H : context [Rfunctions.powerRZ _ (Z.neg ?p)] |- _ =>
             rewrite (p2_num_neg p) in H
         end;
  repeat match goal with
         | |- context [Z.pow 2 (Z.pos ?p)] =>
             let v := eval vm_compute in (Z.pow 2 (Z.pos p)) in
             change (Z.pow 2 (Z.pos p)) with v
         | H : context [Z.pow 2 (Z.pos ?p)] |- _ =>
             let v := eval vm_compute in (Z.pow 2 (Z.pos p)) in
             change (Z.pow 2 (Z.pos p)) with v in H
         end.

Section B64Interior.

Import Reals.
Local Open Scope float_scope.

Lemma B2R_lit (a : float) (m : positive) (e : Z) :
  Prim2SF a = S754_finite false m e -> B2R a = val (Z.pos m) e.
Proof. intros H. unfold B2R. now rewrite H. Qed.

Lemma div_between (a b lo hi : R) :
  (0 < b)%R -> (lo * b <= a <= hi * b)%R -> (lo <= a / b <= hi)%R.
Proof.
  intros Hb (H1&H2). unfold Rdiv. split.
  - apply (Rmult_le_reg_r b); [exact Hb|].
    rewrite Rmult_assoc, Rinv_l, Rmult_1_r by Lra.lra. exact H1.
  - apply (Rmult_le_reg_r b); [exact Hb|].
    rewrite Rmult_assoc, Rinv_l, Rmult_1_r by Lra.lra. exact H2.
Qed.

(** the values of the constants *)
Lemma B2R_1 : B2R 1 = 1%R.
Proof.
  rewrite (B2R_lit 1 4503599627370496 (-52) eq_refl).
  unfold val. p2num. Lra.lra.
Qed.

Lemma B2R_500 : B2R 500 = 500%R.
Proof.
  rewrite (B2R_lit 500 8796093022208000 (-44) eq_refl).
  unfold val. p2num. Lra.lra.
Qed.

Lemma B2R_supply_ratio : (6 <= B2R 0x1.85d903e602995p+2 <= 7)%R.
Proof.
  rewrite (B2R_lit 0x1.85d903e602995p+2 6858273544219029 (-50) eq_refl).
  unfold val. p2num. split; Lra.lra.
Qed.

Lemma in_range_R (p : float) :
  in_range p = true -> (powerRZ 2 (-900) <= B2R p <= powerRZ 2 900)%R.
Proof.
  unfold in_range. rewrite andb_true_iff. intros (L1&L2).
  assert (B2R 0x1p-900 = powerRZ 2 (-900)) as E1.
  { rewrite (B2R_lit 0x1p-900 4503599627370496 (-952) eq_refl).
    unfold val. p2num. Lra.lra. }
  assert (B2R 0x1p900 = powerRZ 2 900) as E2.
  { rewrite (B2R_lit 0x1p900 4503599627370496 848 eq_refl).
    unfold val. p2num. Lra.lra. }
  rewrite <- E1, <- E2. apply b64_between; try assumption.
  - rewrite E1. apply p2_pos.
  - rewrite E2. apply p2_pos.
Qed.

(** [b] is at most [2^40] times [a] *)
Lemma within_R (a b : float) :
  in_range a = true -> in_range b = true ->
  (b <=? 0x1p40 * a) = true ->
  (B2R b <= powerRZ 2 41 * B2R a)%R.
Proof.
  intros Ma Mb L. apply in_range_R in Ma, Mb.
  assert (B2R 0x1p40 = powerRZ 2 40) as E.
  { rewrite (B2R_lit 0x1p40 4503599627370496 (-12) eq_refl).
    unfold val. p2num. Lra.lra. }
  assert (rounds (0x1p40 * a) (B2R 0x1p40 * B2R a)) as Rd.
  { apply b64_mul_rel; rewrite ?E; p2num; Lra.lra. }
  unfold rounds in Rd. rewrite E in Rd.
  assert (B2R b <= B2R (0x1p40 * a))%R as Lr.
  { apply b64_leb_R; [| |exact L]; p2num; Lra.lra. }
  p2num. Lra.lra.
Qed.

Lemma b64_mc_weights_interior (p_btc p_eth : float) :
  in_range p_btc = true -> in_range p_eth = true ->
  comparable p_btc p_eth = true ->
  let w := mc_weights p_btc p_eth in
  ((0 <? fst w) = true /\ (fst w <? 1) = true)
  /\ ((0 <? snd w) = true /\ (snd w <? 1) = true)
  /\ (0 <? monthly_budget * fst w / p_btc) = true
  /\ (0 <? monthly_budget * snd w / p_eth) = true.
Proof.
  intros Mb Me L. unfold comparable in L.
  apply andb_true_iff in L as (L1&L2).
  pose proof (within_R p_btc p_eth Mb Me L1) as Re.
  pose proof (within_R p_eth p_btc Me Mb L2) as Rb.
  apply in_range_R in Mb, Me.
  unfold mc_weights. cbn [fst snd].
  rewrite b64_budget, b64_one, b64_supply_ratio. b64_arith.
  pose proof B2R_supply_ratio as Hs. pose proof B2R_1 as H1.
  pose proof B2R_500 as H500.
  set (pb := B2R p_btc) in *. set (pe := B2R p_eth) in *.
  (* p_eth * supply_ratio *)
  assert (rounds (p_eth * 0x1.85d903e602995p+2)
                 (pe * B2R 0x1.85d903e602995p+2)) as R1.
  { assert (pe * 6 <= pe * B2R 0x1.85d903e602995p+2 <= pe * 7)%R
      by (split; apply Rmult_le_compat_l; p2num; Lra.lra).
    apply b64_mul_rel; fold pe; p2num; Lra.lra. }
  assert (pe * 5 <= B2R (p_eth * 0x1.85d903e602995p+2) <= pe * 8)%R as B1.
  { assert (pe * 6 <= pe * B2R 0x1.85d903e602995p+2 <= pe * 7)%R
      by (split; apply Rmult_le_compat_l; p2num; Lra.lra).
    unfold rounds in R1. p2num. Lra.lra. }
  set (a1 := p_eth * 0x1.85d903e602995p+2) in *.
  (* mc_ratio *)
  assert (powerRZ 2 (-40) <= B2R a1 / pb <= powerRZ 2 44)%R as X2.
  { apply div_between; p2num; Lra.lra. }
  assert (rounds (a1 / p_btc) (B2R a1 / pb)) as R2
      by (apply b64_div_rel; fold pb; p2num; Lra.lra).
  set (mc_ratio := a1 / p_btc) in *.
  assert (powerRZ 2 (-41) <= B2R mc_ratio <= powerRZ 2 45)%R as B2
      by (unfold rounds in R2; p2num; Lra.lra).
  (* 1 + mc_ratio *)
  assert (rounds (1 + mc_ratio) (B2R 1 + B2R mc_ratio)) as R3
      by (apply b64_add_rel; rewrite ?H1; p2num; Lra.lra).
  rewrite H1 in R3.
  assert (1 + powerRZ 2 (-42) <= B2R (1 + mc_ratio) <= powerRZ 2 46)%R as B3
      by (unfold rounds in R3; p2num; Lra.lra).
  set (y := 1 + mc_ratio) in *.
  (* w_btc *)
  assert (powerRZ 2 (-46) <= B2R 1 / B2R y <= 1 - powerRZ 2 (-43))%R
    as X4.
  { rewrite H1. apply div_between; p2num; Lra.lra. }
  assert (rounds (1 / y) (B2R 1 / B2R y)) as R4
      by (apply b64_div_rel; p2num; Lra.lra).
  set (w_btc := 1 / y) in *.
  assert (powerRZ 2 (-47) <= B2R w_btc <= 1 - powerRZ 2 (-44))%R as B4
      by (unfold rounds in R4; p2num; Lra.lra).
  (* w_eth *)
  assert (rounds (1 - w_btc) (B2R 1 - B2R w_btc)) as R5
      by (apply b64_sub_rel; rewrite ?H1; p2num; Lra.lra).
  rewrite H1 in R5.
  set (w_eth := 1 - w_btc) in *.
  assert (powerRZ 2 (-45) <= B2R w_eth <= 1 - powerRZ 2 (-48))%R as B5
      by (unfold rounds in R5; p2num; Lra.lra).
  (* what is bought *)
  assert (forall w p : float,
             (powerRZ 2 (-48) <= B2R w <= 1)%R ->
             (powerRZ 2 (-900) <= B2R p <= powerRZ 2 900)%R ->
             (0 < B2R (500 * w / p))%R) as Buy.
  { intros w p Bw Bp.
    assert (rounds (500 * w) (B2R 500 * B2R w)) as Q1
        by (apply b64_mul_rel; rewrite ?H500; p2num; Lra.lra).
    rewrite H500 in Q1.
    assert (powerRZ 2 (-48) <= B2R (500 * w) <= 501)%R as C1
        by (unfold rounds in Q1; p2num; Lra.lra).
    assert (powerRZ 2 (-948) <= B2R (500 * w) / B2R p <= powerRZ 2 909)%R
      as C2 by (apply div_between; p2num; Lra.lra).
    assert (rounds (500 * w / p) (B2R (500 * w) / B2R p)) as Q2
        by (apply b64_div_rel; p2num; Lra.lra).
    unfold rounds in Q2. p2num. Lra.lra. }
  repeat split.
  - apply b64_R_positive. p2num. Lra.lra.
  - apply b64_R_ltb; rewrite ?H1; p2num; Lra.lra.
  - apply b64_R_positive. p2num. Lra.lra.
  - apply b64_R_ltb; rewrite ?H1; p2num; Lra.lra.
  - apply b64_R_positive. apply Buy; [|exact Mb]. p2num. Lra.lra.
  - apply b64_R_positive. apply Buy; [|exact Me]. p2num. Lra.lra.
Qed.

End B64Interior.

(** ** The market-cap weights *)

Section MarketCapWeights.

(** C10, as amended.  For two valid prices the market-cap weights computed
    in binary64 lie between 0 and 1, both ends included, and no negative
    quantity is bought; when the prices are between 2^-900 and 2^900 and
    neither is more than 2^40 times the other, the weights lie strictly
    between 0 and 1 and a strictly positive quantity of each asset is
    bought. *)
Theorem market_cap_weights_bounds :
  (forall p_btc p_eth : float,
      valid_price p_btc = true -> valid_price p_eth = true ->
      (nonneg (fst (mc_weights p_btc p_eth)) = true
       /\ PrimFloat.leb (fst (mc_weights p_btc p_eth)) 1 = true)
      /\ (nonneg (snd (mc_weights p_btc p_eth)) = true
          /\ PrimFloat.leb (snd (mc_weights p_btc p_eth)) 1 = true)
      /\ nonneg (div (mul monthly_budget (fst (mc_weights p_btc p_eth)))
                     p_btc) = true
      /\ nonneg (div (mul monthly_budget (snd (mc_weights p_btc p_eth)))
                     p_eth) = true)
  /\ (forall p_btc p_eth : float,
        in_range p_btc = true -> in_range p_eth = true ->
        comparable p_btc p_eth = true ->
        (PrimFloat.ltb 0 (fst (mc_weights p_btc p_eth)) = true
         /\ PrimFloat.ltb (fst (mc_weights p_btc p_eth)) 1 = true)
        /\ (PrimFloat.ltb 0 (snd (mc_weights p_btc p_eth)) = true
            /\ PrimFloat.ltb (snd (mc_weights p_btc p_eth)) 1 = true)
        /\ PrimFloat.ltb 0 (div (mul monthly_budget
                                     (fst (mc_weights p_btc p_eth)))
                                p_btc) = true
        /\ PrimFloat.ltb 0 (div (mul monthly_budget
                                     (snd (mc_weights p_btc p_eth)))
                                p_eth) = true).
Proof.
  split.
  - intros p_btc p_eth Vb Ve.
    destruct (b64_mc_weights_unit p_btc p_eth Vb Ve) as ((N1&U1)&(N2&U2)).
    split; [now split|]. split; [now split|].
    split; (apply b64_div_nonneg; [|assumption]);
      (apply b64_mul_nonneg; [reflexivity|assumption]).
  - intros p_btc p_eth Rb Re C.
    exact (b64_mc_weights_interior p_btc p_eth Rb Re C).
Qed.

End MarketCapWeights.

(** ** The equal-weight strategy at a constant price *)

Section ConstantPrice.

Context {num : Type} {A : Arith num}.
Local Open Scope num_scope.

(** at a constant price [P] the equal-weight strategy ends with the same
    quantity [250 / P] added [n] times for either asset, worth that at [P] *)
Lemma constant_price_value (P : num) (n : nat) :
  (1 <= n)%nat ->
  exists st,
    simulate (repeat (P, P) n) = Ok st
    /\ last_item (value st EQ)
       = Ok (total (repeat (eq_quantity P) n) * P
             + total (repeat (eq_quantity P) n) * P).
Proof.
  intros Hn. set (df := repeat (P, P) n).
  assert (length df = n) as Ldf by apply repeat_length.
  destruct (simulate_entry df (n - 1)) as (st&r&before&Hst&Hr&_&Ha&Hv);
    [lia|].
  exists st. split; [exact Hst|].
  destruct (Hv EQ) as (Hlen&Hnth).
  replace (S (n - 1)) with n in Ha by lia.
  destruct (eq_holdings_total df n _ ltac:(lia) Ha) as (Eb&Ee).
  pose proof (reads_at_row _ _ _ Hr) as Hrow.
  apply nth_error_In, repeat_spec in Hrow. injection Hrow as Hpb Hpe.
  assert (length (value st EQ) = S (n - 1)) as Lv by (rewrite Hlen, Ldf; lia).
  rewrite (last_item_nth _ (n - 1) _ Lv Hnth). f_equal.
  rewrite Eb, Ee, Hpb, Hpe.
  unfold btc_prices_of, eth_prices_of, df.
  rewrite !map_repeat. cbn [fst snd].
  rewrite <- (repeat_length P n) at 1 3. now rewrite !firstn_all, !map_repeat.
Qed.

End ConstantPrice.

Section B64Tolerance.

Import Reals.
Local Open Scope float_scope.

Lemma b64_zero_add (q : float) : (0 < B2R q)%R -> 0 + q = q.
Proof.
  intros H. apply Prim2SF_inj. rewrite add_spec.
  destruct (SF2R_pos _ H) as (m&e&->). reflexivity.
Qed.

(** the double nearest to a positive machine integer *)
Lemma b64_of_Z_rel (z : Z) : (1 <= z < 2 ^ 63)%Z -> rounds (of_Z z) (IZR z).
Proof.
  intros H. unfold rounds, B2R. rewrite of_Z_binary by lia.
  destruct z as [|p|p]; try lia. unfold binary_normalize.
  pose proof (Zdigits2_pos (Z.pos p) ltac:(lia)) as D.
  destruct (binary_round_normal p 0) as (mz&ez&->&He&Hm&N); [lia|].
  assert (val (Z.pos mz) ez = IZR (Z.pos p)) as E.
  { rewrite Hm. replace ez with (0 - (0 - ez))%Z at 2 by lia.
    rewrite val_shift by lia. unfold val. simpl powerRZ.
    now rewrite Rmult_1_r. }
  assert (1 <= IZR (Z.pos p) < IZR (2 ^ 63))%R as (B1&B2)
      by (split; [apply IZR_le|apply IZR_lt]; lia).
  destruct (round_rel (Z.pos mz) ez loc_Exact (IZR (Z.pos p)))
    as (q&ef&->&B); try assumption.
  - rewrite <- E. split; [apply Rle_refl|]. apply val_le. lia.
  - p2num. Lra.lra.
  - rewrite (p2_IZR 63) in B2 by lia.
    apply (Rlt_trans _ _ _ B2), p2_lt. lia.
Qed.

Lemma step_up (k : R) :
  (1 <= k -> k <= 1048576 ->
   (k * (1 + 2 * k * rnd_error) + 1) * (1 + rnd_error) <= (k + 1) * (1 + 2 * (k + 1) * rnd_error))%R.
Proof. intros. p2num. Lra.nra. Qed.

Lemma step_down (k : R) :
  (1 <= k -> k <= 1048576 ->
   (k + 1) * (1 - 2 * (k + 1) * rnd_error) <= (k * (1 - 2 * k * rnd_error) + 1) * (1 - rnd_error))%R.
Proof. intros. p2num. Lra.nra. Qed.

Lemma drift_bounds (k : R) :
  (1 <= k -> k <= 1048576 ->
   (/ 2 <= k * (1 - 2 * k * rnd_error) /\ k * (1 + 2 * k * rnd_error) <= 2097152)
   /\ k * (1 - / 2147483648) <= k * (1 - 2 * k * rnd_error)
   /\ k * (1 + 2 * k * rnd_error) <= k * (1 + / 2147483648))%R.
Proof. intros. p2num. repeat split; Lra.nra. Qed.

Lemma total_repeat_S (q : float) (k : nat) :
  total (repeat q (S k)) = total (repeat q k) + q.
Proof.
  cbn [repeat]. rewrite repeat_cons. now rewrite total_snoc.
Qed.

(** the same quantity added [k] times: the drift of the sum grows with
    [k] at most *)
Lemma b64_total_repeat (q : float) (k : nat) :
  (powerRZ 2 (-950) <= B2R q <= powerRZ 2 950)%R ->
  (1 <= k)%nat -> (Z.of_nat k <= 1048576)%Z ->
  (B2R q * (INR k * (1 - 2 * INR k * rnd_error)) <= B2R (total (repeat q k))
   <= B2R q * (INR k * (1 + 2 * INR k * rnd_error)))%R.
Proof.
  intros Hq. induction k as [|k IH]; intros Hk Hm; [lia|].
  assert (0 < B2R q)%R as Pq by (pose proof (p2_pos (-950)); Lra.lra).
  destruct k as [|k].
  - unfold total. cbn [repeat fold_left]. rewrite b64_zero. b64_arith.
    rewrite b64_zero_add by exact Pq. change (INR 1) with 1%R.
    p2num. split; Lra.nra.
  - specialize (IH ltac:(lia) ltac:(lia)). rewrite total_repeat_S.
    set (a := total (repeat q (S k))) in *.
    assert (1 <= INR (S k) <= 1048576)%R as (K1&K2).
    { split.
      - change 1%R with (INR 1). apply le_INR. lia.
      - rewrite INR_IZR_INZ. apply IZR_le. lia. }
    rewrite (S_INR (S k)). set (K := INR (S k)) in *.
    destruct (drift_bounds K K1 K2) as ((C1&C2)&_).
    pose proof (step_up K K1 K2) as Up.
    pose proof (step_down K K1 K2) as Down.
    set (cm := (K * (1 - 2 * K * rnd_error))%R) in *.
    set (cp := (K * (1 + 2 * K * rnd_error))%R) in *.
    assert (B2R q * / 2 <= B2R a <= B2R q * 2097152)%R as (A1&A2).
    { destruct IH as (I1&I2). split.
      - apply (Rle_trans _ (B2R q * cm)); [|exact I1].
        apply Rmult_le_compat_l; Lra.lra.
      - apply (Rle_trans _ (B2R q * cp)); [exact I2|].
        apply Rmult_le_compat_l; Lra.lra. }
    assert (rounds (a + q) (B2R a + B2R q)) as Rd
        by (apply b64_add_rel; p2num; Lra.lra).
    unfold rounds in Rd. destruct IH as (I1&I2). destruct Rd as (D1&D2).
    assert (0 < rnd_error < 1)%R as (U0&U1) by (p2num; Lra.lra).
    split.
    + apply (Rle_trans _ ((B2R q * cm + B2R q) * (1 - rnd_error))).
      * replace ((B2R q * cm + B2R q) * (1 - rnd_error))%R
          with (B2R q * ((cm + 1) * (1 - rnd_error)))%R by ring.
        apply Rmult_le_compat_l; Lra.lra.
      * apply (Rle_trans _ ((B2R a + B2R q) * (1 - rnd_error))); [|exact D1].
        apply Rmult_le_compat_r; Lra.lra.
    + apply (Rle_trans _ ((B2R q * cp + B2R q) * (1 + rnd_error))).
      * apply (Rle_trans _ ((B2R a + B2R q) * (1 + rnd_error))); [exact D2|].
        apply Rmult_le_compat_r; Lra.lra.
      * replace ((B2R q * cp + B2R q) * (1 + rnd_error))%R
          with (B2R q * ((cp + 1) * (1 + rnd_error)))%R by ring.
        apply Rmult_le_compat_l; Lra.lra.
Qed.

Lemma B2R_250 : B2R 250 = 250%R.
Proof.
  rewrite (B2R_lit 250 8796093022208000 (-45) eq_refl).
  unfold val. p2num. Lra.lra.
Qed.

Lemma B2R_tolerance :
  (1 + 1 / 1000000000 <= B2R (1 + tolerance) <= 1 + 2 / 1000000000)%R.
Proof.
  rewrite (B2R_lit (1 + tolerance) 4503599631874096 (-52) eq_refl).
  unfold val. p2num. split; Lra.lra.
Qed.

(** C7, as amended.  With both prices a constant [P] between 2^-900 and
    2^900 in every month, for 1 to 2^20 months, the equal-weight strategy
    ends, in binary64, worth what was invested within the relative
    tolerance 1e-9: the final value and [monthly_budget * n] are each at
    most the other times [1 + 1e-9].  From 12 months on, these are the
    series and the total that the script goes on with. *)
Theorem b64_equal_weight_constant_price (P : float) (n : nat) :
  in_range P = true -> (1 <= n)%nat -> (Z.of_nat n <= 1048576)%Z ->
  exists st v,
    simulate (repeat (P, P) n) = Ok st
    /\ last_item (value st EQ) = Ok v
    /\ close v (total_invested (repeat (P, P) n)) = true
    /\ ((12 <= n)%nat ->
        main (repeat (P, P) n)
        = Ok (st, total_invested (repeat (P, P) n))).
Proof.
  intros HP Hn Hm. apply in_range_R in HP.
  destruct (constant_price_value P n Hn) as (st&Hst&Hv).
  assert ((12 <= n)%nat ->
          main (repeat (P, P) n)
          = Ok (st, total_invested (repeat (P, P) n))) as M.
  { intros H12. unfold main. rewrite repeat_length.
    assert ((n <? 12)%nat = false) as -> by (apply Nat.ltb_ge; lia).
    now rewrite Hst. }
  exists st. eexists. split; [exact Hst|]. split; [exact Hv|].
  split; [|exact M]. clear M.
  unfold total_invested. rewrite repeat_length, b64_budget.
  unfold eq_quantity. rewrite b64_budget, b64_half. b64_arith.
  change (500 * 0.5) with 250.
  pose proof B2R_250 as H250. pose proof B2R_500 as H500.
  pose proof B2R_tolerance as Ht.
  set (Pv := B2R P) in *. set (N := INR n).
  assert (1 <= N <= 1048576)%R as (N1&N2).
  { unfold N. split.
    - change 1%R with (INR 1). now apply le_INR.
    - rewrite INR_IZR_INZ. now apply IZR_le. }
  (* the quantity of a month *)
  assert (powerRZ 2 (-893) <= B2R 250 / Pv <= powerRZ 2 908)%R as X1
      by (rewrite H250; apply div_between; p2num; Lra.lra).
  assert (rounds (250 / P) (B2R 250 / Pv)) as R1
      by (apply b64_div_rel; fold Pv; p2num; Lra.lra).
  set (q := 250 / P) in *. unfold rounds in R1.
  assert (250 * (1 - rnd_error) <= B2R q * Pv <= 250 * (1 + rnd_error))%R as G.
  { assert (B2R 250 / Pv * Pv = 250)%R as E
        by (rewrite H250; field; p2num; Lra.lra).
    assert (0 < Pv)%R by (p2num; Lra.lra).
    destruct R1 as (D1&D2).
    apply (Rmult_le_compat_r Pv) in D1, D2; try Lra.lra.
    replace (B2R 250 / Pv * (1 - rnd_error) * Pv)%R
      with (B2R 250 / Pv * Pv * (1 - rnd_error))%R in D1 by ring.
    replace (B2R 250 / Pv * (1 + rnd_error) * Pv)%R
      with (B2R 250 / Pv * Pv * (1 + rnd_error))%R in D2 by ring.
    rewrite E in D1, D2. split; assumption. }
  (* the holding *)
  assert (powerRZ 2 (-950) <= B2R q <= powerRZ 2 950)%R as Bq
      by (p2num; Lra.lra).
  pose proof (b64_total_repeat q n Bq Hn Hm) as Bh.
  fold N in Bh. destruct (drift_bounds N N1 N2) as ((C1&C2)&C3&C4).
  set (h := total (repeat q n)) in *.
  set (cm := (N * (1 - 2 * N * rnd_error))%R) in *.
  set (cp := (N * (1 + 2 * N * rnd_error))%R) in *.
  (* its worth *)
  assert (250 * (1 - rnd_error) * cm <= B2R h * Pv <= 250 * (1 + rnd_error) * cp)%R as W.
  { assert (0 < Pv)%R by (p2num; Lra.lra).
    assert (0 < rnd_error < 1)%R by (p2num; Lra.lra).
    assert (0 <= cp)%R by (unfold cp; apply Rmult_le_pos; Lra.nra).
    destruct Bh as (I1&I2). destruct G as (G1&G2). split.
    - apply (Rle_trans _ (B2R q * Pv * cm)).
      + apply Rmult_le_compat_r; Lra.lra.
      + replace (B2R q * Pv * cm)%R with (B2R q * cm * Pv)%R by ring.
        apply Rmult_le_compat_r; Lra.lra.
    - apply (Rle_trans _ (B2R q * Pv * cp)).
      + replace (B2R q * Pv * cp)%R with (B2R q * cp * Pv)%R by ring.
        apply Rmult_le_compat_r; Lra.lra.
      + apply Rmult_le_compat_r; Lra.lra. }
  assert (powerRZ 2 (-951) <= B2R h)%R as Bh'.
  { destruct Bh as (I1&_).
    apply (Rle_trans _ (B2R q * / 2)); [p2num; Lra.lra|].
    apply (Rle_trans _ (B2R q * cm)); [|exact I1].
    apply Rmult_le_compat_l; p2num; Lra.lra. }
  assert (rounds (h * P) (B2R h * Pv)) as R2
      by (apply b64_mul_rel; fold Pv; p2num; Lra.lra).
  set (w := h * P) in *.
  assert (rounds (w + w) (B2R w + B2R w)) as R3
      by (unfold rounds in R2; apply b64_add_rel; p2num; Lra.lra).
  set (v := w + w) in *.
  (* what was invested *)
  assert (rounds (of_Z (Z.of_nat n)) N) as R4
      by (unfold N; rewrite INR_IZR_INZ; apply b64_of_Z_rel; lia).
  set (t := of_Z (Z.of_nat n)) in *.
  assert (rounds (500 * t) (B2R 500 * B2R t)) as R5
      by (unfold rounds in R4; apply b64_mul_rel; rewrite ?H500; p2num;
          Lra.lra).
  rewrite H500 in R5. set (T := 500 * t) in *.
  (* the comparison *)
  unfold rounds in R2, R3, R4, R5.
  assert (rounds (T * (1 + tolerance)) (B2R T * B2R (1 + tolerance))) as R6.
  { assert (B2R T <= B2R T * B2R (1 + tolerance) <= B2R T * 2)%R
      by (split; [rewrite <- (Rmult_1_r (B2R T)) at 1|];
          apply Rmult_le_compat_l; p2num; Lra.lra).
    apply b64_mul_rel; p2num; Lra.lra. }
  assert (rounds (v * (1 + tolerance)) (B2R v * B2R (1 + tolerance))) as R7.
  { assert (B2R v <= B2R v * B2R (1 + tolerance) <= B2R v * 2)%R
      by (split; [rewrite <- (Rmult_1_r (B2R v)) at 1|];
          apply Rmult_le_compat_l; p2num; Lra.lra).
    apply b64_mul_rel; p2num; Lra.lra. }
  unfold rounds in R6, R7.
  assert (B2R T * (1 + 1 / 1000000000) <= B2R T * B2R (1 + tolerance))%R
    as T1 by (apply Rmult_le_compat_l; p2num; Lra.lra).
  assert (B2R v * (1 + 1 / 1000000000) <= B2R v * B2R (1 + tolerance))%R
    as V1 by (apply Rmult_le_compat_l; p2num; Lra.lra).
  unfold close. apply andb_true_iff. split.
  - apply b64_R_leb; p2num; Lra.lra.
  - apply b64_R_leb; p2num; Lra.lra.
Qed.

End B64Tolerance.

(** ** The two theorems at particular inputs *)

Section RealInstances.

Local Open Scope float_scope.

(** twelve months at the price 3, where the final value is one unit in
    the last place above 6000 *)
Lemma b64_equal_weight_constant_price_example :
  in_range 3 = true /\ (1 <= 12)%nat /\ (Z.of_nat 12 <= 1048576)%Z
  /\ exists st v,
    simulate (repeat (3, 3) 12) = Ok st
    /\ last_item (value st EQ) = Ok v
    /\ close v (total_invested (repeat (3, 3) 12)) = true
    /\ ((12 <= 12)%nat ->
        main (repeat (3, 3) 12)
        = Ok (st, total_invested (repeat (3, 3) 12))).
Proof.
  assert (in_range 3 = true) as R by reflexivity.
  assert (1 <= 12)%nat as N1 by lia.
  assert (Z.of_nat 12 <= 1048576)%Z as N2 by (simpl; lia).
  split; [exact R|]. split; [exact N1|]. split; [exact N2|].
  exact (b64_equal_weight_constant_price 3 12 R N1 N2).
Defined.

(** BTC at 60000 and ETH at 3000 *)
Lemma market_cap_weights_bounds_example :
  in_range 60000 = true /\ in_range 3000 = true
  /\ comparable 60000 3000 = true
  /\ ((0 <? fst (mc_weights 60000 3000)) = true
      /\ (fst (mc_weights 60000 3000) <? 1) = true)
  /\ ((0 <? snd (mc_weights 60000 3000)) = true
      /\ (snd (mc_weights 60000 3000) <? 1) = true)
  /\ (0 <? monthly_budget * fst (mc_weights 60000 3000) / 60000) = true
  /\ (0 <? monthly_budget * snd (mc_weights 60000 3000) / 3000) = true.
Proof.
  assert (in_range 60000 = true) as Rb by reflexivity.
  assert (in_range 3000 = true) as Re by reflexivity.
  assert (comparable 60000 3000 = true) as C by reflexivity.
  split; [exact Rb|]. split; [exact Re|]. split; [exact C|].
  exact (proj2 market_cap_weights_bounds 60000 3000 Rb Re C).
Defined.

End RealInstances.

(** ** Instances of the further properties *)

Section FurtherInstances.

Local Open Scope float_scope.

Lemma simulate_prefix_example :
  (5 <= length mixed_year)%nat
  /\ exists st st_k,
    simulate mixed_year = Ok st /\ simulate (firstn 5 mixed_year) = Ok st_k
    /\ loop mixed_year 5 = Ok st_k
    /\ forall s, value st_k s = firstn 5 (value st s).
Proof.
  assert (5 <= length mixed_year)%nat as H by (simpl; lia).
  split; [exact H|]. exact (simulate_prefix mixed_year 5 H).
Defined.

Lemma script_reports_example :
  (12 <= length mixed_year)%nat
  /\ exists st f_ath f_mc f_eq,
    simulate mixed_year = Ok st
    /\ last_item (value st ATH) = Ok f_ath
    /\ last_item (value st MC) = Ok f_mc
    /\ last_item (value st EQ) = Ok f_eq
    /\ script mixed_year
       = Ok [(ATH, f_ath, roi f_ath (total_invested mixed_year));
             (MC, f_mc, roi f_mc (total_invested mixed_year));
             (EQ, f_eq, roi f_eq (total_invested mixed_year))].
Proof.
  assert (12 <= length mixed_year)%nat as H by (simpl; lia).
  split; [exact H|]. exact (script_reports mixed_year H).
Defined.

Lemma b64_every_month_a_high_example :
  forallb is_positive (btc_prices_of rising_year) = true
  /\ (accumulate maximum (btc_prices_of rising_year)
      = btc_prices_of rising_year
      <-> rising (btc_prices_of rising_year)).
Proof.
  assert (forallb is_positive (btc_prices_of rising_year) = true) as P
      by reflexivity.
  split; [exact P|].
  exact (b64_every_month_a_high (btc_prices_of rising_year) P).
Defined.

Lemma b64_ath_idle_on_rising_prices_example :
  forallb valid_row rising_year = true
  /\ rising (btc_prices_of rising_year)
  /\ rising (eth_prices_of rising_year)
  /\ exists st,
    simulate rising_year = Ok st
    /\ btc_holding st ATH = 0 /\ eth_holding st ATH = 0
    /\ value st ATH = repeat 0 (length rising_year).
Proof.
  assert (forallb valid_row rising_year = true) as V by reflexivity.
  pose proof (risingb_rising (btc_prices_of rising_year) eq_refl) as Rb.
  pose proof (risingb_rising (eth_prices_of rising_year) eq_refl) as Re.
  split; [exact V|]. split; [exact Rb|]. split; [exact Re|].
  exact (b64_ath_idle_on_rising_prices rising_year V Rb Re).
Defined.

Lemma b64_values_nonneg_example :
  forallb valid_row mixed_year = true
  /\ exists st,
    simulate mixed_year = Ok st
    /\ forall s v, In v (value st s) ->
         nonneg v = true /\ is_nan v = false.
Proof.
  assert (forallb valid_row mixed_year = true) as V by reflexivity.
  split; [exact V|]. exact (b64_values_nonneg mixed_year V).
Defined.

Lemma b64_ath_weights_unit_example :
  valid_price 90 = true /\ valid_price 40 = true
  /\ (90 <=? 100) = true /\ (40 <=? 50) = true
  /\ let w := ath_weights 90 40 100 50 in
     (nonneg (fst w) = true /\ (fst w <=? 1) = true)
     /\ (nonneg (snd w) = true /\ (snd w <=? 1) = true).
Proof.
  assert (valid_price 90 = true) as Vb by reflexivity.
  assert (valid_price 40 = true) as Ve by reflexivity.
  assert ((90 <=? 100) = true) as Lb by reflexivity.
  assert ((40 <=? 50) = true) as Le by reflexivity.
  split; [exact Vb|]. split; [exact Ve|]. split; [exact Lb|].
  split; [exact Le|].
  exact (b64_ath_weights_unit 90 40 100 50 Vb Ve Lb Le).
Defined.

Lemma b64_ath_report_on_rising_prices_example :
  forallb valid_row rising_year = true
  /\ rising (btc_prices_of rising_year)
  /\ rising (eth_prices_of rising_year)
  /\ (12 <= length rising_year)%nat
  /\ (Z.of_nat (length rising_year) < 2 ^ 63)%Z
  /\ exists f_mc f_eq,
    script rising_year
    = Ok [(ATH, 0, -100);
          (MC, f_mc, roi f_mc (total_invested rising_year));
          (EQ, f_eq, roi f_eq (total_invested rising_year))].
Proof.
  assert (forallb valid_row rising_year = true) as V by reflexivity.
  pose proof (risingb_rising (btc_prices_of rising_year) eq_refl) as Rb.
  pose proof (risingb_rising (eth_prices_of rising_year) eq_refl) as Re.
  assert (12 <= length rising_year)%nat as H12 by (simpl; lia).
  assert (Z.of_nat (length rising_year) < 2 ^ 63)%Z as H63 by reflexivity.
  split; [exact V|]. split; [exact Rb|]. split; [exact Re|].
  split; [exact H12|]. split; [exact H63|].
  exact (b64_ath_report_on_rising_prices rising_year V Rb Re H12 H63).
Defined.

End FurtherInstances.
